(** * Grumble sync service: a shallow embedding and its properties

    The development follows the layout of [deploy/sync-service]:

    - [hashlib]   : MD5 (RFC 1321) and hexadecimal digests, as used by
                    [GroupingService._generate_group_id];
    - [grouping]  : [services/grouping.py];
    - [firestore] : [services/firestore.py], over an explicit document store;
    - [sentiment] : [services/sentiment.py], the language model being an
                    oracle of attempt outcomes;
    - [twitter], [github], [discourse] : the three fetchers, their HTTP
                    calls being oracles;
    - [httpx]     : responses; the retry loops of the HTTP calls and the
                    parsers of the issue tracker are in the module of
                    their service, the outcome of each request being an
                    oracle;
    - [main]      : [main.py], the lock and the [/sync] endpoint.

    The properties follow the embedding, in the same order.

    Python strings are modelled by their UTF-8 byte strings (Rocq [string]),
    dictionaries with a fixed set of keys by records whose optional keys are
    [option] fields, and exceptions by a sum type. *)

From Stdlib Require Import ZArith String Ascii List Lia Bool.
From stdpp Require Import base option list gmap sets strings.

Local Open Scope Z_scope.

(** ** Python values that cross the model's boundaries *)

(** The value of [json.loads]. *)
Unset Elimination Schemes.
Inductive json : Type :=
| JNull
| JBool (b : bool)
| JNum (n : Z)
| JStr (s : string)
| JArr (l : list json)
| JObj (kvs : list (string * json)).
Set Elimination Schemes.

(** [d.get(k)] on a parsed object: the last binding of a repeated key wins,
    as in [json.loads]. *)
Definition obj_get (k : string) (kvs : list (string * json)) : option json :=
  snd <$> find (fun kv => String.eqb (fst kv) k) (rev kvs).

(** Exceptions are told apart by their class only. *)
Inductive exn : Type :=
| TypeError (msg : string)
| AttributeError (msg : string)
| KeyError (msg : string)
| RuntimeError (msg : string)
| HTTPException (status_code : Z) (detail : string).

(** [str(e)]: the message; for a [KeyError] the [repr] of the key, which
    for the plain keys the code subscripts is the key between quotes. *)
Definition exn_str (e : exn) : string :=
  match e with
  | TypeError m | AttributeError m | RuntimeError m => m
  | KeyError k => "'" +:+ k +:+ "'"
  | HTTPException _ d => d
  end.

(** The outcome of a call that may raise. *)
Inductive outcome (A : Type) : Type :=
| Return (a : A)
| Raise (e : exn).
Arguments Return {A} a.
Arguments Raise {A} e.

(** [str.lower] on ASCII text: the letters A to Z are lower-cased and every
    other byte is kept. [str.lower] itself works on the whole of Unicode; it
    is a parameter of the code that calls it, and [lower] stands for it in
    the concrete runs only, whose strings are ASCII. *)
Definition lower_ascii (c : ascii) : ascii :=
  let n := nat_of_ascii c in
  if (65 <=? n)%nat && (n <=? 90)%nat then ascii_of_nat (n + 32) else c.

Fixpoint lower (s : string) : string :=
  match s with
  | EmptyString => EmptyString
  | String c s' => String (lower_ascii c) (lower s')
  end.

(** A byte that continues a UTF-8 sequence: [10xxxxxx]. *)
Definition is_continuation (c : ascii) : bool :=
  let n := nat_of_ascii c in (128 <=? n)%nat && (n <? 192)%nat.

(** The characters of a string, each as its UTF-8 sequence: a byte with the
    continuation bytes that follow it. *)
Fixpoint chars (s : string) : list string :=
  match s with
  | EmptyString => []
  | String c s' =>
      match s' with
      | EmptyString => [String c EmptyString]
      | String d _ =>
          if is_continuation d
          then match chars s' with
               | h :: t => String c h :: t
               | [] => [String c EmptyString]
               end
          else String c EmptyString :: chars s'
      end
  end.

(** [len(x)] of a parsed value; a string counts its characters. *)
Definition json_len (j : json) : outcome nat :=
  match j with
  | JArr l => Return (length l)
  | JObj kvs => Return (length kvs)
  | JStr s => Return (length (chars s))
  | _ => Raise (TypeError "object has no len()")
  end.

(** What a [for] loop or [zip] iterates over in a parsed value; a string
    gives its characters. *)
Definition json_iter (j : json) : outcome (list json) :=
  match j with
  | JArr l => Return l
  | JObj kvs => Return (JStr ∘ fst <$> kvs)
  | JStr s => Return (JStr <$> chars s)
  | _ => Raise (TypeError "object is not iterable")
  end.

(** ** The normalized feedback item

    [item_id] is [item.get("id")]; the enrichment keys are absent until the
    item has been analysed or translated. *)
Record Item : Type := {
  item_id : option string;
  sourceType : string;
  content : string;
  sentiment : option json;
  category : option json;
  summary : option json;
  analyzed : bool;
  translations : option json;
}.

(** Truth value of [item.get("id")] and the like. *)
Definition truthy (s : option string) : bool :=
  match s with
  | Some s => negb (String.eqb s EmptyString)
  | None => false
  end.

(** ** hashlib.md5 *)
Module hashlib.

Definition mask32 : Z := 0xFFFFFFFF.
Definition add32 (x y : Z) : Z := Z.land (x + y) mask32.
Definition not32 (x : Z) : Z := Z.lxor x mask32.
Definition rotl32 (x : Z) (c : Z) : Z :=
  Z.land (Z.lor (Z.shiftl x c) (Z.shiftr x (32 - c))) mask32.

Definition S_table : list Z :=
  [7; 12; 17; 22; 7; 12; 17; 22; 7; 12; 17; 22; 7; 12; 17; 22;
   5; 9; 14; 20; 5; 9; 14; 20; 5; 9; 14; 20; 5; 9; 14; 20;
   4; 11; 16; 23; 4; 11; 16; 23; 4; 11; 16; 23; 4; 11; 16; 23;
   6; 10; 15; 21; 6; 10; 15; 21; 6; 10; 15; 21; 6; 10; 15; 21].

Definition K_table : list Z :=
  [0xd76aa478; 0xe8c7b756; 0x242070db; 0xc1bdceee; 0xf57c0faf; 0x4787c62a; 0xa8304613; 0xfd469501;
   0x698098d8; 0x8b44f7af; 0xffff5bb1; 0x895cd7be; 0x6b901122; 0xfd987193; 0xa679438e; 0x49b40821;
   0xf61e2562; 0xc040b340; 0x265e5a51; 0xe9b6c7aa; 0xd62f105d; 0x02441453; 0xd8a1e681; 0xe7d3fbc8;
   0x21e1cde6; 0xc33707d6; 0xf4d50d87; 0x455a14ed; 0xa9e3e905; 0xfcefa3f8; 0x676f02d9; 0x8d2a4c8a;
   0xfffa3942; 0x8771f681; 0x6d9d6122; 0xfde5380c; 0xa4beea44; 0x4bdecfa9; 0xf6bb4b60; 0xbebfbc70;
   0x289b7ec6; 0xeaa127fa; 0xd4ef3085; 0x04881d05; 0xd9d4d039; 0xe6db99e5; 0x1fa27cf8; 0xc4ac5665;
   0xf4292244; 0x432aff97; 0xab9423a7; 0xfc93a039; 0x655b59c3; 0x8f0ccc92; 0xffeff47d; 0x85845dd1;
   0x6fa87e4f; 0xfe2ce6e0; 0xa3014314; 0x4e0811a1; 0xf7537e82; 0xbd3af235; 0x2ad7d2bb; 0xeb86d391].

(** Little-endian bytes of a word, and back. *)
Definition le_bytes (n : nat) (w : Z) : list Z :=
  map (fun k => Z.land (Z.shiftr w (8 * Z.of_nat k)) 0xFF) (seq 0 n).

Fixpoint le_word (bs : list Z) : Z :=
  match bs with
  | [] => 0
  | b :: bs' => Z.lor b (Z.shiftl (le_word bs') 8)
  end.

(** The message followed by 0x80, zeros up to 56 modulo 64, and the bit
    length on eight bytes. *)
Definition pad (msg : list Z) : list Z :=
  let len := Z.of_nat (length msg) in
  let zeros := Z.to_nat ((55 - len) mod 64) in
  msg ++ [0x80] ++ repeat 0 zeros ++ le_bytes 8 (Z.land (8 * len) 0xFFFFFFFFFFFFFFFF).

Fixpoint words (n : nat) (bs : list Z) : list Z :=
  match n with
  | O => []
  | S n' => le_word (take 4 bs) :: words n' (drop 4 bs)
  end.

Fixpoint blocks (n : nat) (bs : list Z) : list (list Z) :=
  match n with
  | O => []
  | S n' => words 16 (take 64 bs) :: blocks n' (drop 64 bs)
  end.

Definition state : Type := Z * Z * Z * Z.

Definition round (M : list Z) (st : state) (i : nat) : state :=
  let '(a, b, c, d) := st in
  let '(f, g) :=
    if (i <? 16)%nat then (Z.lor (Z.land b c) (Z.land (not32 b) d), i)
    else if (i <? 32)%nat then (Z.lor (Z.land d b) (Z.land (not32 d) c), (5 * i + 1) mod 16)%nat
    else if (i <? 48)%nat then (Z.lxor (Z.lxor b c) d, (3 * i + 5) mod 16)%nat
    else (Z.lxor c (Z.lor b (not32 d)), (7 * i) mod 16)%nat in
  let f' := add32 (add32 (add32 f a) (nth i K_table 0)) (nth g M 0) in
  (d, add32 b (rotl32 f' (nth i S_table 0)), b, c).

Definition compress (st : state) (M : list Z) : state :=
  let '(a0, b0, c0, d0) := st in
  let '(a, b, c, d) := fold_left (round M) (seq 0 64) st in
  (add32 a0 a, add32 b0 b, add32 c0 c, add32 d0 d).

Definition init : state := (0x67452301, 0xefcdab89, 0x98badcfe, 0x10325476).

(** [hashlib.md5(data).digest()], as sixteen bytes. *)
Definition md5 (msg : list Z) : list Z :=
  let p := pad msg in
  let '(a, b, c, d) := fold_left compress (blocks (length p / 64) p) init in
  le_bytes 4 a ++ le_bytes 4 b ++ le_bytes 4 c ++ le_bytes 4 d.

Definition hexdigit (n : Z) : ascii :=
  if n <? 10 then ascii_of_N (Z.to_N (48 + n)) else ascii_of_N (Z.to_N (87 + n)).

Definition hex_byte (b : Z) : list ascii := [hexdigit (Z.shiftr b 4); hexdigit (Z.land b 0xF)].

(** [.hexdigest()] of a digest, as a list of characters. *)
Definition hexdigest (d : list Z) : list ascii := concat (map hex_byte d).

(** [str.encode()]: the bytes of the (already UTF-8) string. *)
Definition encode (s : string) : list Z :=
  map (fun c => Z.of_N (N_of_ascii c)) (list_ascii_of_string s).

End hashlib.

(** ** services/grouping.py *)
Module grouping.

(** A group document. [theme] and [group_id] are the values of
    [group.get("theme")] and [group.get("id")]. *)
Record Group : Type := {
  group_id : option string;
  theme : option string;
  g_sentiment : json;
  g_category : json;
  itemIds : json;
  itemCount : nat;
}.

Definition max_retries : nat := 3.

(** [f"group-{hashlib.md5(theme.encode()).hexdigest()[:12]}"] *)
Definition _generate_group_id (theme : string) : string :=
  "group-" +:+ string_of_list_ascii
                (take 12 (hashlib.hexdigest (hashlib.md5 (hashlib.encode theme)))).

(** [deduplicate_groups]; [str_lower] is [str.lower]. *)
Section deduplication.
Variable str_lower : string -> string.

(** [group.get("theme", '').lower()] *)
Definition theme_lower (g : Group) : string := str_lower (default EmptyString (theme g)).

(** One iteration of the loop of [deduplicate_groups]: the state is
    [(existing_themes, unique)]. *)
Definition dedup_step (st : gset string * list Group) (group : Group)
  : gset string * list Group :=
  let '(existing_themes, unique) := st in
  let theme_lower := theme_lower group in
  if decide (theme_lower ∉ existing_themes)
  then ({[theme_lower]} ∪ existing_themes, unique ++ [group])
  else (existing_themes, unique).

Definition deduplicate_groups (new_groups existing_groups : list Group) : list Group :=
  match new_groups, existing_groups with
  | [], _ => []
  | _, [] => new_groups
  | _, _ =>
      let existing_themes : gset string := list_to_set (theme_lower <$> existing_groups) in
      snd (foldl dedup_step (existing_themes, []) new_groups)
  end.
End deduplication.

(** The body of [for g in raw_groups] for one element. *)
Definition make_group (g : json) : outcome Group :=
  match g with
  | JObj kvs =>
      match obj_get "theme" kvs with
      | None => Raise (KeyError "theme")
      | Some (JStr t) =>
          let ids := default (JArr []) (obj_get "itemIds" kvs) in
          match json_len ids with
          | Raise e => Raise e
          | Return n =>
              Return {| group_id := Some (_generate_group_id t);
                        theme := Some t;
                        g_sentiment := default (JStr "neutral") (obj_get "sentiment" kvs);
                        g_category := default (JStr "other") (obj_get "category" kvs);
                        itemIds := ids;
                        itemCount := n |}
          end
      | Some _ => Raise (AttributeError "object has no attribute 'encode'")
      end
  | _ => Raise (TypeError "indices must be integers")
  end.

Fixpoint make_groups (raw : list json) : outcome (list Group) :=
  match raw with
  | [] => Return []
  | g :: raw' =>
      match make_group g with
      | Raise e => Raise e
      | Return grp =>
          match make_groups raw' with
          | Raise e => Raise e
          | Return grps => Return (grp :: grps)
          end
      end
  end.

(** The retry loop of [_group_items]; [gen attempt] is the outcome of the
    model call, the extraction of the fenced block and [json.loads]. *)
Fixpoint group_attempts (gen : nat -> outcome json) (attempts : list nat)
  : outcome (list Group) :=
  match attempts with
  | [] => Return []
  | attempt :: rest =>
      let r := match gen attempt with
               | Raise e => Raise e
               | Return raw_groups =>
                   match json_iter raw_groups with
                   | Raise e => Raise e
                   | Return l => make_groups l
                   end
               end in
      match r with
      | Return groups => Return groups
      | Raise e =>
          if (attempt <? max_retries - 1)%nat then group_attempts gen rest else Raise e
      end
  end.

(** [item.get('summary', '')[:100]] succeeds on strings and lists only. *)
Definition sliceable (j : option json) : bool :=
  match j with
  | None | Some (JStr _) | Some (JArr _) => true
  | Some _ => false
  end.

(** The prompt lines of [_group_items], built from [items[:50]] before the
    retry loop: [item['id']] needs the key, the summary is sliced. *)
Definition summaries_ok (items : list Item) : outcome unit :=
  if forallb (fun it => bool_decide (is_Some (item_id it))) (take 50 items)
  then if forallb (fun it => sliceable (summary it)) (take 50 items)
       then Return tt
       else Raise (TypeError "object is not subscriptable")
  else Raise (KeyError "id").

Definition _group_items (gen : nat -> outcome json) (items : list Item)
  : outcome (list Group) :=
  match summaries_ok items with
  | Raise e => Raise e
  | Return _ => group_attempts gen (seq 0 max_retries)
  end.

Definition create_groups (gen : nat -> outcome json) (items : list Item) : list Group :=
  match items with
  | [] => []
  | _ =>
      match _group_items gen items with
      | Return groups => groups
      | Raise _ => []
      end
  end.

End grouping.

(** ** The document store and the run-time state *)

(** The store keeps instants. A [datetime] in the program is naive, as
    [datetime.now()] makes it, or timezone-aware, as the Firestore client
    returns every timestamp it reads; Python refuses to order a naive one
    against an aware one. *)
Record datetime : Type := {
  instant : Z;
  aware : bool;
}.

Definition naive (t : Z) : datetime := {| instant := t; aware := false |}.
Definition from_firestore (t : Z) : datetime := {| instant := t; aware := true |}.

(** [a > b] *)
Definition datetime_gt (a b : datetime) : outcome bool :=
  if Bool.eqb (aware a) (aware b)
  then Return (instant a >? instant b)
  else Raise (TypeError "can't compare offset-naive and offset-aware datetimes").

Record LockDoc : Type := {
  acquired_at : option Z;
  expires_at : option Z;
}.

Record SyncState : Type := {
  lastSyncAt : option Z;
  status : option string;
}.

Record Keyword : Type := { kw_enabled : option bool; term : option string }.
Record Repo : Type := { repo_enabled : option bool; repo : option string }.
Record Forum : Type := { forum_enabled : option bool; url : option string }.

Record TwitterConfig : Type := { tw_enabled : option bool; keywords : option (list Keyword) }.
Record GitHubConfig : Type := { gh_enabled : option bool; repos : option (list Repo) }.
Record DiscourseConfig : Type := { dc_enabled : option bool; forums : option (list Forum) }.

(** The value of [FirestoreService.get_config]: a key is present when its
    document exists. *)
Record Config : Type := {
  twitter : option TwitterConfig;
  github : option GitHubConfig;
  discourse : option DiscourseConfig;
}.

(** Collection [grumble-config] holds the lock, the watermark and the source
    documents; [grumble-feedback] and [grumble-groups] are keyed by id. *)
Record Store : Type := {
  sync_lock : option LockDoc;
  sync_state : option SyncState;
  config_docs : Config;
  feedback : gmap string Item;
  groups : gmap string grouping.Group;
}.

(** Store writes, in the order they reach the store. *)
Inductive write : Type :=
| WLockSet
| WLockDelete
| WItem (doc : string)
| WGroup (doc : string)
| WSyncState.

(** Store calls of the pipeline that may fail. *)
Inductive store_op : Type :=
| OpGetConfig
| OpGetSyncState
| OpStreamFeedback
| OpStreamGroups
| OpCommitFeedback (n : nat)
| OpCommitGroups (n : nat)
| OpSetSyncState.

(** The mutable world of one process: the store, the trace of its writes,
    the error log and the number of [datetime.now()] readings so far. *)
Record World : Type := {
  store : Store;
  writes : list write;
  logs : list string;
  ticks : nat;
}.

(** A computation that reads and writes the world and may raise. *)
Definition M (A : Type) : Type := World -> outcome A * World.

Definition ret {A} (a : A) : M A := fun w => (Return a, w).
Definition raise {A} (e : exn) : M A := fun w => (Raise e, w).
Definition bind {A B} (m : M A) (k : A -> M B) : M B :=
  fun w => match m w with
           | (Return a, w') => k a w'
           | (Raise e, w') => (Raise e, w')
           end.

Notation "x <- m ;; k" := (bind m (fun x => k))
  (at level 100, m at next level, right associativity).
Notation "m ;;; k" := (bind m (fun _ => k))
  (at level 100, right associativity).

(** [try: m  except Exception as e: h e] *)
Definition try_except {A} (m : M A) (h : exn -> M A) : M A :=
  fun w => match m w with
           | (Return a, w') => (Return a, w')
           | (Raise e, w') => h e w'
           end.

(** [try: m  finally: f]: [f] runs on every exit of [m]; the outcome is that
    of [m] unless [f] itself raises. *)
Definition try_finally {A} (m : M A) (f : M unit) : M A :=
  fun w => let '(r, w') := m w in
           match f w' with
           | (Return _, w'') => (r, w'')
           | (Raise e, w'') => (Raise e, w'')
           end.

Definition get_store : M Store := fun w => (Return (store w), w).

Definition put_store (s : Store) (ws : list write) : M unit :=
  fun w => (Return tt, {| store := s; writes := writes w ++ ws; logs := logs w; ticks := ticks w |}).

(** [logger.error(msg)] *)
Definition log_error (msg : string) : M unit :=
  fun w => (Return tt, {| store := store w; writes := writes w; logs := logs w ++ [msg]; ticks := ticks w |}).

(** [datetime.now()]: the next reading of the clock. *)
Definition now (clock : nat -> Z) : M Z :=
  fun w => (Return (clock (ticks w)),
            {| store := store w; writes := writes w; logs := logs w; ticks := S (ticks w) |}).

(** A store call fails when the fault oracle says so. *)
Definition store_call (fault : store_op -> option exn) (op : store_op) : M unit :=
  match fault op with
  | Some e => raise e
  | None => ret tt
  end.

(** Lifting of a call that raises but leaves the world alone. *)
Definition lift {A} (o : outcome A) : M A := fun w => (o, w).

(** ** services/firestore.py *)
Module firestore.
Import grouping.

Definition with_lock (l : option LockDoc) (s : Store) : Store :=
  {| sync_lock := l; sync_state := sync_state s; config_docs := config_docs s;
     feedback := feedback s; groups := groups s |}.

Definition with_sync_state (d : option SyncState) (s : Store) : Store :=
  {| sync_lock := sync_lock s; sync_state := d; config_docs := config_docs s;
     feedback := feedback s; groups := groups s |}.

Definition with_feedback (f : gmap string Item) (s : Store) : Store :=
  {| sync_lock := sync_lock s; sync_state := sync_state s; config_docs := config_docs s;
     feedback := f; groups := groups s |}.

Definition with_groups (g : gmap string Group) (s : Store) : Store :=
  {| sync_lock := sync_lock s; sync_state := sync_state s; config_docs := config_docs s;
     feedback := feedback s; groups := g |}.

(** A key of the written document replaces the stored one; a key the
    written document lacks is preserved ([merge=True]). *)
Definition merge_key {A} (new old : option A) : option A :=
  match new with Some _ => new | None => old end.

Definition merge_item (new : Item) (old : option Item) : Item :=
  match old with
  | None => new
  | Some o =>
      {| item_id := merge_key (item_id new) (item_id o);
         sourceType := sourceType new;
         content := content new;
         sentiment := merge_key (sentiment new) (sentiment o);
         category := merge_key (category new) (category o);
         summary := merge_key (summary new) (summary o);
         analyzed := analyzed new;
         translations := merge_key (translations new) (translations o) |}
  end.

Definition merge_group (new : Group) (old : option Group) : Group :=
  match old with
  | None => new
  | Some o =>
      {| group_id := merge_key (group_id new) (group_id o);
         theme := merge_key (theme new) (theme o);
         g_sentiment := g_sentiment new;
         g_category := g_category new;
         itemIds := itemIds new;
         itemCount := itemCount new |}
  end.

Section calls.
Variable fault : store_op -> option exn.
Variable clock : nat -> Z.

Definition get_last_sync_time : M (option Z) :=
  store_call fault OpGetSyncState ;;;
  s <- get_store ;;
  ret (match sync_state s with
       | Some data => lastSyncAt data
       | None => None
       end).

Definition get_config : M Config :=
  store_call fault OpGetConfig ;;;
  s <- get_store ;;
  ret (config_docs s).

Definition get_existing_items : M (gmap string Item) :=
  store_call fault OpStreamFeedback ;;;
  s <- get_store ;;
  ret (feedback s).

Definition get_existing_groups : M (list Group) :=
  store_call fault OpStreamGroups ;;;
  s <- get_store ;;
  ret ((fun kg : string * Group =>
          {| group_id := Some (fst kg); theme := theme (snd kg);
             g_sentiment := g_sentiment (snd kg); g_category := g_category (snd kg);
             itemIds := itemIds (snd kg); itemCount := itemCount (snd kg) |})
         <$> map_to_list (groups s)).

(** One iteration of the loop of [merge_items]. *)
Definition merge_step (existing : gmap string Item) (merged : list Item) (item : Item)
  : list Item :=
  match item_id item with
  | Some i =>
      if truthy (Some i) && bool_decide (existing !! i = None)
      then merged ++ [item] else merged
  | None => merged
  end.

Definition merge_items (new_items : list Item) : M (list Item) :=
  existing <- get_existing_items ;;
  ret (foldl (merge_step existing) [] new_items).

(** [batch.commit()] of the feedback batch number [n] of a call. *)
Definition commit_items (n : nat) (batch : list (string * Item)) : M unit :=
  store_call fault (OpCommitFeedback n) ;;;
  s <- get_store ;;
  put_store
    (with_feedback
       (foldl (fun f kv => <[fst kv := merge_item (snd kv) (f !! fst kv)]> f)
              (feedback s) batch) s)
    (WItem ∘ fst <$> batch).

(** The loop of [save_items]; the state is the pending batch, [count]
    and the number of commits so far. *)
Fixpoint save_items_loop (items : list Item) (batch : list (string * Item))
         (count n : nat) : M (list (string * Item) * nat * nat) :=
  match items with
  | [] => ret (batch, count, n)
  | item :: items' =>
      match item_id item with
      | Some i =>
          if truthy (Some i) then
            let batch := batch ++ [(i, item)] in
            let count := S count in
            if (450 <=? count)%nat
            then commit_items n batch ;;; save_items_loop items' [] O (S n)
            else save_items_loop items' batch count n
          else save_items_loop items' batch count n
      | None => save_items_loop items' batch count n
      end
  end.

Definition save_items (items : list Item) : M unit :=
  st <- save_items_loop items [] O O ;;
  let '(batch, count, n) := st in
  if (0 <? count)%nat then commit_items n batch else ret tt.

Definition commit_groups (n : nat) (batch : list (string * Group)) : M unit :=
  store_call fault (OpCommitGroups n) ;;;
  s <- get_store ;;
  put_store
    (with_groups
       (foldl (fun f kv => <[fst kv := merge_group (snd kv) (f !! fst kv)]> f)
              (groups s) batch) s)
    (WGroup ∘ fst <$> batch).

Fixpoint save_groups_loop (gs : list Group) (batch : list (string * Group))
         (count n : nat) : M (list (string * Group) * nat * nat) :=
  match gs with
  | [] => ret (batch, count, n)
  | group :: gs' =>
      match group_id group with
      | Some i =>
          if truthy (Some i) then
            let batch := batch ++ [(i, group)] in
            let count := S count in
            if (450 <=? count)%nat
            then commit_groups n batch ;;; save_groups_loop gs' [] O (S n)
            else save_groups_loop gs' batch count n
          else save_groups_loop gs' batch count n
      | None => save_groups_loop gs' batch count n
      end
  end.

Definition save_groups (gs : list Group) : M unit :=
  st <- save_groups_loop gs [] O O ;;
  let '(batch, count, n) := st in
  if (0 <? count)%nat then commit_groups n batch else ret tt.

(** [ref.set({"lastSyncAt": datetime.now(), "status": "completed"}, merge=True)] *)
Definition update_sync_timestamp : M unit :=
  t <- now clock ;;
  store_call fault OpSetSyncState ;;;
  s <- get_store ;;
  put_store (with_sync_state (Some {| lastSyncAt := Some t; status := Some "completed" |}) s)
            [WSyncState].
End calls.

End firestore.

(** ** services/sentiment.py

    The items of a call are dictionaries mutated in place: they are kept in
    a heap (the input list, in order) and the lists the service builds hold
    references, that is positions in the heap. [gen i attempt] is the outcome
    of the model call for the batch starting at [i], of the extraction of the
    fenced block and of [json.loads]. *)
Module sentiment.

Definition batch_size : nat := 10.
Definition max_retries : nat := 3.

(** The retry loop of [_analyze_items]. *)
Fixpoint analyze_attempts (gen : nat -> outcome json) (n_items : nat) (attempts : list nat)
  : outcome json :=
  match attempts with
  | [] => Return (JArr (repeat (JObj [("sentiment", JStr "neutral");
                                      ("category", JStr "other")]) n_items))
  | attempt :: rest =>
      match gen attempt with
      | Return j => Return j
      | Raise e =>
          if (attempt <? max_retries - 1)%nat
          then analyze_attempts gen n_items rest
          else Raise e
      end
  end.

Definition _analyze_items (gen : nat -> outcome json) (n_items : nat) : outcome json :=
  analyze_attempts gen n_items (seq 0 max_retries).

(** The four assignments of the success branch. *)
Definition set_analysis (result : list (string * json)) (item : Item) : Item :=
  {| item_id := item_id item; sourceType := sourceType item; content := content item;
     sentiment := Some (default (JStr "neutral") (obj_get "sentiment" result));
     category := Some (default (JStr "other") (obj_get "category" result));
     summary := Some (default (JStr EmptyString) (obj_get "summary" result));
     analyzed := true;
     translations := translations item |}.

(** The three assignments of the [except] branch. *)
Definition set_fallback (item : Item) : Item :=
  {| item_id := item_id item; sourceType := sourceType item; content := content item;
     sentiment := Some (JStr "neutral");
     category := Some (JStr "other");
     summary := summary item;
     analyzed := true;
     translations := translations item |}.

Definition set_translations (trans : json) (item : Item) : Item :=
  {| item_id := item_id item; sourceType := sourceType item; content := content item;
     sentiment := sentiment item; category := category item; summary := summary item;
     analyzed := analyzed item;
     translations := Some trans |}.

(** [for item, result in zip(batch, results)]: [result.get] exists on
    objects only; what was appended before an exception stays appended. *)
Fixpoint apply_results (pairs : list (nat * json)) (heap : list Item) (analyzed : list nat)
  : outcome unit * list Item * list nat :=
  match pairs with
  | [] => (Return tt, heap, analyzed)
  | (r, result) :: pairs' =>
      match result with
      | JObj kvs => apply_results pairs' (alter (set_analysis kvs) r heap) (analyzed ++ [r])
      | _ => (Raise (AttributeError "object has no attribute 'get'"), heap, analyzed)
      end
  end.

(** The [except] branch of [analyze_batch]. *)
Definition apply_fallback (batch : list nat) (heap : list Item) (analyzed : list nat)
  : list Item * list nat :=
  foldl (fun st r => (alter set_fallback r (fst st), snd st ++ [r])) (heap, analyzed) batch.

(** [items[i:i + self.batch_size]], as references. *)
Definition batch_at (n i : nat) : list nat := seq i (Nat.min batch_size (n - i)).

(** [range(0, n, self.batch_size)] *)
Definition batch_starts (n : nat) : list nat :=
  (fun k => k * batch_size)%nat <$> seq 0 ((n + batch_size - 1) / batch_size).

(** The body of the loop of [analyze_batch] for the batch starting at [i]. *)
Definition analyze_one (gen : nat -> nat -> outcome json) (n : nat)
           (st : list Item * list nat) (i : nat) : list Item * list nat :=
  let '(heap, analyzed) := st in
  let batch := batch_at n i in
  let tried :=
    match _analyze_items (gen i) (length batch) with
    | Raise e => (Raise e, heap, analyzed)
    | Return results =>
        match json_iter results with
        | Raise e => (Raise e, heap, analyzed)
        | Return l => apply_results (zip batch l) heap analyzed
        end
    end in
  match tried with
  | (Return _, heap', analyzed') => (heap', analyzed')
  | (Raise _, heap', analyzed') => apply_fallback batch heap' analyzed'
  end.

(** [analyze_batch]: the final heap and the references of [analyzed]. *)
Definition analyze_batch (gen : nat -> nat -> outcome json) (items : list Item)
  : list Item * list nat :=
  foldl (analyze_one gen (length items)) (items, []) (batch_starts (length items)).

(** The list a caller sees: the referenced dictionaries, as they are now. *)
Definition view (heap : list Item) (refs : list nat) : list Item :=
  omap (fun r => heap !! r) refs.

(** The retry loop of [_translate_items]: it never raises. *)
Fixpoint translate_attempts (gen : nat -> outcome json) (batch : list nat)
         (attempts : list nat) (heap : list Item) : list Item :=
  match attempts with
  | [] => heap
  | attempt :: rest =>
      match gen attempt with
      | Raise _ => translate_attempts gen batch rest heap
      | Return translations =>
          match json_iter translations with
          | Raise _ => translate_attempts gen batch rest heap
          | Return l =>
              foldl (fun h rt => alter (set_translations (snd rt)) (fst rt) h) heap (zip batch l)
          end
      end
  end.

(** [translate_batch] returns its argument [items]; only the heap changes. *)
Definition translate_batch (gen : nat -> nat -> outcome json) (heap : list Item)
           (items : list nat) : list Item :=
  foldl (fun h i =>
           translate_attempts (gen i) (take batch_size (drop i items)) (seq 0 max_retries) h)
        heap (batch_starts (length items)).

End sentiment.

(** ** The source fetchers

    The private methods that talk HTTP ([_search_term], [_fetch_issues],
    [_fetch_discussions], [_fetch_latest_topics], [_fetch_topic_posts]) are
    oracles giving the outcome of the call after its own retries. Their
    own loops come after the public methods, in each module. *)

(** [name.split("/", 1)], when the separator occurs. *)
Fixpoint split_slash (s : string) : option (string * string) :=
  match s with
  | EmptyString => None
  | String c s' =>
      if Ascii.eqb c "/" then Some (EmptyString, s')
      else match split_slash s' with
           | Some (a, b) => Some (String c a, b)
           | None => None
           end
  end.

(** [s.rstrip("/")] *)
Fixpoint rstrip_slash (s : string) : string :=
  match s with
  | EmptyString => EmptyString
  | String c s' =>
      let r := rstrip_slash s' in
      if Ascii.eqb c "/" && String.eqb r EmptyString then EmptyString else String c r
  end.

(** The parameters of a method after [self]: name and whether it has a
    default. *)
Definition signature : Type := list (string * bool).

(** Binding of the arguments of a call: [npos] positional arguments and the
    keyword arguments [kwargs]. Python raises [TypeError] on too many
    positional arguments, on a keyword the method does not have or that is
    already bound, and on a parameter without default left unbound. *)
Definition bind_args (name : string) (sig : signature) (npos : nat) (kwargs : list string)
  : outcome unit :=
  if (length sig <? npos)%nat
  then Raise (TypeError (name +:+ "() takes too many positional arguments"))
  else
    match find (fun k => negb (existsb (String.eqb k) (fst <$> drop npos sig))) kwargs with
    | Some k =>
        if existsb (String.eqb k) (fst <$> sig)
        then Raise (TypeError (name +:+ "() got multiple values for argument '" +:+ k +:+ "'"))
        else Raise (TypeError (name +:+ "() got an unexpected keyword argument '" +:+ k +:+ "'"))
    | None =>
        if forallb (fun p => snd p || existsb (String.eqb (fst p)) kwargs) (drop npos sig)
        then Return tt
        else Raise (TypeError (name +:+ "() missing required arguments"))
    end.

(** [d.get(key, default)]: only a dictionary has the method. *)
Definition dict_get (key : string) (default_value : json) (d : json) : outcome json :=
  match d with
  | JObj kvs => Return (default default_value (obj_get key kvs))
  | _ => Raise (AttributeError "object has no attribute 'get'")
  end.

(** [x[:n]]: a list gives its first elements, a string its first
    characters; nothing else takes a slice. *)
Definition json_slice (n : nat) (x : json) : outcome json :=
  match x with
  | JArr l => Return (JArr (take n l))
  | JStr s => Return (JStr (String.concat EmptyString (take n (chars s))))
  | _ => Raise (TypeError "object is not subscriptable")
  end.

(** [d[key]] for a string [key]: a dictionary has the key or raises
    [KeyError]; lists and strings take integers; nothing else is
    subscriptable. *)
Definition json_item (key : string) (d : json) : outcome json :=
  match d with
  | JObj kvs =>
      match obj_get key kvs with
      | Some v => Return v
      | None => Raise (KeyError key)
      end
  | JArr _ => Raise (TypeError "list indices must be integers or slices, not str")
  | JStr _ => Raise (TypeError "string indices must be integers")
  | _ => Raise (TypeError "object is not subscriptable")
  end.

(** [p in s] for strings. *)
Fixpoint is_substring (p s : string) : bool :=
  String.prefix p s
  || match s with
     | EmptyString => false
     | String _ s' => is_substring p s'
     end.

(** [key in x] for a string [key]: a key of a dictionary, an element of a
    list, a substring of a string. *)
Definition json_contains (key : string) (x : json) : outcome bool :=
  match x with
  | JObj kvs => Return (existsb (fun kv => String.eqb (fst kv) key) kvs)
  | JArr l => Return (existsb (fun v => if v is JStr s then String.eqb s key else false) l)
  | JStr s => Return (is_substring key s)
  | _ => Raise (TypeError "argument is not iterable")
  end.

(** Sequencing of calls that may raise. *)
Definition and_then {A B} (o : outcome A) (k : A -> outcome B) : outcome B :=
  match o with
  | Return a => k a
  | Raise e => Raise e
  end.

(** ** httpx and the retry loops

    A response is its status and the outcome of [response.json()]. Which
    statuses [raise_for_status] raises on is the library's matter: the
    fetchers take it as the predicate [rejects]. Each fetcher takes the
    outcome of the request of each attempt as an oracle, opening and closing
    the client included, and is modelled as the run of its loop: what it
    returns or raises, the delays of [asyncio.sleep] in order, and the
    lines of [logger.error]. *)
Module httpx.

Record Response : Type := {
  status_code : Z;
  body : outcome json;
}.

(** What the [try] of an attempt raises: the [HTTPStatusError] of
    [raise_for_status], or another exception. *)
Inductive error : Type :=
| HTTPStatusError (status : Z)
| Other (e : exn).

Definition of_outcome {A} (o : outcome A) : A + error :=
  match o with
  | Return a => inl a
  | Raise e => inr (Other e)
  end.

Definition raise_for_status (rejects : Z -> bool) (response : Response) : unit + error :=
  if rejects (status_code response)
  then inr (HTTPStatusError (status_code response))
  else inl tt.

(** A line of [logger.error]: its text up to the exception, and the
    exception formatted after it. *)
Definition error_line : Type := string * error.

Record run (A : Type) : Type := {
  result : A + error;
  sleeps : list nat;
  errors : list error_line;
}.
Arguments result {A} r.
Arguments sleeps {A} r.
Arguments errors {A} r.

(** [e.response.status_code in [500, 502, 503, 504]] *)
Definition server_error (status : Z) : bool :=
  existsb (Z.eqb status) [500; 502; 503; 504].

End httpx.

Module twitter.

(** [async def search(self, keywords)] *)
Definition search_sig : signature := [("keywords", false)].

Fixpoint search_loop (_search_term : string -> outcome (list Item))
         (enabled_keywords : list Keyword) (all_items : list Item) : M (list Item) :=
  match enabled_keywords with
  | [] => ret all_items
  | keyword :: rest =>
      let term := default EmptyString (term keyword) in
      if String.eqb term EmptyString then search_loop _search_term rest all_items
      else
        all_items' <- try_except
          (items <- lift (_search_term term) ;; ret (all_items ++ items))
          (fun e => log_error ("[Twitter] Error searching '" +:+ term +:+ "': " +:+ exn_str e) ;;;
                    ret all_items) ;;
        search_loop _search_term rest all_items'
  end.

Definition search (_search_term : string -> outcome (list Item)) (keywords : list Keyword)
  : M (list Item) :=
  search_loop _search_term (List.filter (fun k => default true (kw_enabled k)) keywords) [].

(** ** [_search_term] *)
Import httpx.

Definition max_retries : nat := 3.

Section _search_term.
Variable rejects : Z -> bool.
Variable get : nat -> outcome Response.
Variable _parse_tweets : json -> outcome (list Item).

(** The body of the [try]; [None] is the [continue] after a 429, whose
    sleep the loop below does. *)
Definition search_term_try (attempt : nat) : option (list Item) + error :=
  match get attempt with
  | Raise e => inr (Other e)
  | Return response =>
      if status_code response =? 429 then inl None
      else
        match raise_for_status rejects response with
        | inr err => inr err
        | inl _ =>
            match body response with
            | Raise e => inr (Other e)
            | Return data =>
                match _parse_tweets data with
                | Raise e => inr (Other e)
                | Return items => inl (Some items)
                end
            end
        end
  end.

Fixpoint search_term_attempts (attempts : list nat) (slept : list nat)
         (logged : list error_line) : run (list Item) :=
  match attempts with
  | [] => {| result := inl []; sleeps := slept; errors := logged |}
  | attempt :: rest =>
      match search_term_try attempt with
      | inl (Some items) => {| result := inl items; sleeps := slept; errors := logged |}
      | inl None => search_term_attempts rest (slept ++ [2 ^ attempt]%nat) logged
      | inr (HTTPStatusError status) =>
          if server_error status
          then search_term_attempts rest (slept ++ [2 ^ attempt]%nat) logged
          else {| result := inr (HTTPStatusError status); sleeps := slept; errors := logged |}
      | inr (Other e) =>
          let logged := logged ++ [("[Twitter] Request error: ", Other e)] in
          if (attempt <? max_retries - 1)%nat
          then search_term_attempts rest (slept ++ [2 ^ attempt]%nat) logged
          else {| result := inr (Other e); sleeps := slept; errors := logged |}
      end
  end.

Definition _search_term : run (list Item) :=
  search_term_attempts (seq 0 max_retries) [] [].
End _search_term.

End twitter.

Module github.

(** [async def fetch_issues_and_discussions(self, repo, since=None)] *)
Definition fetch_issues_and_discussions_sig : signature := [("repo", false); ("since", true)].

Definition fetch_issues_and_discussions
           (_fetch_issues : string -> string -> option Z -> outcome (list Item))
           (_fetch_discussions : string -> string -> outcome (list Item))
           (r : Repo) (since : option Z) : M (list Item) :=
  if negb (default true (repo_enabled r)) then ret []
  else
    let repo_name := default EmptyString (repo r) in
    match split_slash repo_name with
    | None => ret []
    | Some (owner, name) =>
        items <- try_except
          (issues <- lift (_fetch_issues owner name since) ;; ret issues)
          (fun e => log_error ("[GitHub] Error fetching issues for " +:+ repo_name +:+ ": "
                               +:+ exn_str e) ;;; ret []) ;;
        try_except
          (discussions <- lift (_fetch_discussions owner name) ;; ret (items ++ discussions))
          (fun e => log_error ("[GitHub] Error fetching discussions for " +:+ repo_name +:+ ": "
                               +:+ exn_str e) ;;; ret items)
    end.

(** ** [_fetch_issues] and [_fetch_discussions] *)
Import httpx.

Definition max_retries : nat := 3.

Section _fetch_issues.
Variable rejects : Z -> bool.
Variable get : nat -> outcome Response.
Variable _parse_issues : json -> outcome (list Item).

(** The body of the [try]; [None] is the [continue] after a 429. *)
Definition fetch_issues_try (attempt : nat) : option (list Item) + error :=
  match get attempt with
  | Raise e => inr (Other e)
  | Return response =>
      if status_code response =? 429 then inl None
      else
        match raise_for_status rejects response with
        | inr err => inr err
        | inl _ =>
            match body response with
            | Raise e => inr (Other e)
            | Return issues =>
                match _parse_issues issues with
                | Raise e => inr (Other e)
                | Return items => inl (Some items)
                end
            end
        end
  end.

Fixpoint fetch_issues_attempts (attempts : list nat) (slept : list nat)
  : run (list Item) :=
  match attempts with
  | [] => {| result := inl []; sleeps := slept; errors := [] |}
  | attempt :: rest =>
      match fetch_issues_try attempt with
      | inl (Some items) => {| result := inl items; sleeps := slept; errors := [] |}
      | inl None => fetch_issues_attempts rest (slept ++ [2 ^ attempt]%nat)
      | inr (HTTPStatusError status) =>
          if server_error status
          then fetch_issues_attempts rest (slept ++ [2 ^ attempt]%nat)
          else {| result := inr (HTTPStatusError status); sleeps := slept; errors := [] |}
      | inr (Other e) =>
          if (attempt <? max_retries - 1)%nat
          then fetch_issues_attempts rest (slept ++ [2 ^ attempt]%nat)
          else {| result := inr (Other e); sleeps := slept; errors := [] |}
      end
  end.

Definition _fetch_issues : run (list Item) :=
  fetch_issues_attempts (seq 0 max_retries) [].
End _fetch_issues.

Section _fetch_discussions.
Variable rejects : Z -> bool.
Variable post : nat -> outcome Response.
Variable _parse_discussions : json -> outcome (list Item).

(** [data.get("data", {}).get("repository", {}).get("discussions", {}).get("nodes", [])] *)
Definition discussion_nodes (data : json) : outcome json :=
  match dict_get "data" (JObj []) data with
  | Raise e => Raise e
  | Return d =>
      match dict_get "repository" (JObj []) d with
      | Raise e => Raise e
      | Return repository =>
          match dict_get "discussions" (JObj []) repository with
          | Raise e => Raise e
          | Return discussions => dict_get "nodes" (JArr []) discussions
          end
      end
  end.

Definition fetch_discussions_try (attempt : nat) : list Item + error :=
  match post attempt with
  | Raise e => inr (Other e)
  | Return response =>
      match raise_for_status rejects response with
      | inr err => inr err
      | inl _ =>
          match body response with
          | Raise e => inr (Other e)
          | Return data =>
              match discussion_nodes data with
              | Raise e => inr (Other e)
              | Return discussions => of_outcome (_parse_discussions discussions)
              end
          end
      end
  end.

Fixpoint fetch_discussions_attempts (attempts : list nat) (slept : list nat)
  : run (list Item) :=
  match attempts with
  | [] => {| result := inl []; sleeps := slept; errors := [] |}
  | attempt :: rest =>
      match fetch_discussions_try attempt with
      | inl items => {| result := inl items; sleeps := slept; errors := [] |}
      | inr err =>
          if (attempt <? max_retries - 1)%nat
          then fetch_discussions_attempts rest (slept ++ [2 ^ attempt]%nat)
          else {| result := inl []; sleeps := slept;
                  errors := [("[GitHub] GraphQL error: ", err)] |}
      end
  end.

Definition _fetch_discussions : run (list Item) :=
  fetch_discussions_attempts (seq 0 max_retries) [].
End _fetch_discussions.

(** ** [_parse_issues] and [_parse_discussions]

    [str] is [str(x)] of a decoded value, which an f-string puts in its
    place. Of the keys the item record does not keep, those whose value
    can raise are evaluated all the same, in the order of the display;
    a [get] on the issue itself cannot raise once [issue['id']] has
    succeeded. *)
Section parsers.
Variable str : json -> string.

Definition parse_issue (issue : json) : outcome Item :=
  and_then (json_item "id" issue) (fun id =>
  and_then (json_item "title" issue) (fun title =>
  and_then (dict_get "body" (JStr EmptyString) issue) (fun body =>
  and_then (and_then (dict_get "user" (JObj []) issue)
                     (dict_get "login" (JStr "unknown"))) (fun _ =>
  and_then (json_item "html_url" issue) (fun _ =>
  and_then (and_then (dict_get "reactions" (JObj []) issue)
                     (dict_get "+1" (JNum 0))) (fun _ =>
  Return {| item_id := Some ("github-issue-" +:+ str id);
            sourceType := "github-issue";
            content := str title +:+ String "010" (String "010" (str body));
            sentiment := None; category := None; summary := None;
            analyzed := false; translations := None |})))))).

Fixpoint parse_issues_loop (issues : list json) (items : list Item)
  : outcome (list Item) :=
  match issues with
  | [] => Return items
  | issue :: rest =>
      match json_contains "pull_request" issue with
      | Raise e => Raise e
      | Return true => parse_issues_loop rest items
      | Return false =>
          match parse_issue issue with
          | Raise e => Raise e
          | Return item => parse_issues_loop rest (items ++ [item])
          end
      end
  end.

Definition _parse_issues (issues : json) : outcome (list Item) :=
  match json_iter issues with
  | Raise e => Raise e
  | Return l => parse_issues_loop l []
  end.

Definition parse_discussion (disc : json) : outcome Item :=
  and_then (json_item "id" disc) (fun id =>
  and_then (json_item "title" disc) (fun title =>
  and_then (dict_get "body" (JStr EmptyString) disc) (fun body =>
  and_then (and_then (dict_get "author" (JObj []) disc)
                     (dict_get "login" (JStr "unknown"))) (fun _ =>
  and_then (json_item "url" disc) (fun _ =>
  and_then (and_then (dict_get "comments" (JObj []) disc)
                     (dict_get "totalCount" (JNum 0))) (fun _ =>
  Return {| item_id := Some ("github-discussion-" +:+ str id);
            sourceType := "github-discussion";
            content := str title +:+ String "010" (String "010" (str body));
            sentiment := None; category := None; summary := None;
            analyzed := false; translations := None |})))))).

Fixpoint parse_discussions_loop (discussions : list json) (items : list Item)
  : outcome (list Item) :=
  match discussions with
  | [] => Return items
  | disc :: rest =>
      match parse_discussion disc with
      | Raise e => Raise e
      | Return item => parse_discussions_loop rest (items ++ [item])
      end
  end.

Definition _parse_discussions (discussions : json) : outcome (list Item) :=
  match json_iter discussions with
  | Raise e => Raise e
  | Return l => parse_discussions_loop l []
  end.
End parsers.

End github.

Module discourse.

(** A topic of [latest.json]; [topic_id] is the text of [topic["id"]]. *)
Record Topic : Type := {
  topic_id : option string;
  title : option string;
  slug : option string;
}.

Record Post : Type := { cooked : option string }.

(** [async def fetch_topics(self, forum)] *)
Definition fetch_topics_sig : signature := [("forum", false)].

(** [_create_item]: [topic['id']], [topic['title']] and [topic['slug']] are
    subscripted. *)
Definition _create_item (topic : Topic) (posts : list Post) : outcome Item :=
  match topic_id topic, title topic, slug topic with
  | Some i, Some t, Some _ =>
      let first_post := default {| cooked := None |} (head posts) in
      Return {| item_id := Some ("discourse-" +:+ i);
                sourceType := "discourse";
                content := t +:+ String "010" (String "010" (default EmptyString (cooked first_post)));
                sentiment := None; category := None; summary := None;
                analyzed := false; translations := None |}
  | None, _, _ => Raise (KeyError "id")
  | _, None, _ => Raise (KeyError "title")
  | _, _, None => Raise (KeyError "slug")
  end.

(** The loop over the topics; the items built so far travel in the world of
    the enclosing [try], so they are an argument and part of both results. *)
Fixpoint topics_loop (_fetch_topic_posts : string -> string -> list Post)
         (base_url : string) (topics : list Topic) (items : list Item)
  : outcome unit * list Item :=
  match topics with
  | [] => (Return tt, items)
  | topic :: rest =>
      match topic_id topic with
      | None => (Raise (KeyError "id"), items)
      | Some i =>
          let posts := _fetch_topic_posts base_url i in
          match posts with
          | [] => topics_loop _fetch_topic_posts base_url rest items
          | _ =>
              match _create_item topic posts with
              | Raise e => (Raise e, items)
              | Return item => topics_loop _fetch_topic_posts base_url rest (items ++ [item])
              end
          end
      end
  end.

Definition fetch_topics
           (_fetch_latest_topics : string -> outcome (list Topic))
           (_fetch_topic_posts : string -> string -> list Post)
           (forum : Forum) : M (list Item) :=
  if negb (default true (forum_enabled forum)) then ret []
  else
    let base_url := rstrip_slash (default EmptyString (url forum)) in
    if String.eqb base_url EmptyString then ret []
    else
      match _fetch_latest_topics base_url with
      | Raise e =>
          log_error ("[Discourse] Error fetching from " +:+ base_url +:+ ": " +:+ exn_str e) ;;;
          ret []
      | Return topics =>
          match topics_loop _fetch_topic_posts base_url topics [] with
          | (Return _, items) => ret items
          | (Raise e, items) =>
              log_error ("[Discourse] Error fetching from " +:+ base_url +:+ ": "
                         +:+ exn_str e) ;;;
              ret items
          end
      end.

(** ** [_fetch_latest_topics] and [_fetch_topic_posts]

    Both return the decoded value as it is, sliced. *)
Import httpx.

Definition max_retries : nat := 3.

Section fetches.
Variable rejects : Z -> bool.
Variable get : nat -> outcome Response.

(** [data.get(outer, {}).get(inner, [])[:n]] *)
Definition sliced (outer inner : string) (n : nat) (data : json) : outcome json :=
  match dict_get outer (JObj []) data with
  | Raise e => Raise e
  | Return d =>
      match dict_get inner (JArr []) d with
      | Raise e => Raise e
      | Return l => json_slice n l
      end
  end.

(** The body of the [try] of both fetches; [None] is the [continue]
    after a 429. *)
Definition fetch_try (outer inner : string) (n : nat) (attempt : nat)
  : option json + error :=
  match get attempt with
  | Raise e => inr (Other e)
  | Return response =>
      if status_code response =? 429 then inl None
      else
        match raise_for_status rejects response with
        | inr err => inr err
        | inl _ =>
            match body response with
            | Raise e => inr (Other e)
            | Return data =>
                match sliced outer inner n data with
                | Raise e => inr (Other e)
                | Return l => inl (Some l)
                end
            end
        end
  end.

Fixpoint latest_topics_attempts (attempts : list nat) (slept : list nat) : run json :=
  match attempts with
  | [] => {| result := inl (JArr []); sleeps := slept; errors := [] |}
  | attempt :: rest =>
      match fetch_try "topic_list" "topics" 50 attempt with
      | inl (Some topics) => {| result := inl topics; sleeps := slept; errors := [] |}
      | inl None => latest_topics_attempts rest (slept ++ [2 ^ attempt]%nat)
      | inr err =>
          if (attempt <? max_retries - 1)%nat
          then latest_topics_attempts rest (slept ++ [2 ^ attempt]%nat)
          else {| result := inr err; sleeps := slept; errors := [] |}
      end
  end.

Definition _fetch_latest_topics : run json :=
  latest_topics_attempts (seq 0 max_retries) [].

Fixpoint topic_posts_attempts (attempts : list nat) (slept : list nat) : run json :=
  match attempts with
  | [] => {| result := inl (JArr []); sleeps := slept; errors := [] |}
  | attempt :: rest =>
      match fetch_try "post_stream" "posts" 5 attempt with
      | inl (Some posts) => {| result := inl posts; sleeps := slept; errors := [] |}
      | inl None => topic_posts_attempts rest (slept ++ [2 ^ attempt]%nat)
      | inr err =>
          if (attempt <? max_retries - 1)%nat
          then topic_posts_attempts rest (slept ++ [2 ^ attempt]%nat)
          else {| result := inl (JArr []); sleeps := slept; errors := [] |}
      end
  end.

Definition _fetch_topic_posts : run json :=
  topic_posts_attempts (seq 0 max_retries) [].
End fetches.

End discourse.

(** ** main.py *)
Module main.
Import grouping.

(** Everything outside the process: the environment variables, the clock,
    the store faults, the providers and the language model; and
    [str.lower], which the interpreter provides. *)
Record Env : Type := {
  environ : string -> option string;
  clock : nat -> Z;
  fault : store_op -> option exn;
  _search_term : string -> outcome (list Item);
  _fetch_issues : string -> string -> option Z -> outcome (list Item);
  _fetch_discussions : string -> string -> outcome (list Item);
  _fetch_latest_topics : string -> outcome (list discourse.Topic);
  _fetch_topic_posts : string -> string -> list discourse.Post;
  gen_analysis : nat -> nat -> outcome json;
  gen_grouping : nat -> outcome json;
  gen_translation : nat -> nat -> outcome json;
  str_lower : string -> string;
}.

(** [timedelta(minutes=30)], in seconds, the unit of the clock. *)
Definition ttl : Z := 30 * 60.

(** The write of [acquire_lock]; [datetime.now()] is read once per key. *)
Definition set_lock (clock : nat -> Z) : M bool :=
  t1 <- now clock ;;
  t2 <- now clock ;;
  s <- get_store ;;
  put_store (firestore.with_lock
               (Some {| acquired_at := Some t1; expires_at := Some (t2 + ttl) |}) s)
            [WLockSet] ;;;
  ret true.

(** [expires_at] is the value read from the store, [datetime.now()] is
    naive. The reads and writes of the lock document are taken to
    succeed. *)
Definition acquire_lock (clock : nat -> Z) : M bool :=
  s <- get_store ;;
  match sync_lock s with
  | Some lock_data =>
      match expires_at lock_data with
      | Some expires =>
          t <- now clock ;;
          active <- lift (datetime_gt (from_firestore expires) (naive t)) ;;
          if active then ret false else set_lock clock
      | None => set_lock clock
      end
  | None => set_lock clock
  end.

Definition release_lock : M unit :=
  s <- get_store ;;
  put_store (firestore.with_lock None s) [WLockDelete].

(** A method call: the arguments are bound, then the body runs. *)
Definition call {A} (name : string) (sig : signature) (npos : nat) (kwargs : list string)
           (body : M A) : M A :=
  lift (bind_args name sig npos kwargs) ;;; body.

(** [for x in xs: items = await f(x); acc.extend(items)] *)
Fixpoint extend_each {A} (f : A -> M (list Item)) (xs : list A) (acc : list Item)
  : M (list Item) :=
  match xs with
  | [] => ret acc
  | x :: xs' => items <- f x ;; extend_each f xs' (acc ++ items)
  end.

Definition response : Type := list (string * json).

Definition JLen {A} (l : list A) : json := JNum (Z.of_nat (length l)).

Definition sync_twitter (env : Env) (config : Config) (last_sync : option Z)
           (all_items : list Item) : M (list Item) :=
  if default false (tw_enabled (default {| tw_enabled := None; keywords := None |}
                                        (twitter config)))
  then
    if truthy (environ env "TWITTER_BEARER_TOKEN") then
      let keywords := default [] (keywords (default {| tw_enabled := None; keywords := None |}
                                                    (twitter config))) in
      items <- call "TwitterService.search" twitter.search_sig 1 ["since"]
                    (twitter.search (_search_term env) keywords) ;;
      ret (all_items ++ items)
    else ret all_items
  else ret all_items.

Definition sync_github (env : Env) (config : Config) (last_sync : option Z)
           (all_items : list Item) : M (list Item) :=
  if default false (gh_enabled (default {| gh_enabled := None; repos := None |}
                                        (github config)))
  then
    if truthy (environ env "GITHUB_TOKEN") then
      let repos := default [] (repos (default {| gh_enabled := None; repos := None |}
                                              (github config))) in
      github_items <-
        extend_each
          (fun r => call "GitHubService.fetch_issues_and_discussions"
                         github.fetch_issues_and_discussions_sig 1 ["since"]
                         (github.fetch_issues_and_discussions
                            (_fetch_issues env) (_fetch_discussions env) r last_sync))
          repos [] ;;
      ret (all_items ++ github_items)
    else ret all_items
  else ret all_items.

Definition sync_discourse (env : Env) (config : Config) (all_items : list Item)
  : M (list Item) :=
  if default false (dc_enabled (default {| dc_enabled := None; forums := None |}
                                        (discourse config)))
  then
    let forums := default [] (forums (default {| dc_enabled := None; forums := None |}
                                              (discourse config))) in
    discourse_items <-
      extend_each
        (fun f => call "DiscourseService.fetch_topics" discourse.fetch_topics_sig 1 []
                       (discourse.fetch_topics
                          (_fetch_latest_topics env) (_fetch_topic_posts env) f))
        forums [] ;;
    ret (all_items ++ discourse_items)
  else ret all_items.

(** Phases 2 to 6, entered when [new_items] is not empty. *)
Definition enrich_and_save (env : Env) (all_items new_items : list Item) : M response :=
  let '(heap, analyzed_items) := sentiment.analyze_batch (gen_analysis env) new_items in
  let groups := create_groups (gen_grouping env) (sentiment.view heap analyzed_items) in
  existing_groups <- firestore.get_existing_groups (fault env) ;;
  let unique_groups := deduplicate_groups (str_lower env) groups existing_groups in
  let heap := sentiment.translate_batch (gen_translation env) heap analyzed_items in
  let translated_items := analyzed_items in
  firestore.save_items (fault env) (sentiment.view heap translated_items) ;;;
  firestore.save_groups (fault env) unique_groups ;;;
  firestore.update_sync_timestamp (fault env) (clock env) ;;;
  ret [("synced", JLen translated_items);
       ("groups", JLen unique_groups);
       ("total_fetched", JLen all_items)].

(** Configuration, watermark, phase 1 and the merge with the existing
    items: the fetched items and the new ones among them. *)
Definition fetch_and_merge (env : Env) : M (list Item * list Item) :=
  config <- firestore.get_config (fault env) ;;
  last_sync <- firestore.get_last_sync_time (fault env) ;;
  all_items <- sync_twitter env config last_sync [] ;;
  all_items <- sync_github env config last_sync all_items ;;
  all_items <- sync_discourse env config all_items ;;
  new_items <- firestore.merge_items (fault env) all_items ;;
  ret (all_items, new_items).

Definition no_new_items : response :=
  [("synced", JNum 0); ("groups", JNum 0); ("message", JStr "No new items")].

(** The body of the [try] of [sync_all]. *)
Definition sync_body (env : Env) : M response :=
  fetched <- fetch_and_merge env ;;
  let '(all_items, new_items) := fetched in
  match new_items with
  | [] => ret no_new_items
  | _ => enrich_and_save env all_items new_items
  end.

Definition skipped : response :=
  [("status", JStr "skipped"); ("reason", JStr "Another sync in progress")].

(** The header check of [sync_all]. *)
Definition authorized (authorization : option string) : bool :=
  truthy authorization && String.prefix "Bearer " (default EmptyString authorization).

(** The [except Exception as e] clause of [sync_all]. *)
Definition on_error (e : exn) : M response :=
  log_error ("[Sync] Error: " +:+ exn_str e) ;;;
  raise (HTTPException 500 (exn_str e)).

(** [POST /sync]; [authorization] is the request's header of that name. *)
Definition sync_all (env : Env) (authorization : option string) : M response :=
  if negb (authorized authorization)
  then raise (HTTPException 401 "Unauthorized")
  else
    acquired <- acquire_lock (clock env) ;;
    if negb acquired
    then ret skipped
    else
      try_finally (try_except (sync_body env) on_error) release_lock.

End main.

(** ** Definitions used to state the properties *)

Set Warnings "-clear-no-such-hyp".

(** Decoding of two hexadecimal digits, the inverse of [hashlib.hex_byte]. *)
Definition hex_val (c : ascii) : Z :=
  let n := Z.of_N (N_of_ascii c) in if n <? 58 then n - 48 else n - 87.

Definition unhex_byte (cs : list ascii) : Z :=
  match cs with
  | [h; l] => 16 * hex_val h + hex_val l
  | _ => 0
  end.

Definition is_byte (b : Z) : Prop := 0 <= b < 256.

(** A group the grouping engine creates for a theme. *)
Definition group_of_theme (t : string) : grouping.Group :=
  {| grouping.group_id := Some (grouping._generate_group_id t);
     grouping.theme := Some t;
     grouping.g_sentiment := JStr "neutral";
     grouping.g_category := JStr "other";
     grouping.itemIds := JArr [];
     grouping.itemCount := 0 |}.

(** Deduplication against the existing groups only: a new group stays when
    its lower-cased theme is that of no existing group. *)
Definition dedup_against_existing (str_lower : string -> string)
           (new_groups existing_groups : list grouping.Group) : list grouping.Group :=
  filter (fun g => grouping.theme_lower str_lower g
                   ∉ (grouping.theme_lower str_lower <$> existing_groups))
         new_groups.

(** A new group is kept when its lower-cased theme is that of no existing
    group and of no earlier new group. *)
Definition kept (str_lower : string -> string) (existing_groups earlier : list grouping.Group)
           (g : grouping.Group) : Prop :=
  (grouping.theme_lower str_lower g ∉ (grouping.theme_lower str_lower <$> existing_groups))
  ∧ (grouping.theme_lower str_lower g ∉ (grouping.theme_lower str_lower <$> earlier)).

#[local] Instance kept_dec str_lower existing earlier g :
  Decision (kept str_lower existing earlier g).
Proof. unfold kept. apply _. Defined.

Definition first_of_each_theme (str_lower : string -> string)
           (new_groups existing_groups : list grouping.Group) : list grouping.Group :=
  mjoin (imap (fun i g => if decide (kept str_lower existing_groups (take i new_groups) g)
                          then [g] else [])
              new_groups).

(** The id of the item is not a key of the existing items. *)
Definition absent_from (existing : gmap string Item) (item : Item) : bool :=
  match item_id item with
  | Some i => bool_decide (existing !! i = None)
  | None => true
  end.

(** The id is present, not empty, and not a key of the existing items. *)
Definition is_new (existing : gmap string Item) (item : Item) : bool :=
  truthy (item_id item) && absent_from existing item.


(** A freshly fetched item. *)
Definition fetched_item (i : option string) : Item :=
  {| item_id := i; sourceType := "github-issue"; content := "text"; sentiment := None;
     category := None; summary := None; analyzed := false; translations := None |}.

Definition empty_config : Config := {| twitter := None; github := None; discourse := None |}.

Definition empty_store : Store :=
  {| sync_lock := None; sync_state := None; config_docs := empty_config;
     feedback := ∅; groups := ∅ |}.

Definition world_of (s : Store) : World :=
  {| store := s; writes := []; logs := []; ticks := 0 |}.

(** Frames: what a computation may do to the store and which writes it may
    add to the trace. [ok] relates the store before and after, [okw] is the
    set of permitted writes. *)
Definition framed (ok : Store -> Store -> Prop) (okw : write -> Prop) (w w' : World) : Prop :=
  ok (store w) (store w') ∧ exists ws, writes w' = writes w ++ ws ∧ Forall okw ws.

(** [m] stays within the frame on every exit. *)
Definition preserves (ok : Store -> Store -> Prop) (okw : write -> Prop) {A} (m : M A) : Prop :=
  forall w, framed ok okw w (snd (m w)).



(** The call of [acquire_lock] takes the lock: it returns [True]. *)
Definition acquirable (clock : nat -> Z) (w : World) : bool :=
  if fst (main.acquire_lock clock w) is Return true then true else false.

(** The lock document has an expiry. *)
Definition lock_expiry (w : World) : option Z :=
  lock_data ← sync_lock (store w); expires_at lock_data.

(** What the comparison of the stored expiry with [datetime.now()] raises. *)
Definition naive_against_aware : exn :=
  TypeError "can't compare offset-naive and offset-aware datetimes".

(** The number of clock readings of the check of [acquire_lock]. *)
Definition check_ticks (w : World) : nat :=
  match sync_lock (store w) with
  | Some lock_data => if expires_at lock_data is Some _ then 1 else 0
  | None => 0
  end.

(** The world after a successful [acquire_lock]. *)
Definition locked_world (clock : nat -> Z) (w : World) : World :=
  let k := (ticks w + check_ticks w)%nat in
  {| store := firestore.with_lock
                (Some {| acquired_at := Some (clock k);
                         expires_at := Some (clock (S k) + main.ttl) |}) (store w);
     writes := writes w ++ [WLockSet];
     logs := logs w;
     ticks := S (S k) |}.

(** The world after an [acquire_lock] that does not take the lock: one
    clock reading. *)
Definition refused_world (w : World) : World :=
  {| store := store w; writes := writes w; logs := logs w; ticks := S (ticks w) |}.

(** The world after [release_lock]. *)
Definition released_world (w : World) : World :=
  {| store := firestore.with_lock None (store w);
     writes := writes w ++ [WLockDelete];
     logs := logs w;
     ticks := ticks w |}.

(** Frames of the pipeline: the lock document is left alone; the watermark
    is left alone; nothing is written at all. *)
Definition lock_kept (s s' : Store) : Prop := sync_lock s' = sync_lock s.
Definition not_lock_write (x : write) : Prop := x <> WLockDelete ∧ x <> WLockSet.

Definition watermark_kept (s s' : Store) : Prop := sync_state s' = sync_state s.
Definition is_save_write (x : write) : Prop :=
  match x with
  | WItem _ | WGroup _ => True
  | _ => False
  end.

Definition store_kept (s s' : Store) : Prop := s' = s.
Definition no_write (x : write) : Prop := False.

(** The keys of a response. *)
Definition keys (r : main.response) : list string := fst <$> r.

(** *** Analysis *)

Definition is_obj (j : json) : Prop :=
  match j with
  | JObj _ => True
  | _ => False
  end.

(** The keys of a parsed object; other values have none. *)
Definition fields (j : json) : list (string * json) :=
  match j with
  | JObj kvs => kvs
  | _ => []
  end.

(** The batch starting at [i] is answered: its attempts all fail, or the
    parsed result is an array that has an object for each item of the batch. *)
Definition batch_answered (gen : nat -> nat -> outcome json) (n i : nat) : Prop :=
  match sentiment._analyze_items (gen i) (length (sentiment.batch_at n i)) with
  | Raise _ => True
  | Return (JArr l) =>
      (length (sentiment.batch_at n i) <= length l)%nat ∧ Forall is_obj (take (length (sentiment.batch_at n i)) l)
  | Return _ => False
  end.

(** What the item at position [k] of [n] items becomes: the result at its
    position in its batch is assigned to it, or the defaults when the batch
    failed. *)
Definition analysed (gen : nat -> nat -> outcome json) (n k : nat) (item : Item) : Item :=
  let i := (k / sentiment.batch_size * sentiment.batch_size)%nat in
  match sentiment._analyze_items (gen i) (length (sentiment.batch_at n i)) with
  | Raise _ => sentiment.set_fallback item
  | Return (JArr l) => sentiment.set_analysis (fields (nth (k - i) l JNull)) item
  | Return _ => item
  end.

(** [f k] applied to the items at the positions [k] of [i, i + len). *)
Definition update_range (f : nat -> Item -> Item) (i len : nat) (heap : list Item) : list Item :=
  imap (fun k x => if decide (i <= k < i + len)%nat then f k x else x) heap.

(** An answer: one parsed object with a sentiment. *)
Definition answer (s : string) : json := JObj [("sentiment", JStr s)].

Definition unavailable {A} : outcome A := Raise (RuntimeError "service unavailable").

(** *** Concrete runs *)

Definition quiet_env : main.Env :=
  {| main.environ := fun _ => None;
     main.clock := fun k => 5000 + Z.of_nat k;
     main.fault := fun _ => None;
     main._search_term := fun _ => Return [];
     main._fetch_issues := fun _ _ _ => Return [];
     main._fetch_discussions := fun _ _ => Return [];
     main._fetch_latest_topics := fun _ => Return [];
     main._fetch_topic_posts := fun _ _ => [];
     main.gen_analysis := fun _ _ => unavailable;
     main.gen_grouping := fun _ => unavailable;
     main.gen_translation := fun _ _ => unavailable;
     main.str_lower := lower |}.

(** The issue tracker answers with one issue; the tokens of both the issue
    tracker and the social source are set. *)
Definition tokens_env (fault : store_op -> option exn) : main.Env :=
  {| main.environ := fun k => if String.eqb k "GITHUB_TOKEN" || String.eqb k "TWITTER_BEARER_TOKEN"
                              then Some "token" else None;
     main.clock := fun k => 5000 + Z.of_nat k;
     main.fault := fault;
     main._search_term := fun _ => unavailable;
     main._fetch_issues := fun _ _ _ => Return [fetched_item (Some "github-issue-1")];
     main._fetch_discussions := fun _ _ => unavailable;
     main._fetch_latest_topics := fun _ => Return [];
     main._fetch_topic_posts := fun _ _ => [];
     main.gen_analysis := fun _ _ => unavailable;
     main.gen_grouping := fun _ => unavailable;
     main.gen_translation := fun _ _ => unavailable;
     main.str_lower := lower |}.

Definition github_on : option GitHubConfig :=
  Some {| gh_enabled := Some true;
          repos := Some [{| repo_enabled := None; repo := Some "octo/grumble" |}] |}.

Definition twitter_on : option TwitterConfig :=
  Some {| tw_enabled := Some true;
          keywords := Some [{| kw_enabled := None; term := Some "grumble" |}] |}.

Definition store_with (c : Config) : Store :=
  {| sync_lock := None; sync_state := None; config_docs := c; feedback := ∅; groups := ∅ |}.

Definition github_only : World :=
  world_of (store_with {| twitter := None; github := github_on; discourse := None |}).

Definition twitter_and_github : World :=
  world_of (store_with {| twitter := twitter_on; github := github_on; discourse := None |}).

Definition commit_fails (op : store_op) : option exn :=
  match op with
  | OpCommitFeedback _ => Some (RuntimeError "store unavailable")
  | _ => None
  end.

Definition bearer : option string := Some "Bearer token".

(** *** Saving *)

(** The documents [save_items] writes, in order: the items that have an id,
    each under its id. *)
Definition keyed_items (items : list Item) : list (string * Item) :=
  omap (fun it => if truthy (item_id it) then (fun i => (i, it)) <$> item_id it else None) items.

(** One write with [merge=True]. *)
Definition upsert_item (f : gmap string Item) (kv : string * Item) : gmap string Item :=
  <[fst kv := firestore.merge_item (snd kv) (f !! fst kv)]> f.

(** The world after the documents [kvs] have been written to the feedback
    collection, in order. *)
Definition items_written (kvs : list (string * Item)) (w : World) : World :=
  {| store := firestore.with_feedback (foldl upsert_item (feedback (store w)) kvs) (store w);
     writes := writes w ++ (WItem ∘ fst <$> kvs);
     logs := logs w;
     ticks := ticks w |}.

(** The stored document [stored] has every enrichment key [old] has. *)
Definition keeps_keys (old stored : Item) : Prop :=
  (is_Some (item_id old) -> is_Some (item_id stored))
  ∧ (is_Some (sentiment old) -> is_Some (sentiment stored))
  ∧ (is_Some (category old) -> is_Some (category stored))
  ∧ (is_Some (summary old) -> is_Some (summary stored))
  ∧ (is_Some (translations old) -> is_Some (translations stored)).

(** The documents [save_groups] writes, in order. *)
Definition keyed_groups (gs : list grouping.Group) : list (string * grouping.Group) :=
  omap (fun g => if truthy (grouping.group_id g)
                 then (fun i => (i, g)) <$> grouping.group_id g else None) gs.

Definition upsert_group (f : gmap string grouping.Group) (kv : string * grouping.Group)
  : gmap string grouping.Group :=
  <[fst kv := firestore.merge_group (snd kv) (f !! fst kv)]> f.

Definition groups_written (kvs : list (string * grouping.Group)) (w : World) : World :=
  {| store := firestore.with_groups (foldl upsert_group (groups (store w)) kvs) (store w);
     writes := writes w ++ (WGroup ∘ fst <$> kvs);
     logs := logs w;
     ticks := ticks w |}.

(** A group whose id is derived from its theme, as [_group_items] builds
    it. *)
Definition well_keyed (g : grouping.Group) : Prop :=
  exists t, grouping.theme g = Some t
            ∧ grouping.group_id g = Some (grouping._generate_group_id t).

(** A group as [_group_items] builds it: keyed by its theme, and counting
    its item ids. *)
Definition well_formed_group (g : grouping.Group) : Prop :=
  well_keyed g ∧ json_len (grouping.itemIds g) = Return (grouping.itemCount g).

Definition is_hex_digit (c : ascii) : Prop :=
  In c (list_ascii_of_string "0123456789abcdef").

(** A store that holds the item [old] under the id [i]. *)
Definition store_holding (i : string) (old : Item) : Store :=
  {| sync_lock := None; sync_state := None; config_docs := empty_config;
     feedback := {[ i := old ]}; groups := ∅ |}.

(** An item that has been analysed. *)
Definition analysed_item (i : option string) : Item :=
  {| item_id := i; sourceType := "github-issue"; content := "text";
     sentiment := Some (JStr "negative"); category := Some (JStr "bug");
     summary := Some (JStr "it crashes"); analyzed := true; translations := None |}.

(** *** Fetching *)

(** The world with error lines added to the log. *)
Definition logged (msgs : list string) (w : World) : World :=
  {| store := store w; writes := writes w; logs := logs w ++ msgs; ticks := ticks w |}.

(** The terms [search] asks for: those of the enabled keywords, the empty
    ones left out. *)
Definition active_terms (keywords : list Keyword) : list string :=
  omap (fun k => if default true (kw_enabled k)
                 then if String.eqb (default EmptyString (term k)) EmptyString then None
                      else Some (default EmptyString (term k))
                 else None) keywords.

(** What a fetch contributes: its items, or nothing when it fails. *)
Definition contribution {A} (o : outcome (list A)) : list A :=
  match o with
  | Return items => items
  | Raise _ => []
  end.

(** The line logged for a term whose search fails. *)
Definition search_error (o : string * outcome (list Item)) : option string :=
  match snd o with
  | Return _ => None
  | Raise e => Some ("[Twitter] Error searching '" +:+ fst o +:+ "': " +:+ exn_str e)
  end.

(** The owner and name of a repo that is fetched: it is enabled and its
    name has a slash. *)
Definition fetched_repo (r : Repo) : option (string * string) :=
  if default true (repo_enabled r) then split_slash (default EmptyString (repo r)) else None.

(** An item built by [_create_item] for one of [topics] that has posts. *)
Definition item_of_topics (fp : string -> string -> list discourse.Post) (base_url : string)
           (topics : list discourse.Topic) (item : Item) : Prop :=
  exists topic i,
    topic ∈ topics
    ∧ discourse.topic_id topic = Some i
    ∧ fp base_url i <> []
    ∧ item_id item = Some ("discourse-" +:+ i)
    ∧ analyzed item = false.

(** The social source is asked: it is enabled and its token is set. *)
Definition twitter_asked (env : main.Env) (config : Config) : bool :=
  default false (tw_enabled (default {| tw_enabled := None; keywords := None |}
                                     (twitter config)))
  && truthy (main.environ env "TWITTER_BEARER_TOKEN").

(** *** Enrichment *)

(** What the analysis leaves alone in an item. *)
Definition same_identity (a b : Item) : Prop :=
  item_id b = item_id a ∧ sourceType b = sourceType a ∧ content b = content a
  ∧ translations b = translations a.

(** The item has been through the analysis. *)
Definition enriched (it : Item) : Prop :=
  analyzed it = true ∧ is_Some (sentiment it) ∧ is_Some (category it).

(** What the translation leaves alone in an item. *)
Definition same_analysis (a b : Item) : Prop :=
  item_id b = item_id a ∧ sourceType b = sourceType a ∧ content b = content a
  ∧ sentiment b = sentiment a ∧ category b = category a ∧ summary b = summary a
  ∧ analyzed b = analyzed a.

(** The heap [heap'] holds the items of [heap], each related by [R] to the
    one it was. *)
Definition heap_related (R : Item -> Item -> Prop) (heap heap' : list Item) : Prop :=
  length heap' = length heap
  ∧ forall k a b, heap !! k = Some a -> heap' !! k = Some b -> R a b.

(** Every reference points to an item that has been through the analysis. *)
Definition all_enriched (heap : list Item) (refs : list nat) : Prop :=
  Forall (fun r => exists it, heap !! r = Some it ∧ enriched it) refs.

(** The state of [analyze_batch]: the heap holds the input items, changed
    in their analysis only, and the output refers to analysed items. *)
Definition analysis_sound (items : list Item) (st : list Item * list nat) : Prop :=
  heap_related same_identity items (fst st) ∧ all_enriched (fst st) (snd st).

(** *** Retries *)

(** The response makes a REST fetcher try again: a rate limit, or a server
    error that [raise_for_status] rejects. *)
Definition tried_again (rejects : Z -> bool) (o : outcome httpx.Response) : Prop :=
  exists response,
    o = Return response
    ∧ (httpx.status_code response = 429
       ∨ (rejects (httpx.status_code response) = true
          ∧ httpx.server_error (httpx.status_code response) = true)).

(** The response is a rate limit. *)
Definition rate_limited (o : outcome httpx.Response) : Prop :=
  exists response, o = Return response ∧ httpx.status_code response = 429.

(** The response is refused for good: [raise_for_status] rejects it and it
    is neither a rate limit nor a server error. *)
Definition refused (rejects : Z -> bool) (response : httpx.Response) : Prop :=
  httpx.status_code response <> 429
  ∧ rejects (httpx.status_code response) = true
  ∧ httpx.server_error (httpx.status_code response) = false.

(** The response is accepted and decodes to [data]. *)
Definition accepted (rejects : Z -> bool) (response : httpx.Response) (data : json) : Prop :=
  httpx.status_code response <> 429
  ∧ rejects (httpx.status_code response) = false
  ∧ httpx.body response = Return data.

(** The delays before attempt [k]: 1, 2, 4, ... *)
Definition backoff (k : nat) : list nat := (fun attempt => 2 ^ attempt)%nat <$> seq 0 k.

(** A run that logs no error. *)
Definition quiet_run {A} (r : A + httpx.error) (slept : list nat) : httpx.run A :=
  {| httpx.result := r; httpx.sleeps := slept; httpx.errors := [] |}.

(** The run slept before at most three attempts, with doubling delays, and
    did not sleep after a failure it raises. *)
Definition scheduled {A} (r : httpx.run A) : Prop :=
  exists k, (k <= 3)%nat
            ∧ httpx.sleeps r = backoff k
            ∧ (forall err, httpx.result r = inr err -> (k <= 2)%nat).

(** The bytes of [s] are continuation bytes. *)
Fixpoint continuations (s : string) : bool :=
  match s with
  | EmptyString => true
  | String c s' => is_continuation c && continuations s'
  end.

(** [h] is one UTF-8 sequence: a byte and continuation bytes. *)
Definition is_char (h : string) : bool :=
  match h with
  | String _ t => continuations t
  | EmptyString => false
  end.

(** [h] starts with a byte that is not a continuation byte. *)
Definition leads (h : string) : bool :=
  match h with
  | String c _ => negb (is_continuation c)
  | EmptyString => false
  end.

(** The value is a list or a string of at most [n] elements. *)
Definition at_most (n : nat) (j : json) : Prop :=
  exists len, json_len j = Return len ∧ (len <= n)%nat.

(** [raise_for_status] as it rejects client and server errors. *)
Definition rejects_errors (status : Z) : bool := (400 <=? status) && (status <? 600).

Definition response_of (status : Z) (data : json) : httpx.Response :=
  {| httpx.status_code := status; httpx.body := Return data |}.

(** A service that answers 503, then 429, then 200 with [data]. *)
Definition recovering (data : json) (attempt : nat) : outcome httpx.Response :=
  match attempt with
  | 0%nat => Return (response_of 503 JNull)
  | 1%nat => Return (response_of 429 JNull)
  | _ => Return (response_of 200 data)
  end.

(** A parser that makes one item of any body. *)
Definition one_item (data : json) : outcome (list Item) :=
  Return [fetched_item (Some "github-issue-1")].

(** A service that answers 429 once, then [status]. *)
Definition limited_once (status : Z) (attempt : nat) : outcome httpx.Response :=
  match attempt with
  | 0%nat => Return (response_of 429 JNull)
  | _ => Return (response_of status JNull)
  end.

(** *** Parsing *)

(** The issue is skipped as a pull request. *)
Definition is_pull_request (issue : json) : bool :=
  if json_contains "pull_request" issue is Return true then true else false.

(** An item made of one of the issues [l] that is not a pull request. *)
Definition issue_item (str : json -> string) (l : list json) (item : Item) : Prop :=
  exists issue id,
    issue ∈ l
    ∧ is_pull_request issue = false
    ∧ json_item "id" issue = Return id
    ∧ item_id item = Some ("github-issue-" +:+ str id)
    ∧ sourceType item = "github-issue"
    ∧ analyzed item = false.

(** An issue the parser cannot take: a dictionary without one of the keys
    it subscripts, or whose user is [null]. *)
Definition malformed_issue (issue : json) : Prop :=
  exists kvs,
    issue = JObj kvs
    ∧ (obj_get "id" kvs = None ∨ obj_get "title" kvs = None ∨ obj_get "html_url" kvs = None
       ∨ obj_get "user" kvs = Some JNull).

(** The ids of [items] are ids of none of [others]. *)
Definition ids_apart (items others : list Item) : Prop :=
  Forall (fun a => Forall (fun b => item_id a <> item_id b) others) items.

(** [str] on the values of the concrete pages: strings are themselves,
    integers are written in decimal by one digit. *)
Definition digit_str (j : json) : string :=
  match j with
  | JStr s => s
  | JNum n => String (ascii_of_N (Z.to_N (48 + n))) EmptyString
  | _ => "None"
  end.

(** A page of two issues: the second was opened by a deleted account. *)
Definition issue_of (id : Z) (user : json) : json :=
  JObj [("id", JNum id); ("title", JStr "It crashes"); ("body", JNull);
        ("html_url", JStr "https://github.com/octo/grumble/issues/1"); ("user", user)].

Definition page_with_ghost : json :=
  JArr [issue_of 1 (JObj [("login", JStr "octocat")]); issue_of 2 JNull].

Definition issues_page : json := JArr [issue_of 1 (JObj [("login", JStr "octocat")])].

Definition discussions_page : json :=
  JArr [JObj [("id", JStr "D_1"); ("title", JStr "How to"); ("url", JStr "https://github.com/d")]].

Definition a_topic : discourse.Topic :=
  {| discourse.topic_id := Some "7"; discourse.title := Some "Slow sync";
     discourse.slug := Some "slow-sync" |}.

(** * Properties *)

(** ** hashlib: test vectors and injectivity of the hexadecimal digest *)

Example md5_empty :
  string_of_list_ascii (hashlib.hexdigest (hashlib.md5 [])) = "d41d8cd98f00b204e9800998ecf8427e".
Proof. vm_compute. reflexivity. Qed.

Example md5_abc :
  string_of_list_ascii (hashlib.hexdigest (hashlib.md5 (hashlib.encode "abc")))
  = "900150983cd24fb0d6963f7d28e17f72".
Proof. vm_compute. reflexivity. Qed.

Example md5_two_blocks :
  string_of_list_ascii (hashlib.hexdigest (hashlib.md5 (repeat 97 70)))
  = "0f5c6c4e740bfcc08c3c26ccb2673d46".
Proof. vm_compute. reflexivity. Qed.

Lemma unhex_hex_byte b : is_byte b -> unhex_byte (hashlib.hex_byte b) = b.
Proof.
  intros Hb.
  assert (Hall : forallb (fun n => unhex_byte (hashlib.hex_byte (Z.of_nat n)) =? Z.of_nat n)
                         (seq 0 256) = true) by (vm_compute; reflexivity).
  rewrite forallb_forall in Hall.
  specialize (Hall (Z.to_nat b)).
  rewrite Z2Nat.id in Hall by (destruct Hb; assumption).
  apply Z.eqb_eq, Hall, in_seq. unfold is_byte in Hb. lia.
Qed.

Lemma hex_byte_inj b1 b2 :
  is_byte b1 -> is_byte b2 -> hashlib.hex_byte b1 = hashlib.hex_byte b2 -> b1 = b2.
Proof.
  intros H1 H2 Heq.
  rewrite <- (unhex_hex_byte b1 H1), <- (unhex_hex_byte b2 H2). now rewrite Heq.
Qed.

Lemma hexdigest_cons b d :
  hashlib.hexdigest (b :: d)
  = hashlib.hexdigit (Z.shiftr b 4) :: hashlib.hexdigit (Z.land b 15) :: hashlib.hexdigest d.
Proof. reflexivity. Qed.

Lemma hexdigest_inj d1 : forall d2,
  Forall is_byte d1 -> Forall is_byte d2 ->
  hashlib.hexdigest d1 = hashlib.hexdigest d2 -> d1 = d2.
Proof.
  induction d1 as [|b1 d1 IH]; intros [|b2 d2] F1 F2 Heq; try discriminate; [reflexivity|].
  rewrite !hexdigest_cons in Heq.
  inversion F1; inversion F2; subst.
  injection Heq as Hh Hl Ht.
  f_equal.
  - apply hex_byte_inj; [assumption..|]. unfold hashlib.hex_byte. now rewrite Hh, Hl.
  - now apply IH.
Qed.

Lemma take_hexdigest n : forall d,
  take (2 * n) (hashlib.hexdigest d) = hashlib.hexdigest (take n d).
Proof.
  induction n as [|n IH]; intros [|b d]; try reflexivity.
  replace (2 * S n)%nat with (S (S (2 * n))) by lia.
  rewrite hexdigest_cons. cbn [take]. rewrite hexdigest_cons. now rewrite IH.
Qed.

Lemma le_bytes_is_byte n w : Forall is_byte (hashlib.le_bytes n w).
Proof.
  unfold hashlib.le_bytes. apply Forall_forall. intros b Hb.
  apply list_elem_of_In, in_map_iff in Hb. destruct Hb as (k & <- & _).
  change 255 with (Z.ones 8). rewrite Z.land_ones by lia.
  unfold is_byte. change 256 with (2 ^ 8). apply Z.mod_pos_bound. lia.
Qed.

Lemma md5_is_byte msg : Forall is_byte (hashlib.md5 msg).
Proof.
  unfold hashlib.md5.
  destruct (fold_left _ _ _) as [[[a b] c] d].
  repeat (apply Forall_app; split); apply le_bytes_is_byte.
Qed.

(** ** services/grouping.py *)

(** C3, as the claim states it, fails: the id is derived from the theme as
    given, so a theme and its lower-cased form get different ids. *)
Lemma C3_group_id_case_sensitive :
  grouping._generate_group_id "Bug Reports" <> grouping._generate_group_id (lower "Bug Reports").
Proof.
  intros H. apply String.eqb_eq in H. vm_compute in H. discriminate H.
Qed.

(** C3, amended: the group id is a function of the theme's bytes alone, with
    no case normalisation; two themes have the same id exactly when the first
    six bytes (twelve hexadecimal digits) of their MD5 digests agree. *)
Theorem C3_group_id_eq_iff t1 t2 :
  grouping._generate_group_id t1 = grouping._generate_group_id t2
  <-> take 6 (hashlib.md5 (hashlib.encode t1)) = take 6 (hashlib.md5 (hashlib.encode t2)).
Proof.
  unfold grouping._generate_group_id.
  change 12%nat with (2 * 6)%nat. rewrite !take_hexdigest.
  split.
  - intros H. cbv [String.append] in H.
    injection H as H.
    apply (f_equal list_ascii_of_string) in H.
    rewrite !list_ascii_of_string_of_list_ascii in H.
    apply hexdigest_inj in H; [assumption| |]; apply Forall_take, md5_is_byte.
  - intros ->. reflexivity.
Qed.

Lemma dedup_loop str_lower l : forall (existing p : list grouping.Group) (seen : gset string) acc,
  seen = list_to_set (grouping.theme_lower str_lower <$> existing)
         ∪ list_to_set (grouping.theme_lower str_lower <$> p) ->
  snd (foldl (grouping.dedup_step str_lower) (seen, acc) l)
  = acc ++ mjoin (imap (fun i g => if decide (kept str_lower existing (p ++ take i l) g)
                                   then [g] else []) l).
Proof.
  induction l as [|g l IH]; intros existing p seen acc HS.
  - cbn. now rewrite app_nil_r.
  - cbn [foldl]. rewrite imap_cons. cbn [mjoin list_join]. cbn [take]. rewrite app_nil_r.
    assert (Hext : imap ((fun i g0 => if decide (kept str_lower existing (p ++ take i (g :: l)) g0)
                                     then [g0] else []) ∘ S) l
                   = imap (fun i g0 => if decide (kept str_lower existing ((p ++ [g]) ++ take i l) g0)
                                       then [g0] else []) l).
    { apply imap_ext. intros i x _. cbn. now rewrite <- app_assoc. }
    rewrite Hext. clear Hext.
    unfold grouping.dedup_step at 2.
    assert (Hiff : grouping.theme_lower str_lower g ∉ seen <-> kept str_lower existing p g).
    { subst seen. unfold kept. rewrite not_elem_of_union, !elem_of_list_to_set. tauto. }
    destruct (decide (grouping.theme_lower str_lower g ∉ seen)) as [Hn|Hn].
    + rewrite decide_True by (now apply Hiff).
      rewrite (IH existing (p ++ [g])).
      * now rewrite <- app_assoc.
      * subst seen. rewrite fmap_app, list_to_set_app_L. cbn. set_solver.
    + rewrite decide_False by (now rewrite <- Hiff).
      rewrite (IH existing (p ++ [g])); [reflexivity|].
      subst seen. rewrite fmap_app, list_to_set_app_L. cbn.
      apply dec_stable in Hn. set_solver.
Qed.

(** C8, as the claim states it, fails: of two new groups whose themes differ
    by case only, the second is dropped although no existing group has that
    theme. The themes are ASCII, on which [lower] is [str.lower]. *)
Lemma C8_dedup_drops_repeated_new_theme :
  grouping.deduplicate_groups lower [group_of_theme "Bug"; group_of_theme "bug"]
                              [group_of_theme "Other"]
  <> dedup_against_existing lower [group_of_theme "Bug"; group_of_theme "bug"]
                            [group_of_theme "Other"].
Proof.
  intros H. apply (f_equal length) in H. vm_compute in H. discriminate H.
Qed.

(** C8, amended: when there is no existing group the new groups are returned
    as they are; otherwise [deduplicate_groups] returns, in input order and
    unchanged, the new groups whose lower-cased theme is that of no existing
    group and of no earlier new group, lower-cased by [str.lower], whatever
    function that is. *)
Theorem C8_deduplicate_groups_spec str_lower new_groups existing_groups :
  grouping.deduplicate_groups str_lower new_groups existing_groups
  = match existing_groups with
    | [] => new_groups
    | _ => first_of_each_theme str_lower new_groups existing_groups
    end.
Proof.
  unfold grouping.deduplicate_groups, first_of_each_theme.
  destruct new_groups as [|g l]; [now destruct existing_groups|].
  destruct existing_groups as [|e es]; [reflexivity|].
  rewrite (dedup_loop str_lower (g :: l) (e :: es) []); [reflexivity|].
  cbn. set_solver.
Qed.

(** ** services/firestore.py *)

Lemma merge_loop existing l : forall acc,
  foldl (firestore.merge_step existing) acc l = acc ++ List.filter (is_new existing) l.
Proof.
  induction l as [|it l IH]; intros acc; cbn [foldl List.filter].
  - now rewrite app_nil_r.
  - rewrite IH. unfold firestore.merge_step, is_new, absent_from.
    destruct (item_id it) as [i|]; cbn [truthy andb]; [|reflexivity].
    destruct (negb (i =? EmptyString)%string && bool_decide (existing !! i = None)); [|reflexivity].
    now rewrite <- app_assoc.
Qed.











(** ** services/sentiment.py *)

(** The retry budget of [_analyze_items]: the first attempt that returns
    decides; after three failures the last exception is raised. *)
Lemma _analyze_items_retries gen n :
  sentiment._analyze_items gen n
  = match gen 0%nat with
    | Return j => Return j
    | Raise _ =>
        match gen 1%nat with
        | Return j => Return j
        | Raise _ => gen 2%nat
        end
    end.
Proof.
  unfold sentiment._analyze_items. cbn.
  destruct (gen 0%nat); [reflexivity|]. destruct (gen 1%nat); [reflexivity|].
  now destruct (gen 2%nat).
Qed.

Lemma update_range_ext f g i len heap :
  (forall k, (i <= k < i + len)%nat -> f k = g k) ->
  update_range f i len heap = update_range g i len heap.
Proof.
  intros H. unfold update_range. apply imap_ext. intros k x _.
  destruct (decide (i <= k < i + len)%nat); [|reflexivity]. now rewrite H.
Qed.

Lemma update_range_alter f i len heap :
  update_range f (S i) len (alter (f i) i heap) = update_range f i (S len) heap.
Proof.
  unfold update_range. apply list_eq. intros k.
  rewrite !list_lookup_imap.
  destruct (decide (k = i)) as [->|Hne].
  - rewrite list_lookup_alter_eq. destruct (heap !! i); [|reflexivity]. cbn.
    repeat case_decide; first [reflexivity|lia].
  - rewrite list_lookup_alter_ne by congruence. destruct (heap !! k); [|reflexivity]. cbn.
    repeat case_decide; first [reflexivity|lia].
Qed.

Lemma update_range_nil f i heap : update_range f i 0 heap = heap.
Proof.
  unfold update_range. apply list_eq. intros k. rewrite list_lookup_imap.
  destruct (heap !! k); [|reflexivity]. cbn. case_decide; first [reflexivity|lia].
Qed.

Lemma update_range_app f a len heap :
  update_range f a len (update_range f 0 a heap) = update_range f 0 (a + len) heap.
Proof.
  unfold update_range. apply list_eq. intros k. rewrite !list_lookup_imap.
  destruct (heap !! k); [|reflexivity]. cbn.
  repeat case_decide; first [reflexivity|lia].
Qed.

Lemma update_range_all f heap : update_range f 0 (length heap) heap = imap f heap.
Proof.
  unfold update_range. apply imap_ext. intros k x Hk.
  apply lookup_lt_Some in Hk. case_decide; first [reflexivity|lia].
Qed.

Lemma apply_fallback_spec len : forall i heap refs,
  sentiment.apply_fallback (seq i len) heap refs
  = (update_range (fun _ => sentiment.set_fallback) i len heap, refs ++ seq i len).
Proof.
  unfold sentiment.apply_fallback.
  induction len as [|len IH]; intros i heap refs.
  - cbn. now rewrite update_range_nil, app_nil_r.
  - cbn [seq foldl fst snd]. rewrite IH.
    rewrite (update_range_alter (fun _ => sentiment.set_fallback)). now rewrite <- app_assoc.
Qed.

Lemma apply_results_spec len : forall i l heap refs,
  (len <= length l)%nat -> Forall is_obj (take len l) ->
  sentiment.apply_results (zip (seq i len) l) heap refs
  = (Return tt,
     update_range (fun k => sentiment.set_analysis (fields (nth (k - i) l JNull))) i len heap,
     refs ++ seq i len).
Proof.
  induction len as [|len IH]; intros i l heap refs Hlen Hobj.
  - cbn. now rewrite update_range_nil, app_nil_r.
  - destruct l as [|x l]; [cbn in Hlen; lia|].
    cbn [take] in Hobj. apply Forall_cons in Hobj as [Hx Hobj].
    destruct x as [| | | | |kvs]; try contradiction.
    cbn [seq zip zip_with sentiment.apply_results].
    rewrite IH by (cbn in Hlen; first [lia|assumption]).
    rewrite <- app_assoc. cbn [app]. f_equal. f_equal.
    rewrite <- update_range_alter. rewrite Nat.sub_diag. cbn [nth fields].
    apply update_range_ext. intros k Hk.
    replace (k - i)%nat with (S (k - S i)) by lia. reflexivity.
Qed.

Lemma batch_at_length n i : length (sentiment.batch_at n i) = Nat.min sentiment.batch_size (n - i).
Proof. unfold sentiment.batch_at. apply length_seq. Qed.

Lemma analysed_in_batch gen n m k :
  (m * sentiment.batch_size <= k < m * sentiment.batch_size + sentiment.batch_size)%nat ->
  analysed gen n k
  = fun item =>
      match sentiment._analyze_items (gen (m * sentiment.batch_size)%nat) (length (sentiment.batch_at n (m * sentiment.batch_size))) with
      | Raise _ => sentiment.set_fallback item
      | Return (JArr l) => sentiment.set_analysis (fields (nth (k - m * sentiment.batch_size) l JNull)) item
      | Return _ => item
      end.
Proof.
  intros Hk. unfold analysed.
  replace (k / sentiment.batch_size * sentiment.batch_size)%nat with (m * sentiment.batch_size)%nat; [reflexivity|].
  unfold sentiment.batch_size in *. f_equal.
  apply Nat.div_unique with (r := (k - m * 10)%nat); lia.
Qed.

Lemma analyze_one_spec gen n m heap refs :
  batch_answered gen n (m * sentiment.batch_size) ->
  sentiment.analyze_one gen n (heap, refs) (m * sentiment.batch_size)
  = (update_range (analysed gen n) (m * sentiment.batch_size) (Nat.min sentiment.batch_size (n - m * sentiment.batch_size)) heap,
     refs ++ sentiment.batch_at n (m * sentiment.batch_size)).
Proof.
  intros Hans. unfold sentiment.analyze_one, batch_answered in *.
  set (i := (m * sentiment.batch_size)%nat) in *.
  assert (Hext : forall f,
             (forall k, (i <= k < i + Nat.min sentiment.batch_size (n - i))%nat -> f k = analysed gen n k) ->
             update_range f i (Nat.min sentiment.batch_size (n - i)) heap
             = update_range (analysed gen n) i (Nat.min sentiment.batch_size (n - i)) heap).
  { intros f Hf. now apply update_range_ext. }
  assert (Hin : forall k, (i <= k < i + Nat.min sentiment.batch_size (n - i))%nat ->
                          (m * sentiment.batch_size <= k < m * sentiment.batch_size + sentiment.batch_size)%nat).
  { intros k Hk. fold i. lia. }
  destruct (sentiment._analyze_items (gen i) (length (sentiment.batch_at n i))) as [results|e] eqn:Hres.
  - destruct results as [| | | |l|]; try contradiction.
    destruct Hans as [Hlen Hobj]. cbn [json_iter].
    unfold sentiment.batch_at at 1. rewrite batch_at_length in Hlen, Hobj.
    rewrite apply_results_spec by assumption.
    unfold sentiment.batch_at. f_equal. apply Hext. intros k Hk.
    rewrite (analysed_in_batch gen n m k) by auto. fold i. rewrite Hres.
    reflexivity.
  - unfold sentiment.batch_at at 1. rewrite apply_fallback_spec.
    unfold sentiment.batch_at. f_equal. apply Hext. intros k Hk.
    rewrite (analysed_in_batch gen n m k) by auto. fold i. rewrite Hres.
    reflexivity.
Qed.

Lemma analyze_batches gen items m :
  (forall i, i ∈ sentiment.batch_starts (length items) -> batch_answered gen (length items) i) ->
  (m <= (length items + sentiment.batch_size - 1) / sentiment.batch_size)%nat ->
  foldl (sentiment.analyze_one gen (length items)) (items, [])
        ((fun k => k * sentiment.batch_size)%nat <$> seq 0 m)
  = (update_range (analysed gen (length items)) 0 (Nat.min (m * sentiment.batch_size) (length items)) items,
     seq 0 (Nat.min (m * sentiment.batch_size) (length items))).
Proof.
  intros Hans. induction m as [|m IH]; intros Hm.
  - cbn. now rewrite update_range_nil.
  - rewrite seq_S, fmap_app, foldl_app, IH by lia. cbn [fmap list_fmap foldl plus].
    assert (Hlt : (m * sentiment.batch_size < length items)%nat).
    { unfold sentiment.batch_size in *.
      assert (S m * 10 <= (length items + 10 - 1) / 10 * 10)%nat by nia.
      pose proof (Nat.div_mod_eq (length items + 10 - 1) 10).
      pose proof (Nat.mod_upper_bound (length items + 10 - 1) 10). lia. }
    rewrite analyze_one_spec.
    2:{ apply Hans. unfold sentiment.batch_starts. apply list_elem_of_fmap. exists m. split; [reflexivity|].
        apply elem_of_seq. lia. }
    unfold sentiment.batch_at.
    replace (Nat.min (m * sentiment.batch_size) (length items)) with (m * sentiment.batch_size)%nat by lia.
    rewrite update_range_app, <- seq_app.
    replace (Nat.min (S m * sentiment.batch_size) (length items))
      with (m * sentiment.batch_size + Nat.min sentiment.batch_size (length items - m * sentiment.batch_size))%nat
      by (unfold sentiment.batch_size in *; lia).
    reflexivity.
Qed.

Lemma view_all (heap : list Item) : sentiment.view heap (seq 0 (length heap)) = heap.
Proof.
  unfold sentiment.view. induction heap as [|x heap IH] using rev_ind; [reflexivity|].
  rewrite length_app, Nat.add_comm. cbn [length plus]. rewrite seq_S, omap_app. cbn.
  rewrite lookup_app_r by lia. rewrite Nat.sub_diag. cbn.
  rewrite <- IH at 2. f_equal. apply list_omap_ext. clear IH.
  apply Forall2_same_length_lookup_2; [reflexivity|]. intros k a b Ha Hb.
  rewrite Ha in Hb. injection Hb as <-.
  apply lookup_seq in Ha as [-> Hk]. cbn. now rewrite lookup_app_l by lia.
Qed.

(** C2, as the claim states it, fails: a result array shorter than the batch
    is accepted at the first attempt and the items beyond it are left out of
    the output; and an array whose second element is not an object makes the
    first item appear twice. *)
Lemma C2_length_mismatch_not_detected :
  let items := [fetched_item (Some "github-issue-1"); fetched_item (Some "github-issue-2")] in
  let short := sentiment.analyze_batch (fun _ _ => Return (JArr [answer "positive"])) items in
  let broken := sentiment.analyze_batch
                  (fun _ _ => Return (JArr [answer "positive"; JStr "negative"])) items in
  length (sentiment.view (fst short) (snd short)) = 1%nat
  ∧ snd broken = [0; 0; 1]%nat.
Proof. split; reflexivity. Qed.

(** C2, amended: results are matched to the items of a batch by position,
    and the length of the result is not checked. When every batch either
    fails on all three attempts or yields an array holding an object for each
    of its items, [analyze_batch] returns exactly one output item per input
    item, in input order: the item at position [k] carries the result at its
    position in its batch, or the defaults (sentiment neutral, category
    other, analyzed true) when its batch failed. *)
Theorem C2_analyze_batch_positional gen items :
  (forall i, i ∈ sentiment.batch_starts (length items) -> batch_answered gen (length items) i) ->
  sentiment.analyze_batch gen items = (imap (analysed gen (length items)) items, seq 0 (length items))
  ∧ sentiment.view (fst (sentiment.analyze_batch gen items)) (snd (sentiment.analyze_batch gen items))
    = imap (analysed gen (length items)) items.
Proof.
  intros Hans.
  assert (Heq : sentiment.analyze_batch gen items
                = (imap (analysed gen (length items)) items, seq 0 (length items))).
  { unfold sentiment.analyze_batch, sentiment.batch_starts at 1.
    rewrite analyze_batches; [|assumption|reflexivity].
    assert (Hmin : Nat.min ((length items + sentiment.batch_size - 1) / sentiment.batch_size * sentiment.batch_size)
                           (length items) = length items).
    { unfold sentiment.batch_size.
      pose proof (Nat.div_mod_eq (length items + 10 - 1) 10).
      pose proof (Nat.mod_upper_bound (length items + 10 - 1) 10). lia. }
    rewrite Hmin. now rewrite update_range_all. }
  split; [exact Heq|]. rewrite Heq. cbn [fst snd].
  rewrite <- (length_imap (analysed gen (length items)) items) at 2. apply view_all.
Qed.

(** Witness of C2: twelve items in two batches; the first is answered with
    ten objects, the second fails on every attempt. *)
Lemma C2_analyze_batch_positional_witness :
  let gen : nat -> nat -> outcome json :=
    fun i _ => if (i =? 0)%nat then Return (JArr (repeat (answer "negative") 10))
               else unavailable in
  let items := repeat (fetched_item (Some "github-issue-1")) 12 in
  (forall i, i ∈ sentiment.batch_starts (length items) ->
             batch_answered gen (length items) i)
  ∧ sentiment.analyze_batch gen items
    = (imap (analysed gen (length items)) items, seq 0 (length items))
  ∧ sentiment.view (fst (sentiment.analyze_batch gen items))
                   (snd (sentiment.analyze_batch gen items))
    = imap (analysed gen (length items)) items.
Proof.
  intros gen items.
  assert (H : forall i, i ∈ sentiment.batch_starts (length items) ->
                        batch_answered gen (length items) i).
  { intros i Hi. cbn in Hi.
    apply elem_of_cons in Hi as [->|Hi]; [|apply elem_of_cons in Hi as [->|Hi]].
    - cbn. split; [lia|]. repeat constructor.
    - exact I.
    - now apply not_elem_of_nil in Hi. }
  split; [exact H|]. exact (C2_analyze_batch_positional gen items H).
Defined.

(** ** Frame lemmas for the pipeline *)

Create HintDb frame.

Section frame.
Variable ok : Store -> Store -> Prop.
Variable okw : write -> Prop.
Hypothesis ok_refl : forall s, ok s s.
Hypothesis ok_trans : forall a b c, ok a b -> ok b c -> ok a c.

Lemma framed_same w w' :
  store w' = store w -> writes w' = writes w -> framed ok okw w w'.
Proof.
  intros Hs Hw. split; [rewrite Hs; apply ok_refl|].
  exists []. rewrite app_nil_r. split; [assumption|constructor].
Qed.

Lemma framed_refl w : framed ok okw w w.
Proof. now apply framed_same. Qed.

Lemma framed_trans w1 w2 w3 :
  framed ok okw w1 w2 -> framed ok okw w2 w3 -> framed ok okw w1 w3.
Proof.
  intros [H1 (ws1 & E1 & F1)] [H2 (ws2 & E2 & F2)]. split; [eauto|].
  exists (ws1 ++ ws2). rewrite E2, E1, app_assoc. split; [reflexivity|].
  now apply Forall_app.
Qed.

Lemma preserves_ret {A} (a : A) : preserves ok okw (ret a).
Proof. intros w. apply framed_refl. Qed.

Lemma preserves_raise {A} e : preserves ok okw (@raise A e).
Proof. intros w. apply framed_refl. Qed.

Lemma preserves_lift {A} (o : outcome A) : preserves ok okw (lift o).
Proof. intros w. apply framed_refl. Qed.

Lemma preserves_log_error msg : preserves ok okw (log_error msg).
Proof. intros w. now apply framed_same. Qed.

Lemma preserves_now clock : preserves ok okw (now clock).
Proof. intros w. now apply framed_same. Qed.

Lemma preserves_get_store : preserves ok okw get_store.
Proof. intros w. apply framed_refl. Qed.

Lemma preserves_store_call fault op : preserves ok okw (store_call fault op).
Proof. intros w. unfold store_call. destruct (fault op); apply framed_refl. Qed.

Lemma preserves_bind {A B} (m : M A) (k : A -> M B) :
  preserves ok okw m -> (forall a, preserves ok okw (k a)) -> preserves ok okw (bind m k).
Proof.
  intros Hm Hk w. unfold bind. specialize (Hm w).
  destruct (m w) as [[a|e] w1]; cbn in Hm; [|exact Hm].
  eapply framed_trans; [exact Hm|apply Hk].
Qed.

Lemma preserves_try_except {A} (m : M A) (h : exn -> M A) :
  preserves ok okw m -> (forall e, preserves ok okw (h e)) ->
  preserves ok okw (try_except m h).
Proof.
  intros Hm Hh w. unfold try_except. specialize (Hm w).
  destruct (m w) as [[a|e] w1]; cbn in Hm; [exact Hm|].
  eapply framed_trans; [exact Hm|apply Hh].
Qed.

Hint Resolve preserves_ret preserves_raise preserves_lift preserves_log_error preserves_now
     preserves_get_store preserves_store_call : frame.

(** Goals of the form [preserves ok okw m] follow the syntax of [m]. *)
Ltac frame :=
  repeat match goal with
         | |- preserves _ _ (bind _ _) => apply preserves_bind; [|intros ?]
         | |- preserves _ _ (try_except _ _) => apply preserves_try_except; [|intros ?]
         | |- preserves _ _ (if ?b then _ else _) => destruct b
         | |- preserves _ _ (match ?x with _ => _ end) => destruct x
         | |- preserves _ _ _ => solve [eauto with frame]
         end.

(** *** Reads of the store and the fetchers *)

Lemma preserves_get_config fault : preserves ok okw (firestore.get_config fault).
Proof. unfold firestore.get_config. frame. Qed.

Lemma preserves_get_last_sync_time fault :
  preserves ok okw (firestore.get_last_sync_time fault).
Proof. unfold firestore.get_last_sync_time. frame. Qed.

Lemma preserves_get_existing_groups fault :
  preserves ok okw (firestore.get_existing_groups fault).
Proof. unfold firestore.get_existing_groups. frame. Qed.

Lemma preserves_merge_items fault items : preserves ok okw (firestore.merge_items fault items).
Proof. unfold firestore.merge_items, firestore.get_existing_items. frame. Qed.

Lemma preserves_search_loop st kws : forall acc,
  preserves ok okw (twitter.search_loop st kws acc).
Proof.
  induction kws as [|k kws IH]; intros acc; cbn [twitter.search_loop]; frame.
  all: try apply IH.
Qed.

Lemma preserves_search st kws : preserves ok okw (twitter.search st kws).
Proof. apply preserves_search_loop. Qed.

Lemma preserves_fetch_issues_and_discussions fi fd r since :
  preserves ok okw (github.fetch_issues_and_discussions fi fd r since).
Proof. unfold github.fetch_issues_and_discussions. frame. Qed.

Lemma preserves_fetch_topics ft fp forum :
  preserves ok okw (discourse.fetch_topics ft fp forum).
Proof. unfold discourse.fetch_topics. frame. Qed.

Lemma preserves_call {A} name sig npos kwargs (body : M A) :
  preserves ok okw body -> preserves ok okw (main.call name sig npos kwargs body).
Proof. intros Hb. unfold main.call. frame. Qed.

Lemma preserves_extend_each {A} (f : A -> M (list Item)) xs :
  (forall x, preserves ok okw (f x)) -> forall acc, preserves ok okw (main.extend_each f xs acc).
Proof.
  intros Hf. induction xs as [|x xs IH]; intros acc; cbn [main.extend_each]; frame.
Qed.

Hint Resolve preserves_get_config preserves_get_last_sync_time preserves_get_existing_groups
     preserves_merge_items preserves_search preserves_fetch_issues_and_discussions
     preserves_fetch_topics preserves_call preserves_extend_each : frame.

Lemma preserves_sync_twitter env config last_sync acc :
  preserves ok okw (main.sync_twitter env config last_sync acc).
Proof. unfold main.sync_twitter. frame. Qed.

Lemma preserves_sync_github env config last_sync acc :
  preserves ok okw (main.sync_github env config last_sync acc).
Proof. unfold main.sync_github. frame. Qed.

Lemma preserves_sync_discourse env config acc :
  preserves ok okw (main.sync_discourse env config acc).
Proof. unfold main.sync_discourse. frame. Qed.

Hint Resolve preserves_sync_twitter preserves_sync_github preserves_sync_discourse : frame.

Lemma preserves_fetch_and_merge env : preserves ok okw (main.fetch_and_merge env).
Proof. unfold main.fetch_and_merge. frame. Qed.

(** *** Writes of items and groups *)

Hypothesis ok_feedback : forall s f, ok s (firestore.with_feedback f s).
Hypothesis ok_groups : forall s g, ok s (firestore.with_groups g s).
Hypothesis okw_item : forall d, okw (WItem d).
Hypothesis okw_group : forall d, okw (WGroup d).

Lemma preserves_commit_items fault n batch :
  preserves ok okw (firestore.commit_items fault n batch).
Proof.
  intros w. unfold firestore.commit_items, bind, store_call, get_store, put_store, ret, raise.
  destruct (fault (OpCommitFeedback n)); [apply framed_refl|].
  split; [apply ok_feedback|]. eexists. split; [reflexivity|].
  apply Forall_fmap, Forall_true. intros x. apply okw_item.
Qed.

Lemma preserves_commit_groups fault n batch :
  preserves ok okw (firestore.commit_groups fault n batch).
Proof.
  intros w. unfold firestore.commit_groups, bind, store_call, get_store, put_store, ret, raise.
  destruct (fault (OpCommitGroups n)); [apply framed_refl|].
  split; [apply ok_groups|]. eexists. split; [reflexivity|].
  apply Forall_fmap, Forall_true. intros x. apply okw_group.
Qed.

Hint Resolve preserves_commit_items preserves_commit_groups : frame.

Lemma preserves_save_items_loop fault items : forall batch count n,
  preserves ok okw (firestore.save_items_loop fault items batch count n).
Proof.
  induction items as [|it items IH]; intros batch count n;
    cbn [firestore.save_items_loop]; frame.
  all: try apply IH.
Qed.

Lemma preserves_save_groups_loop fault gs : forall batch count n,
  preserves ok okw (firestore.save_groups_loop fault gs batch count n).
Proof.
  induction gs as [|g gs IH]; intros batch count n;
    cbn [firestore.save_groups_loop]; frame.
  all: try apply IH.
Qed.

Hint Resolve preserves_save_items_loop preserves_save_groups_loop : frame.

Lemma preserves_save_items fault items : preserves ok okw (firestore.save_items fault items).
Proof. unfold firestore.save_items. frame. Qed.

Lemma preserves_save_groups fault gs : preserves ok okw (firestore.save_groups fault gs).
Proof. unfold firestore.save_groups. frame. Qed.

Hint Resolve preserves_save_items preserves_save_groups preserves_fetch_and_merge : frame.

(** *** The watermark is the last step of the pipeline *)






Hypothesis ok_sync_state : forall s d, ok s (firestore.with_sync_state d s).
Hypothesis okw_sync_state : okw WSyncState.

Lemma preserves_update_sync_timestamp fault clock :
  preserves ok okw (firestore.update_sync_timestamp fault clock).
Proof.
  intros w.
  unfold firestore.update_sync_timestamp, bind, now, store_call, get_store, put_store,
    ret, raise.
  destruct (fault OpSetSyncState); [now apply framed_same|].
  split; [apply ok_sync_state|]. exists [WSyncState]. split; [reflexivity|].
  now constructor.
Qed.

Hint Resolve preserves_update_sync_timestamp : frame.

Lemma preserves_enrich_and_save env all_items new_items :
  preserves ok okw (main.enrich_and_save env all_items new_items).
Proof.
  unfold main.enrich_and_save.
  destruct (sentiment.analyze_batch _ _) as [heap refs]. frame.
Qed.

Hint Resolve preserves_enrich_and_save : frame.

Lemma preserves_sync_body env : preserves ok okw (main.sync_body env).
Proof. unfold main.sync_body. frame. Qed.

End frame.

(** ** main.py: the lock *)

(** [acquire_lock] as a function of the world: it takes the lock when the
    lock document is absent or has no expiry; on a document with an expiry
    the comparison raises, whatever the expiry and the clock. *)
Lemma acquire_lock_expiry clock w :
  main.acquire_lock clock w
  = match lock_expiry w with
    | None => (Return true, locked_world clock w)
    | Some _ => (Raise naive_against_aware, refused_world w)
    end.
Proof.
  unfold main.acquire_lock, lock_expiry, locked_world, refused_world, check_ticks,
    main.set_lock, bind, get_store, now, put_store, ret, lift.
  destruct w as [s ws lg tk]. cbn.
  destruct (sync_lock s) as [d|]; cbn.
  - destruct (expires_at d) as [e|]; cbn; [reflexivity|].
    rewrite Nat.add_0_r. reflexivity.
  - rewrite Nat.add_0_r. reflexivity.
Qed.

Lemma acquirable_expiry clock w :
  acquirable clock w = if lock_expiry w is Some _ then false else true.
Proof. unfold acquirable. rewrite acquire_lock_expiry. now destruct (lock_expiry w). Qed.

Lemma acquire_lock_eq clock w :
  main.acquire_lock clock w
  = if acquirable clock w
    then (Return true, locked_world clock w)
    else (Raise naive_against_aware, refused_world w).
Proof.
  rewrite acquirable_expiry, acquire_lock_expiry. now destruct (lock_expiry w).
Qed.

(** C4, as the code has it: the stored expiry comes back from the store
    timezone-aware and is compared with the naive [datetime.now()], which
    raises [TypeError]. So a lock document with an expiry, in the past or in
    the future, makes [acquire_lock] raise, having read the clock once and
    written nothing; after a call that took the lock, the next call raises
    whatever time has elapsed, within the thirty minutes or after them; and
    no call returns false. *)
Theorem C4_acquire_lock_raises_on_lock_record clock clock' w :
  (forall expires,
      lock_expiry w = Some expires ->
      main.acquire_lock clock w = (Raise naive_against_aware, refused_world w))
  ∧ (fst (main.acquire_lock clock w) = Return true ->
     main.acquire_lock clock' (snd (main.acquire_lock clock w))
     = (Raise naive_against_aware, refused_world (snd (main.acquire_lock clock w))))
  ∧ fst (main.acquire_lock clock w) <> Return false.
Proof.
  split; [|split].
  - intros expires He. now rewrite acquire_lock_expiry, He.
  - rewrite (acquire_lock_expiry clock w).
    destruct (lock_expiry w); [discriminate|]. intros _.
    cbn [snd]. now rewrite acquire_lock_expiry.
  - rewrite acquire_lock_expiry. destruct (lock_expiry w); discriminate.
Qed.

(** Witness of C4: on an empty store the first call takes the lock; the
    second call, one second later, raises instead of returning false, and
    so does a call two hours later, when the lock has expired. *)
Lemma C4_acquire_lock_raises_on_lock_record_witness :
  let clock : nat -> Z := fun k => 5000 + Z.of_nat k in
  let later : nat -> Z := fun k => 12200 + Z.of_nat k in
  let w := world_of empty_store in
  let w1 := locked_world clock w in
  main.acquire_lock clock w = (Return true, w1)
  ∧ lock_expiry w1 = Some (5001 + main.ttl)
  ∧ main.acquire_lock clock w1 = (Raise naive_against_aware, refused_world w1)
  ∧ main.acquire_lock later w1 = (Raise naive_against_aware, refused_world w1).
Proof.
  intros clock later w w1.
  split; [reflexivity|]. split; [reflexivity|]. split.
  - exact (proj1 (C4_acquire_lock_raises_on_lock_record clock clock w1) _ eq_refl).
  - exact (proj1 (C4_acquire_lock_raises_on_lock_record later clock w1) _ eq_refl).
Defined.

(** ** main.py: the endpoint *)

Lemma sync_all_acquired env auth w :
  main.authorized auth = true -> acquirable (main.clock env) w = true ->
  main.sync_all env auth w
  = try_finally (try_except (main.sync_body env) main.on_error) main.release_lock
                (locked_world (main.clock env) w).
Proof.
  intros Hauth Hacq. unfold main.sync_all. rewrite Hauth. cbn [negb].
  unfold bind at 1. rewrite acquire_lock_eq, Hacq. reflexivity.
Qed.

Lemma try_finally_release {A} (m : M A) w :
  try_finally m main.release_lock w = (fst (m w), released_world (snd (m w))).
Proof. unfold try_finally. destruct (m w) as [r w']. reflexivity. Qed.

Lemma preserves_on_error ok okw :
  (forall s, ok s s) -> (forall a b c, ok a b -> ok b c -> ok a c) ->
  forall e, preserves ok okw (main.on_error e).
Proof.
  intros Hr Ht e. unfold main.on_error.
  apply preserves_bind; [assumption..|apply preserves_log_error; assumption|].
  intros _. now apply preserves_raise.
Qed.

(** The side conditions of the frames of the pipeline. *)
Ltac frame_side :=
  unfold lock_kept, not_lock_write, watermark_kept, is_save_write, store_kept, no_write;
  try solve [intros; cbn; repeat split; congruence].

(** C5: in every run of the endpoint that acquires the lock, whatever the
    outcome (the success response, the early return when nothing is new, or
    an exception raised in any phase), [release_lock] runs exactly once: the
    trace of the run is the write of the lock, writes that do not touch the
    lock, and one deletion of the lock at the end; the lock document is gone
    when the endpoint returns. *)
Theorem C5_release_exactly_once env auth w :
  main.authorized auth = true ->
  acquirable (main.clock env) w = true ->
  sync_lock (store (snd (main.sync_all env auth w))) = None
  ∧ exists ws,
      writes (snd (main.sync_all env auth w)) = writes w ++ WLockSet :: ws ++ [WLockDelete]
      ∧ Forall not_lock_write ws.
Proof.
  intros Hauth Hacq. rewrite sync_all_acquired, try_finally_release by assumption.
  split; [reflexivity|].
  assert (Hp : preserves lock_kept not_lock_write
                         (try_except (main.sync_body env) main.on_error)).
  { apply preserves_try_except; frame_side.
    - apply preserves_sync_body; frame_side.
    - apply preserves_on_error; frame_side. }
  destruct (Hp (locked_world (main.clock env) w)) as [_ (ws & Hw & Hf)].
  exists ws. split; [|assumption]. cbn [released_world snd writes].
  rewrite Hw. cbn. now rewrite <- !app_assoc.
Qed.

Lemma try_except_on_error (m : M main.response) w :
  try_except m main.on_error w
  = match m w with
    | (Return a, w') => (Return a, w')
    | (Raise e, w') =>
        (Raise (HTTPException 500 (exn_str e)),
         {| store := store w'; writes := writes w';
            logs := logs w' ++ ["[Sync] Error: " +:+ exn_str e]; ticks := ticks w' |})
    end.
Proof. unfold try_except. destruct (m w) as [[a|e] w']; reflexivity. Qed.


(** Witness of C5: the issue tracker delivers one item and the first commit
    of the items fails. *)
Lemma C5_release_exactly_once_witness :
  let env := tokens_env commit_fails in
  main.authorized bearer = true
  ∧ acquirable (main.clock env) github_only = true
  ∧ sync_lock (store (snd (main.sync_all env bearer github_only))) = None
  ∧ exists ws,
      writes (snd (main.sync_all env bearer github_only))
      = writes github_only ++ WLockSet :: ws ++ [WLockDelete]
      ∧ Forall not_lock_write ws.
Proof.
  intros env. split; [reflexivity|]. split; [reflexivity|].
  apply (C5_release_exactly_once env bearer github_only); reflexivity.
Defined.




Lemma enrich_and_save_return env all_items new_items w resp w' :
  main.enrich_and_save env all_items new_items w = (Return resp, w') ->
  exists s g,
    resp = [("synced", JNum s); ("groups", JNum g); ("total_fetched", main.JLen all_items)].
Proof.
  unfold main.enrich_and_save.
  destruct (sentiment.analyze_batch _ _) as [heap refs].
  unfold bind at 1. destruct (firestore.get_existing_groups _ w) as [[eg|e] w1]; [|discriminate].
  unfold bind at 1. destruct (firestore.save_items _ _ w1) as [[[]|e] w2]; [|discriminate].
  unfold bind at 1. destruct (firestore.save_groups _ _ w2) as [[[]|e] w3]; [|discriminate].
  unfold bind at 1.
  destruct (firestore.update_sync_timestamp _ _ w3) as [[[]|e] w4]; [|discriminate].
  unfold ret, main.JLen. intros [= <- <-]. eauto.
Qed.

(** C9, amended: a run that acquires the lock and returns normally has
    fetched and merged; when no new item remains the response is
    [{synced: 0, groups: 0, message: "No new items"}], without the key
    [total_fetched]; otherwise it is
    [{synced: int, groups: int, total_fetched: int}], [total_fetched] being
    the number of fetched items. *)
Theorem C9_response_shapes env auth w resp :
  main.authorized auth = true ->
  acquirable (main.clock env) w = true ->
  fst (main.sync_all env auth w) = Return resp ->
  exists all_items new_items w2,
    main.fetch_and_merge env (locked_world (main.clock env) w)
    = (Return (all_items, new_items), w2)
    ∧ ((new_items = [] ∧ resp = main.no_new_items)
       ∨ (new_items <> []
          ∧ exists s g,
              resp = [("synced", JNum s); ("groups", JNum g);
                      ("total_fetched", main.JLen all_items)])).
Proof.
  intros Hauth Hacq.
  rewrite sync_all_acquired, try_finally_release, try_except_on_error by assumption.
  unfold main.sync_body, bind.
  destruct (main.fetch_and_merge env _) as [[[all_items new_items]|e] w2]; [|discriminate].
  destruct new_items as [|it new_items].
  - cbn. intros [= <-]. exists all_items, [], w2. split; [reflexivity|]. now left.
  - destruct (main.enrich_and_save env all_items (it :: new_items) w2) as [[a|e] w3] eqn:Hrun;
      [|discriminate].
    cbn. intros [= <-]. exists all_items, (it :: new_items), w2. split; [reflexivity|].
    right. split; [discriminate|]. eapply enrich_and_save_return, Hrun.
Qed.

(** C10: when the merge yields no new item, the run returns at once with
    [synced = 0]; its only store writes are the write and the deletion of the
    lock; the items, the groups and the watermark are as before. *)
(** C9, as the claim states it, fails: the response of a run without new
    items has the key [message] and lacks [total_fetched]. *)
Lemma C9_no_new_items_response_keys :
  fst (main.sync_all quiet_env bearer (world_of empty_store)) = Return main.no_new_items
  ∧ keys main.no_new_items <> ["synced"; "groups"; "total_fetched"].
Proof. split; [vm_compute; reflexivity|discriminate]. Qed.

(** Witness of C9: one new issue is analysed with the defaults and saved. *)
Lemma C9_response_shapes_witness :
  let env := tokens_env (fun _ => None) in
  let resp := [("synced", JNum 1); ("groups", JNum 0); ("total_fetched", JNum 1)] in
  main.authorized bearer = true
  ∧ acquirable (main.clock env) github_only = true
  ∧ fst (main.sync_all env bearer github_only) = Return resp
  ∧ exists all_items new_items w2,
      main.fetch_and_merge env (locked_world (main.clock env) github_only)
      = (Return (all_items, new_items), w2)
      ∧ ((new_items = [] ∧ resp = main.no_new_items)
         ∨ (new_items <> []
            ∧ exists s g,
                resp = [("synced", JNum s); ("groups", JNum g);
                        ("total_fetched", main.JLen all_items)])).
Proof.
  intros env resp.
  assert (H : fst (main.sync_all env bearer github_only) = Return resp)
    by (vm_compute; reflexivity).
  split; [reflexivity|]. split; [reflexivity|]. split; [exact H|].
  exact (C9_response_shapes env bearer github_only resp eq_refl eq_refl H).
Defined.

(** C10: when the merge yields no new item, the run returns at once with
    [synced = 0]; its only store writes are the write and the deletion of the
    lock; the items, the groups and the watermark are as before. *)
Theorem C10_no_new_items_no_writes env auth w all_items w2 :
  main.authorized auth = true ->
  acquirable (main.clock env) w = true ->
  main.fetch_and_merge env (locked_world (main.clock env) w) = (Return (all_items, []), w2) ->
  fst (main.sync_all env auth w) = Return main.no_new_items
  ∧ writes (snd (main.sync_all env auth w)) = writes w ++ [WLockSet; WLockDelete]
  ∧ feedback (store (snd (main.sync_all env auth w))) = feedback (store w)
  ∧ groups (store (snd (main.sync_all env auth w))) = groups (store w)
  ∧ sync_state (store (snd (main.sync_all env auth w))) = sync_state (store w)
  ∧ sync_lock (store (snd (main.sync_all env auth w))) = None.
Proof.
  intros Hauth Hacq Hfetch.
  rewrite sync_all_acquired, try_finally_release, try_except_on_error by assumption.
  unfold main.sync_body, bind. rewrite Hfetch. cbn.
  pose proof (preserves_fetch_and_merge store_kept no_write) as Hp.
  specialize (Hp ltac:(frame_side) ltac:(frame_side) env (locked_world (main.clock env) w)).
  rewrite Hfetch in Hp. destruct Hp as [Hs (ws & Hw & Hf)]. cbn in Hs, Hw.
  assert (ws = []) as -> by (destruct ws as [|x ws]; [reflexivity|now inversion Hf]).
  unfold store_kept in Hs. rewrite Hw, Hs. cbn. rewrite app_nil_r, <- app_assoc. now repeat split.
Qed.

(** Witness of C10: nothing is enabled, so nothing is fetched. *)
Lemma C10_no_new_items_no_writes_witness :
  let w := world_of empty_store in
  let run := main.sync_all quiet_env bearer w in
  main.authorized bearer = true
  ∧ acquirable (main.clock quiet_env) w = true
  ∧ main.fetch_and_merge quiet_env (locked_world (main.clock quiet_env) w)
    = (Return ([], []), locked_world (main.clock quiet_env) w)
  ∧ fst run = Return main.no_new_items
  ∧ writes (snd run) = writes w ++ [WLockSet; WLockDelete]
  ∧ feedback (store (snd run)) = feedback (store w)
  ∧ groups (store (snd run)) = groups (store w)
  ∧ sync_state (store (snd run)) = sync_state (store w)
  ∧ sync_lock (store (snd run)) = None.
Proof.
  intros w run.
  assert (H : main.fetch_and_merge quiet_env (locked_world (main.clock quiet_env) w)
              = (Return ([], []), locked_world (main.clock quiet_env) w))
    by (vm_compute; reflexivity).
  split; [reflexivity|]. split; [reflexivity|]. split; [exact H|].
  exact (C10_no_new_items_no_writes quiet_env bearer w [] _ eq_refl eq_refl H).
Defined.

(** ** main.py: the call of the social source *)

Lemma sync_twitter_raises env config last_sync acc w cfg :
  twitter config = Some cfg -> tw_enabled cfg = Some true ->
  truthy (main.environ env "TWITTER_BEARER_TOKEN") = true ->
  main.sync_twitter env config last_sync acc w
  = (Raise (TypeError "TwitterService.search() got an unexpected keyword argument 'since'"), w).
Proof.
  intros Hc He Ht. unfold main.sync_twitter. rewrite Hc. cbn [default from_option id].
  rewrite He. cbn [default from_option id]. rewrite Ht. reflexivity.
Qed.

(** C1 fails on the code: whenever the social source is enabled and its
    token is set, the call [twitter.search(keywords, since=last_sync)] raises
    [TypeError], since [search] has no parameter [since]; the exception
    reaches the handler of the endpoint, the run ends with status 500 and no
    other source or phase runs: the lock is written and deleted, nothing
    else. *)
Theorem C1_twitter_enabled_run_aborts env auth w cfg :
  main.authorized auth = true ->
  acquirable (main.clock env) w = true ->
  main.fault env OpGetConfig = None ->
  main.fault env OpGetSyncState = None ->
  twitter (config_docs (store w)) = Some cfg ->
  tw_enabled cfg = Some true ->
  truthy (main.environ env "TWITTER_BEARER_TOKEN") = true ->
  fst (main.sync_all env auth w)
  = Raise (HTTPException 500 "TwitterService.search() got an unexpected keyword argument 'since'")
  ∧ writes (snd (main.sync_all env auth w)) = writes w ++ [WLockSet; WLockDelete].
Proof.
  intros Hauth Hacq Hf1 Hf2 Hc He Ht.
  rewrite sync_all_acquired, try_finally_release, try_except_on_error by assumption.
  unfold main.sync_body, main.fetch_and_merge.
  unfold bind at 1. unfold bind at 1.
  unfold firestore.get_config, bind, store_call, get_store, ret. rewrite Hf1.
  unfold firestore.get_last_sync_time, bind, store_call, get_store, ret. rewrite Hf2.
  cbn [store locked_world firestore.with_lock config_docs].
  erewrite sync_twitter_raises by eassumption.
  cbn. rewrite <- app_assoc. now split.
Qed.

(** Witness of C1: the issue tracker is enabled too and would deliver an
    item, but the run ends before it is asked. *)
Lemma C1_twitter_enabled_run_aborts_witness :
  let env := tokens_env (fun _ => None) in
  let w := twitter_and_github in
  main.authorized bearer = true
  ∧ acquirable (main.clock env) w = true
  ∧ main.fault env OpGetConfig = None
  ∧ main.fault env OpGetSyncState = None
  ∧ twitter (config_docs (store w)) = twitter_on
  ∧ truthy (main.environ env "TWITTER_BEARER_TOKEN") = true
  ∧ fst (main.sync_all env bearer w)
    = Raise (HTTPException 500 "TwitterService.search() got an unexpected keyword argument 'since'")
  ∧ writes (snd (main.sync_all env bearer w)) = writes w ++ [WLockSet; WLockDelete].
Proof.
  intros env w. do 6 (split; [reflexivity|]).
  exact (C1_twitter_enabled_run_aborts env bearer w _ eq_refl eq_refl eq_refl eq_refl
           eq_refl eq_refl eq_refl).
Defined.

(** The sibling calls bind their arguments: the issue tracker has the
    parameter [since], the forum is called without it. *)
Lemma sibling_calls_bind :
  bind_args "GitHubService.fetch_issues_and_discussions" github.fetch_issues_and_discussions_sig 1 ["since"]
  = Return tt
  ∧ bind_args "DiscourseService.fetch_topics" discourse.fetch_topics_sig 1 [] = Return tt.
Proof. split; reflexivity. Qed.

(** A failure of the issue tracker or of the forum is absorbed by the
    fetcher: it never raises. *)
Lemma fetch_issues_and_discussions_returns fi fd r since w :
  exists items, fst (github.fetch_issues_and_discussions fi fd r since w) = Return items.
Proof.
  unfold github.fetch_issues_and_discussions.
  destruct (negb _); [now eexists|].
  destruct (split_slash _) as [[owner name]|]; [|now eexists].
  unfold bind, try_except, lift, log_error, ret.
  destruct (fi owner name since); destruct (fd owner name); now eexists.
Qed.

Lemma fetch_topics_returns ft fp forum w :
  exists items, fst (discourse.fetch_topics ft fp forum w) = Return items.
Proof.
  unfold discourse.fetch_topics.
  destruct (negb _); [now eexists|].
  destruct (String.eqb _ _); [now eexists|].
  destruct (ft _); [|now eexists].
  destruct (discourse.topics_loop _ _ _ _) as [[[]|e] items]; now eexists.
Qed.

(** * Further properties of the code

    ** The endpoint: authorization, contention, outcomes *)

Lemma prefix_app p : forall s, String.prefix p s = true <-> exists t, s = p +:+ t.
Proof.
  induction p as [|c p IH]; intros s.
  - split; [intros _; exists s; reflexivity|intros _; now destruct s].
  - destruct s as [|d s]; cbn [String.prefix].
    + split; [discriminate|intros [t Ht]; discriminate].
    + destruct (ascii_dec c d) as [->|Hne].
      * rewrite IH. split; intros [t Ht]; exists t.
        -- now rewrite Ht.
        -- now injection Ht.
      * split; [discriminate|intros [t Ht]]. injection Ht as Hc _. congruence.
Qed.

Lemma authorized_iff auth :
  main.authorized auth = true <-> exists t, auth = Some ("Bearer " +:+ t).
Proof.
  unfold main.authorized. destruct auth as [s|]; cbn [truthy default from_option id].
  - rewrite andb_true_iff, (prefix_app "Bearer " s). split.
    + intros [_ [t ->]]. now exists t.
    + intros [t [= ->]]. split; [reflexivity|now exists t].
  - split; [discriminate|intros [t Ht]; discriminate].
Qed.

(** X1: a request whose [Authorization] header is missing or does not
    start with [Bearer ] is answered 401 before anything else is done: the
    world is unchanged, so no lock is taken, nothing is written and no
    error is logged. *)
Theorem sync_all_unauthorized env auth w :
  (forall t, auth <> Some ("Bearer " +:+ t)) ->
  main.sync_all env auth w = (Raise (HTTPException 401 "Unauthorized"), w).
Proof.
  intros Hno. unfold main.sync_all.
  destruct (main.authorized auth) eqn:Ha; [|reflexivity].
  apply authorized_iff in Ha as [t Ht]. now destruct (Hno t).
Qed.

Lemma sync_all_unauthorized_witness :
  (forall t, Some "Basic token" <> Some ("Bearer " +:+ t))
  ∧ main.sync_all quiet_env (Some "Basic token") (world_of empty_store)
    = (Raise (HTTPException 401 "Unauthorized"), world_of empty_store).
Proof.
  assert (H : forall t, Some "Basic token" <> Some ("Bearer " +:+ t)).
  { intros t Ht. cbv [String.append] in Ht. discriminate. }
  split; [exact H|]. apply (sync_all_unauthorized quiet_env _ (world_of empty_store) H).
Defined.

(** X2: an authorized request that finds a lock document with an expiry,
    be the lock held or long expired, is not answered with the skipped
    response: [acquire_lock] raises [TypeError] outside the [try], so the
    exception leaves the endpoint as it is; the clock has been read once,
    nothing is written, no error is logged and the lock document is left
    as it was. *)
Theorem sync_all_contention env auth w expires :
  main.authorized auth = true ->
  lock_expiry w = Some expires ->
  main.sync_all env auth w = (Raise naive_against_aware, refused_world w).
Proof.
  intros Ha He. unfold main.sync_all. rewrite Ha. cbn [negb].
  unfold bind. now rewrite acquire_lock_expiry, He.
Qed.

Lemma sync_all_contention_witness :
  main.authorized bearer = true
  ∧ lock_expiry (locked_world (main.clock quiet_env) (world_of empty_store))
    = Some (5001 + main.ttl)
  ∧ main.sync_all quiet_env bearer (locked_world (main.clock quiet_env) (world_of empty_store))
    = (Raise naive_against_aware,
       refused_world (locked_world (main.clock quiet_env) (world_of empty_store))).
Proof.
  split; [reflexivity|]. split; [reflexivity|].
  apply (sync_all_contention quiet_env bearer _ (5001 + main.ttl)); reflexivity.
Defined.

(** X3: after any run that took the lock, whatever its outcome, the lock
    can be taken again at once, by any clock. *)
Theorem sync_all_leaves_lock_free env auth w clock' :
  main.authorized auth = true ->
  acquirable (main.clock env) w = true ->
  main.acquire_lock clock' (snd (main.sync_all env auth w))
  = (Return true, locked_world clock' (snd (main.sync_all env auth w))).
Proof.
  intros Ha Hq. rewrite acquire_lock_eq.
  rewrite sync_all_acquired, try_finally_release by assumption. reflexivity.
Qed.

Lemma sync_all_leaves_lock_free_witness :
  main.authorized bearer = true
  ∧ acquirable (main.clock (tokens_env commit_fails)) github_only = true
  ∧ main.acquire_lock (fun _ => 0) (snd (main.sync_all (tokens_env commit_fails) bearer github_only))
    = (Return true,
       locked_world (fun _ => 0)
                    (snd (main.sync_all (tokens_env commit_fails) bearer github_only))).
Proof.
  split; [reflexivity|]. split; [reflexivity|].
  apply (sync_all_leaves_lock_free (tokens_env commit_fails) bearer github_only (fun _ => 0));
    reflexivity.
Defined.

(** ** Saving: batches, partial failure, merge *)

Lemma keyed_items_cons it items :
  keyed_items (it :: items)
  = match item_id it with
    | Some i => if truthy (Some i) then (i, it) :: keyed_items items else keyed_items items
    | None => keyed_items items
    end.
Proof.
  unfold keyed_items. cbn [omap list_omap].
  destruct (item_id it) as [i|]; [|reflexivity]. now destruct (truthy (Some i)).
Qed.

Lemma items_written_nil w : items_written [] w = w.
Proof.
  unfold items_written. destruct w as [[l s c f g] ws lg tk]. cbn. now rewrite app_nil_r.
Qed.

Lemma items_written_app a b w :
  items_written b (items_written a w) = items_written (a ++ b) w.
Proof.
  unfold items_written. cbn. now rewrite foldl_app, fmap_app, app_assoc.
Qed.

Lemma commit_items_eq fault n batch w :
  firestore.commit_items fault n batch w
  = match fault (OpCommitFeedback n) with
    | Some e => (Raise e, w)
    | None => (Return tt, items_written batch w)
    end.
Proof.
  unfold firestore.commit_items, bind, store_call, get_store, put_store, ret, raise.
  now destruct (fault (OpCommitFeedback n)).
Qed.

(** The loop of [save_items]: when it returns, what is committed together
    with what is pending is the documents of the items, in order. *)
Lemma save_items_loop_written fault items : forall batch count n w st w',
  firestore.save_items_loop fault items batch count n w = (Return st, w') ->
  items_written (fst (fst st)) w' = items_written (batch ++ keyed_items items) w.
Proof.
  induction items as [|it items IH]; intros batch count n w st w' Hrun.
  - cbn in Hrun. unfold ret in Hrun. injection Hrun as <- <-. cbn. now rewrite app_nil_r.
  - cbn [firestore.save_items_loop] in Hrun. rewrite keyed_items_cons.
    destruct (item_id it) as [i|]; [|now apply IH in Hrun].
    destruct (truthy (Some i)); [|now apply IH in Hrun].
    destruct (450 <=? S count)%nat.
    + unfold bind in Hrun at 1. rewrite commit_items_eq in Hrun.
      destruct (fault (OpCommitFeedback n)); [discriminate|].
      apply IH in Hrun. rewrite Hrun. cbn [app].
      rewrite items_written_app. f_equal. now rewrite <- app_assoc.
    + apply IH in Hrun. rewrite Hrun. f_equal. now rewrite <- app_assoc.
Qed.

Lemma save_items_loop_count fault items : forall batch count n w st w',
  firestore.save_items_loop fault items batch count n w = (Return st, w') ->
  count = length batch -> snd (fst st) = length (fst (fst st)).
Proof.
  induction items as [|it items IH]; intros batch count n w st w' Hrun Hc.
  - cbn in Hrun. unfold ret in Hrun. now injection Hrun as <- <-.
  - cbn [firestore.save_items_loop] in Hrun.
    destruct (item_id it) as [i|]; [|now apply IH in Hrun].
    destruct (truthy (Some i)); [|now apply IH in Hrun].
    destruct (450 <=? S count)%nat.
    + unfold bind in Hrun at 1. rewrite commit_items_eq in Hrun.
      destruct (fault (OpCommitFeedback n)); [discriminate|].
      now apply IH in Hrun.
    + apply IH in Hrun; [assumption|]. rewrite length_app. cbn. lia.
Qed.

Lemma save_items_written fault items w w' :
  firestore.save_items fault items w = (Return tt, w') ->
  w' = items_written (keyed_items items) w.
Proof.
  unfold firestore.save_items, bind.
  destruct (firestore.save_items_loop fault items [] 0 0 w)
    as [[[[batch count] n]|e] w1] eqn:Hloop; [|discriminate].
  pose proof (save_items_loop_written _ _ _ _ _ _ _ _ Hloop) as Hw.
  pose proof (save_items_loop_count _ _ _ _ _ _ _ _ Hloop eq_refl) as Hc.
  cbn in Hw, Hc.
  destruct (0 <? count)%nat eqn:Hpos.
  - rewrite commit_items_eq. destruct (fault (OpCommitFeedback n)); [discriminate|].
    intros [= <-]. exact Hw.
  - unfold ret. intros [= <-]. apply Nat.ltb_ge in Hpos.
    assert (batch = []) as -> by (destruct batch; [reflexivity|cbn in Hc; lia]).
    now rewrite items_written_nil in Hw.
Qed.

Lemma save_items_loop_batches fault items : forall batch count n w,
  count = length batch -> (count < 450)%nat ->
  match firestore.save_items_loop fault items batch count n w with
  | (Return (batch', count', n'), w') =>
      exists j, n' = (n + j)%nat
                ∧ w' = items_written (take (450 * j) (batch ++ keyed_items items)) w
                ∧ batch' = drop (450 * j) (batch ++ keyed_items items)
                ∧ count' = length batch' ∧ (count' < 450)%nat
  | (Raise e, w') =>
      exists j, fault (OpCommitFeedback (n + j)) = Some e
                ∧ w' = items_written (take (450 * j) (batch ++ keyed_items items)) w
                ∧ (450 * S j <= length (batch ++ keyed_items items))%nat
  end.
Proof.
  induction items as [|it items IH]; intros batch count n w Hc Hlt.
  - cbn [firestore.save_items_loop ret]. exists 0%nat.
    rewrite Nat.add_0_r, Nat.mul_0_r, take_0, drop_0, items_written_nil.
    unfold keyed_items. cbn [omap list_omap]. rewrite app_nil_r. repeat split; assumption.
  - cbn [firestore.save_items_loop]. rewrite keyed_items_cons.
    destruct (item_id it) as [i|]; [|now apply IH].
    destruct (truthy (Some i)); [|now apply IH].
    destruct (Nat.leb_spec 450 (S count)) as [Hfull|Hroom].
    + assert (Hlen : length (batch ++ [(i, it)]) = 450%nat) by (rewrite length_app; cbn; lia).
      unfold bind at 1. rewrite commit_items_eq.
      destruct (fault (OpCommitFeedback n)) as [e|] eqn:Hf.
      * exists 0%nat. rewrite Nat.add_0_r, Nat.mul_0_r, take_0, items_written_nil.
        repeat split; [assumption|]. rewrite length_app in *. cbn [length] in *. lia.
      * specialize (IH [] 0%nat (S n) (items_written (batch ++ [(i, it)]) w) eq_refl ltac:(lia)).
        cbn [app] in IH.
        assert (Htake : forall j, take (450 * S j) (batch ++ (i, it) :: keyed_items items)
                                  = (batch ++ [(i, it)]) ++ take (450 * j) (keyed_items items)).
        { intros j. rewrite (cons_middle _ batch), app_assoc.
          rewrite take_app_ge by lia. do 2 f_equal. lia. }
        assert (Hdrop : forall j, drop (450 * S j) (batch ++ (i, it) :: keyed_items items)
                                  = drop (450 * j) (keyed_items items)).
        { intros j. rewrite (cons_middle _ batch), app_assoc.
          rewrite drop_app_ge by lia. f_equal. lia. }
        destruct (firestore.save_items_loop fault items [] 0 (S n) _) as [[[[b' c'] n']|e] w'].
        -- destruct IH as (j & -> & -> & -> & Hc' & Hlt'). exists (S j).
           rewrite Htake, Hdrop, items_written_app. repeat split; [lia|assumption..].
        -- destruct IH as (j & Hfj & -> & Hle). exists (S j).
           rewrite Htake, items_written_app. repeat split.
           ++ now replace (n + S j)%nat with (S n + j)%nat by lia.
           ++ rewrite (cons_middle _ batch), app_assoc, length_app. lia.
    + specialize (IH (batch ++ [(i, it)]) (S count) n w).
      rewrite <- app_assoc in IH. cbn [app] in IH. apply IH; [|lia].
      rewrite length_app. cbn. lia.
Qed.

Lemma save_items_failure_batches fault items w e w' :
  firestore.save_items fault items w = (Raise e, w') ->
  exists j,
    fault (OpCommitFeedback j) = Some e
    ∧ w' = items_written (take (450 * j) (keyed_items items)) w
    ∧ (450 * j < length (keyed_items items))%nat.
Proof.
  unfold firestore.save_items, bind.
  pose proof (save_items_loop_batches fault items [] 0 0 w eq_refl ltac:(lia)) as Hloop.
  cbn [app Nat.add] in Hloop.
  destruct (firestore.save_items_loop fault items [] 0 0 w) as [[[[batch count] n]|e1] w1].
  - destruct Hloop as (j & -> & -> & -> & -> & Hlt).
    destruct (0 <? _)%nat eqn:Hpos; [|discriminate].
    rewrite commit_items_eq. destruct (fault (OpCommitFeedback j)) as [e2|] eqn:Hf; [|discriminate].
    intros [= <- <-]. exists j. repeat split; [assumption|].
    apply Nat.ltb_lt in Hpos. rewrite length_drop in Hpos. lia.
  - destruct Hloop as (j & Hf & -> & Hle). intros [= <- <-]. exists j.
    repeat split; [assumption|lia].
Qed.

(** X5: the batching of [save_items] cannot be seen in the result: when
    it returns, the documents written are those of the items that have an
    id, in input order, each merged into what the store held. *)
Theorem save_items_writes fault items w :
  fst (firestore.save_items fault items w) = Return tt ->
  snd (firestore.save_items fault items w) = items_written (keyed_items items) w.
Proof.
  destruct (firestore.save_items fault items w) as [[[]|e] w'] eqn:Hrun; [|discriminate].
  intros _. now apply save_items_written in Hrun.
Qed.

Lemma save_items_writes_witness :
  fst (firestore.save_items (fun _ => None) [fetched_item (Some "a"); fetched_item None]
                            (world_of empty_store)) = Return tt
  ∧ snd (firestore.save_items (fun _ => None) [fetched_item (Some "a"); fetched_item None]
                              (world_of empty_store))
    = items_written (keyed_items [fetched_item (Some "a"); fetched_item None])
                    (world_of empty_store).
Proof.
  split; [reflexivity|].
  apply (save_items_writes (fun _ => None) _ (world_of empty_store)). reflexivity.
Defined.

(** X6: when [save_items] raises, it is the commit of some batch [j] that
    failed, and what has been written is exactly the first [450 * j]
    documents: whole batches only, none of the failed batch or after it. *)
Theorem save_items_failure fault items w e :
  fst (firestore.save_items fault items w) = Raise e ->
  exists j,
    fault (OpCommitFeedback j) = Some e
    ∧ snd (firestore.save_items fault items w)
      = items_written (take (450 * j) (keyed_items items)) w
    ∧ (450 * j < length (keyed_items items))%nat.
Proof.
  destruct (firestore.save_items fault items w) as [[[]|e'] w'] eqn:Hrun; [discriminate|].
  intros [= ->]. now apply save_items_failure_batches in Hrun.
Qed.

Lemma save_items_failure_witness :
  fst (firestore.save_items commit_fails [fetched_item (Some "a")] (world_of empty_store))
  = Raise (RuntimeError "store unavailable")
  ∧ exists j,
      commit_fails (OpCommitFeedback j) = Some (RuntimeError "store unavailable")
      ∧ snd (firestore.save_items commit_fails [fetched_item (Some "a")] (world_of empty_store))
        = items_written (take (450 * j) (keyed_items [fetched_item (Some "a")]))
                        (world_of empty_store)
      ∧ (450 * j < length (keyed_items [fetched_item (Some "a")]))%nat.
Proof.
  split; [reflexivity|].
  apply (save_items_failure commit_fails _ (world_of empty_store)). reflexivity.
Defined.

(** X7: items without an id, or with an empty one, are skipped: a list of
    such items is saved without any commit, so it succeeds whatever the
    state of the store, and the world is unchanged. *)
Theorem save_items_without_ids fault items w :
  Forall (fun it => truthy (item_id it) = false) items ->
  firestore.save_items fault items w = (Return tt, w).
Proof.
  intros Hall.
  assert (Hk : keyed_items items = []).
  { induction Hall as [|it items Hit _ IH]; [reflexivity|].
    rewrite keyed_items_cons. destruct (item_id it); [|assumption]. now rewrite Hit. }
  unfold firestore.save_items, bind.
  pose proof (save_items_loop_batches fault items [] 0 0 w eq_refl ltac:(lia)) as Hloop.
  rewrite Hk in Hloop. cbn [app Nat.add] in Hloop.
  destruct (firestore.save_items_loop fault items [] 0 0 w) as [[[[batch count] n]|e1] w1].
  - destruct Hloop as (j & -> & -> & -> & -> & Hlt).
    rewrite take_nil, drop_nil, items_written_nil. reflexivity.
  - destruct Hloop as (j & _ & _ & Hle). cbn in Hle. lia.
Qed.

Lemma save_items_without_ids_witness :
  Forall (fun it => truthy (item_id it) = false) [fetched_item None; fetched_item (Some EmptyString)]
  ∧ firestore.save_items commit_fails [fetched_item None; fetched_item (Some EmptyString)]
                         (world_of empty_store)
    = (Return tt, world_of empty_store).
Proof.
  assert (H : Forall (fun it => truthy (item_id it) = false)
                     [fetched_item None; fetched_item (Some EmptyString)]).
  { repeat constructor. }
  split; [exact H|].
  apply (save_items_without_ids commit_fails _ (world_of empty_store) H).
Defined.

Lemma merge_key_is_Some {A} (new old : option A) :
  is_Some old -> is_Some (firestore.merge_key new old).
Proof. intros H. destruct new; [now eexists|exact H]. Qed.

Lemma merge_item_keeps_keys new old : keeps_keys old (firestore.merge_item new (Some old)).
Proof. unfold keeps_keys. cbn. repeat split; apply merge_key_is_Some. Qed.

Lemma keeps_keys_refl it : keeps_keys it it.
Proof. unfold keeps_keys. tauto. Qed.

Lemma keeps_keys_trans a b c : keeps_keys a b -> keeps_keys b c -> keeps_keys a c.
Proof. unfold keeps_keys. tauto. Qed.

Lemma upserts_keep_keys kvs : forall (f : gmap string Item) i old,
  f !! i = Some old ->
  exists stored, foldl upsert_item f kvs !! i = Some stored ∧ keeps_keys old stored.
Proof.
  induction kvs as [|[k v] kvs IH]; intros f i old Hi.
  - exists old. split; [assumption|apply keeps_keys_refl].
  - cbn [foldl]. unfold upsert_item at 2. cbn [fst snd].
    destruct (decide (k = i)) as [->|Hne].
    + destruct (IH (<[i := firestore.merge_item v (f !! i)]> f) i
                   (firestore.merge_item v (f !! i)))
        as (stored & Hs & Hk); [apply lookup_insert_eq|].
      exists stored. split; [assumption|].
      eapply keeps_keys_trans; [|exact Hk]. rewrite Hi. apply merge_item_keeps_keys.
    + apply IH. now rewrite lookup_insert_ne.
Qed.

(** Whatever its outcome, [save_items] has written some of the documents. *)
Lemma save_items_world fault items w :
  exists kvs, snd (firestore.save_items fault items w) = items_written kvs w.
Proof.
  destruct (firestore.save_items fault items w) as [[[]|e] w'] eqn:Hrun.
  - apply save_items_written in Hrun. subst w'. now eexists.
  - apply save_items_failure_batches in Hrun as (j & _ & -> & _). now eexists.
Qed.

(** X8: a save never removes a stored document nor any of its enrichment
    keys: whatever [save_items] is given and whether it returns or raises,
    a document stored before is stored after, with every key it had (a
    re-fetched item that lacks the analysis does not erase it). *)
Theorem save_items_keeps_keys fault items w i old :
  feedback (store w) !! i = Some old ->
  exists stored,
    feedback (store (snd (firestore.save_items fault items w))) !! i = Some stored
    ∧ keeps_keys old stored.
Proof.
  intros Hold. destruct (save_items_world fault items w) as (kvs & ->).
  cbn. now apply upserts_keep_keys.
Qed.

Lemma save_items_keeps_keys_witness :
  feedback (store (world_of (store_holding "a" (analysed_item (Some "a"))))) !! "a"
  = Some (analysed_item (Some "a"))
  ∧ exists stored,
      feedback (store (snd (firestore.save_items (fun _ => None) [fetched_item (Some "a")]
                              (world_of (store_holding "a" (analysed_item (Some "a")))))))
        !! "a" = Some stored
      ∧ keeps_keys (analysed_item (Some "a")) stored.
Proof.
  split; [reflexivity|].
  apply (save_items_keeps_keys (fun _ => None) [fetched_item (Some "a")]
           (world_of (store_holding "a" (analysed_item (Some "a")))) "a").
  reflexivity.
Defined.

Section saved_groups.
Import grouping.

Lemma keyed_groups_cons g gs :
keyed_groups (g :: gs)
= match group_id g with
  | Some i => if truthy (Some i) then (i, g) :: keyed_groups gs else keyed_groups gs
  | None => keyed_groups gs
  end.
Proof.
unfold keyed_groups. cbn [omap list_omap].
destruct (group_id g) as [i|]; [|reflexivity]. now destruct (truthy (Some i)).
Qed.

Lemma groups_written_nil w : groups_written [] w = w.
Proof.
unfold groups_written. destruct w as [[l s c f g] ws lg tk]. cbn. now rewrite app_nil_r.
Qed.

Lemma groups_written_app a b w :
groups_written b (groups_written a w) = groups_written (a ++ b) w.
Proof.
unfold groups_written. cbn. now rewrite foldl_app, fmap_app, app_assoc.
Qed.

Lemma commit_groups_eq fault n batch w :
firestore.commit_groups fault n batch w
= match fault (OpCommitGroups n) with
  | Some e => (Raise e, w)
  | None => (Return tt, groups_written batch w)
  end.
Proof.
unfold firestore.commit_groups, bind, store_call, get_store, put_store, ret, raise.
now destruct (fault (OpCommitGroups n)).
Qed.

Lemma save_groups_loop_written fault gs : forall batch count n w st w',
firestore.save_groups_loop fault gs batch count n w = (Return st, w') ->
count = length batch ->
snd (fst st) = length (fst (fst st))
∧ groups_written (fst (fst st)) w' = groups_written (batch ++ keyed_groups gs) w.
Proof.
induction gs as [|g gs IH]; intros batch count n w st w' Hrun Hc.
- cbn in Hrun. unfold ret in Hrun. injection Hrun as <- <-. cbn [fst snd].
  unfold keyed_groups. cbn [omap list_omap]. now rewrite app_nil_r.
- cbn [firestore.save_groups_loop] in Hrun. rewrite keyed_groups_cons.
  destruct (group_id g) as [i|]; [|now apply IH in Hrun].
  destruct (truthy (Some i)); [|now apply IH in Hrun].
  destruct (450 <=? S count)%nat.
  + unfold bind in Hrun at 1. rewrite commit_groups_eq in Hrun.
    destruct (fault (OpCommitGroups n)); [discriminate|].
    apply IH in Hrun; [|reflexivity]. destruct Hrun as [H1 H2]. split; [assumption|].
    rewrite H2. cbn [app]. rewrite groups_written_app. f_equal. now rewrite <- app_assoc.
  + apply IH in Hrun; [|rewrite length_app; cbn; lia]. destruct Hrun as [H1 H2].
    split; [assumption|]. rewrite H2. f_equal. now rewrite <- app_assoc.
Qed.

Lemma save_groups_written fault gs w w' :
firestore.save_groups fault gs w = (Return tt, w') ->
w' = groups_written (keyed_groups gs) w.
Proof.
unfold firestore.save_groups, bind.
destruct (firestore.save_groups_loop fault gs [] 0 0 w)
  as [[[[batch count] n]|e] w1] eqn:Hloop; [|discriminate].
apply save_groups_loop_written in Hloop; [|reflexivity]. cbn in Hloop.
destruct Hloop as [Hc Hw].
destruct (0 <? count)%nat eqn:Hpos.
- rewrite commit_groups_eq. destruct (fault (OpCommitGroups n)); [discriminate|].
  intros [= <-]. exact Hw.
- unfold ret. intros [= <-]. apply Nat.ltb_ge in Hpos.
  assert (batch = []) as -> by (destruct batch; [reflexivity|cbn in Hc; lia]).
  now rewrite groups_written_nil in Hw.
Qed.

(** After the writes, the document of each written id has the theme of a
  group written under that id. *)
Lemma upserts_theme kvs : forall (f : gmap string Group) k,
k ∈ fst <$> kvs ->
Forall (fun kv => is_Some (theme (snd kv))) kvs ->
exists stored v,
  foldl upsert_group f kvs !! k = Some stored ∧ (k, v) ∈ kvs ∧ theme stored = theme v.
Proof.
induction kvs as [|[k' v'] kvs IH] using rev_ind; intros f k Hin Hall.
- now apply not_elem_of_nil in Hin.
- rewrite foldl_app. cbn [foldl]. unfold upsert_group at 1. cbn [fst snd].
  apply Forall_app in Hall as [Hall Hlast]. rewrite Forall_singleton in Hlast. cbn in Hlast.
  destruct (decide (k' = k)) as [->|Hne].
  + rewrite lookup_insert_eq. eexists _, v'. split; [reflexivity|].
    split; [apply elem_of_app; right; now apply list_elem_of_singleton|].
    destruct Hlast as [t Ht]. unfold firestore.merge_group.
    destruct (foldl upsert_group f kvs !! k); [|reflexivity]. cbn. now rewrite Ht.
  + rewrite lookup_insert_ne by assumption.
    rewrite fmap_app in Hin. apply elem_of_app in Hin as [Hin|Hin].
    * destruct (IH f k Hin Hall) as (stored & v & Hs & Hv & Ht).
      exists stored, v. split; [assumption|]. split; [|assumption].
      apply elem_of_app. now left.
    * cbn in Hin. apply list_elem_of_singleton in Hin. congruence.
Qed.

Lemma elem_of_keyed_groups g i gs :
g ∈ gs -> group_id g = Some i -> truthy (Some i) = true -> (i, g) ∈ keyed_groups gs.
Proof.
intros Hin Hid Ht. unfold keyed_groups. apply list_elem_of_omap. exists g.
split; [assumption|]. now rewrite Hid, Ht.
Qed.

Lemma keyed_groups_elem i g gs : (i, g) ∈ keyed_groups gs -> g ∈ gs ∧ group_id g = Some i.
Proof.
unfold keyed_groups. intros H. apply list_elem_of_omap in H as (g' & Hin & Hg').
destruct (truthy (group_id g')); [|discriminate].
destruct (group_id g') as [i'|] eqn:Hid; [|discriminate]. cbn in Hg'.
injection Hg' as <- <-. now split.
Qed.

(** Every stored group is listed by [get_existing_groups], under its key. *)
Lemma get_existing_groups_eq fault w :
fault OpStreamGroups = None ->
exists egs,
  firestore.get_existing_groups fault w = (Return egs, w)
  ∧ forall k stored,
      groups (store w) !! k = Some stored ->
      exists g, g ∈ egs ∧ group_id g = Some k ∧ theme g = theme stored.
Proof.
intros Hf. unfold firestore.get_existing_groups, bind, store_call, get_store, ret.
rewrite Hf. eexists. split; [reflexivity|].
intros k stored Hk. apply elem_of_map_to_list in Hk.
eexists. split; [apply list_elem_of_fmap; exists (k, stored); split; [reflexivity|exact Hk]|].
now split.
Qed.

Lemma dedup_all_known str_lower new_groups : forall (seen : gset string) acc,
(forall g, g ∈ new_groups -> theme_lower str_lower g ∈ seen) ->
snd (foldl (dedup_step str_lower) (seen, acc) new_groups) = acc.
Proof.
induction new_groups as [|g gs IH]; intros seen acc Hall; [reflexivity|].
cbn [foldl]. unfold dedup_step at 2.
rewrite decide_False by (intros Hn; apply Hn, Hall; left).
apply IH. intros g' Hg'. apply Hall. now right.
Qed.

Lemma group_id_truthy t : truthy (Some (_generate_group_id t)) = true.
Proof. reflexivity. Qed.

Lemma saved_groups_known str_lower fault gs w w1 :
Forall well_keyed gs ->
(forall g1 g2, g1 ∈ gs -> g2 ∈ gs -> group_id g1 = group_id g2 -> theme g1 = theme g2) ->
firestore.save_groups fault gs w = (Return tt, w1) ->
fault OpStreamGroups = None ->
exists egs,
  firestore.get_existing_groups fault w1 = (Return egs, w1)
  ∧ deduplicate_groups str_lower gs egs = [].
Proof.
intros Hkeyed Hinj Hsave Hf.
apply save_groups_written in Hsave. subst w1.
destruct (get_existing_groups_eq fault (groups_written (keyed_groups gs) w) Hf)
  as (egs & Hget & Hall).
exists egs. split; [exact Hget|].
assert (Hknown : forall g, g ∈ gs ->
                           theme_lower str_lower g ∈ theme_lower str_lower <$> egs).
{ intros g Hg. rewrite Forall_forall in Hkeyed.
  destruct (Hkeyed g Hg) as (t & Ht & Hid).
  destruct (upserts_theme (keyed_groups gs) (groups (store w)) (_generate_group_id t))
    as (stored & v & Hs & Hv & Hth).
  - apply list_elem_of_fmap. exists (_generate_group_id t, g). split; [reflexivity|].
    apply elem_of_keyed_groups; [assumption..|apply group_id_truthy].
  - apply Forall_forall. intros [k v] Hkv. apply keyed_groups_elem in Hkv as [Hv _].
    destruct (Hkeyed v Hv) as (t' & Ht' & _). cbn. now rewrite Ht'.
  - apply keyed_groups_elem in Hv as [Hv Hvid].
    destruct (Hall _ _ Hs) as (g' & Hg' & _ & Hth').
    apply list_elem_of_fmap. exists g'. split; [|assumption].
    unfold theme_lower. rewrite Hth', Hth.
    now rewrite (Hinj g v Hg Hv) by congruence. }
unfold deduplicate_groups. destruct gs as [|g gs]; [reflexivity|].
destruct egs as [|e egs].
- specialize (Hknown g ltac:(left)). now apply not_elem_of_nil in Hknown.
- apply dedup_all_known. intros g' Hg'. apply elem_of_list_to_set. now apply Hknown.
Qed.

(** X10: groups that have been saved are not created again: when groups
  keyed by their themes, no two of them sharing an id under different
  themes, have been saved and the groups are read back, deduplicating the
  same groups against them leaves none. *)
Theorem saved_groups_not_recreated str_lower fault gs w :
Forall well_keyed gs ->
(forall g1 g2, g1 ∈ gs -> g2 ∈ gs -> group_id g1 = group_id g2 -> theme g1 = theme g2) ->
fst (firestore.save_groups fault gs w) = Return tt ->
fault OpStreamGroups = None ->
exists egs,
  firestore.get_existing_groups fault (snd (firestore.save_groups fault gs w))
  = (Return egs, snd (firestore.save_groups fault gs w))
  ∧ deduplicate_groups str_lower gs egs = [].
Proof.
intros Hkeyed Hinj Hsave Hf.
destruct (firestore.save_groups fault gs w) as [[[]|e] w'] eqn:Hrun; [|discriminate].
now apply (saved_groups_known str_lower fault gs w w').
Qed.

Lemma saved_groups_not_recreated_witness :
Forall well_keyed [group_of_theme "Bugs"]
∧ (forall g1 g2, g1 ∈ [group_of_theme "Bugs"] -> g2 ∈ [group_of_theme "Bugs"] ->
                 group_id g1 = group_id g2 -> theme g1 = theme g2)
∧ fst (firestore.save_groups (fun _ => None) [group_of_theme "Bugs"] (world_of empty_store))
  = Return tt
∧ (fun _ : store_op => @None exn) OpStreamGroups = None
∧ exists egs,
    firestore.get_existing_groups (fun _ => None)
      (snd (firestore.save_groups (fun _ => None) [group_of_theme "Bugs"]
              (world_of empty_store)))
    = (Return egs,
       snd (firestore.save_groups (fun _ => None) [group_of_theme "Bugs"]
              (world_of empty_store)))
    ∧ deduplicate_groups lower [group_of_theme "Bugs"] egs = [].
Proof.
assert (H1 : Forall well_keyed [group_of_theme "Bugs"]).
{ repeat constructor. exists "Bugs". split; reflexivity. }
assert (H2 : forall g1 g2, g1 ∈ [group_of_theme "Bugs"] -> g2 ∈ [group_of_theme "Bugs"] ->
                           group_id g1 = group_id g2 -> theme g1 = theme g2).
{ intros g1 g2 Hg1 Hg2 _. apply list_elem_of_singleton in Hg1, Hg2. now subst. }
assert (H3 : fst (firestore.save_groups (fun _ => None) [group_of_theme "Bugs"]
                    (world_of empty_store)) = Return tt) by (vm_compute; reflexivity).
split; [exact H1|]. split; [exact H2|]. split; [exact H3|]. split; [reflexivity|].
apply (saved_groups_not_recreated lower (fun _ => None) _ (world_of empty_store) H1 H2 H3).
reflexivity.
Defined.

End saved_groups.

(** ** The fetchers: isolation of failures *)

Lemma logged_nil w : logged [] w = w.
Proof. unfold logged. destruct w. cbn. now rewrite app_nil_r. Qed.

Lemma logged_app a b w : logged b (logged a w) = logged (a ++ b) w.
Proof. unfold logged. cbn. now rewrite app_assoc. Qed.

Lemma search_loop_eq st kws : forall acc w,
  twitter.search_loop st (List.filter (fun k => default true (kw_enabled k)) kws) acc w
  = (Return (acc ++ mjoin ((fun t => contribution (st t)) <$> active_terms kws)),
     logged (omap (fun t => search_error (t, st t)) (active_terms kws)) w).
Proof.
  induction kws as [|k kws IH]; intros acc w.
  - cbn. now rewrite app_nil_r, logged_nil.
  - cbn [List.filter]. unfold active_terms. cbn [omap list_omap]. fold (active_terms kws).
    destruct (default true (kw_enabled k)); [|apply IH].
    cbn [twitter.search_loop].
    destruct (String.eqb (default EmptyString (term k)) EmptyString); [apply IH|].
    cbn [fmap list_fmap mjoin list_join omap list_omap].
    unfold bind at 1. unfold try_except, bind, lift, ret, log_error.
    unfold search_error at 1. cbn [fst snd].
    destruct (st (default EmptyString (term k))) as [items|e]; cbn [contribution].
    + rewrite IH. now rewrite <- app_assoc.
    + rewrite IH. fold (logged ["[Twitter] Error searching '" +:+ default EmptyString (term k)
                                 +:+ "': " +:+ exn_str e] w).
      now rewrite logged_app.
Qed.

(** X11: [search] asks for each non-empty term of the enabled keywords
    once, in order; it returns the items of the searches that succeeded, in
    that order, logs one error line for each that failed, changes nothing else
    and never raises. *)
Theorem twitter_search_spec st kws w :
  twitter.search st kws w
  = (Return (mjoin ((fun t => contribution (st t)) <$> active_terms kws)),
     logged (omap (fun t => search_error (t, st t)) (active_terms kws)) w).
Proof. unfold twitter.search. now rewrite search_loop_eq. Qed.

Lemma fetch_issues_and_discussions_eq fi fd r since w :
  exists msgs,
    github.fetch_issues_and_discussions fi fd r since w
    = (Return (match fetched_repo r with
               | Some (owner, name) =>
                   contribution (fi owner name since) ++ contribution (fd owner name)
               | None => []
               end),
       logged msgs w)
    ∧ (length msgs <= 2)%nat.
Proof.
  unfold github.fetch_issues_and_discussions, fetched_repo.
  destruct (default true (repo_enabled r)); cbn [negb].
  2:{ exists []. rewrite logged_nil. split; [reflexivity|cbn; lia]. }
  destruct (split_slash _) as [[owner name]|].
  2:{ exists []. rewrite logged_nil. split; [reflexivity|cbn; lia]. }
  unfold bind, try_except, lift, log_error, ret.
  destruct (fi owner name since) as [issues|e1]; destruct (fd owner name) as [ds|e2];
    cbn [contribution]; eexists.
  - split; [rewrite <- (logged_nil w) at 1; reflexivity|cbn; lia].
  - split; [unfold logged; cbn; rewrite app_nil_r; reflexivity|cbn; lia].
  - split; [unfold logged; cbn; reflexivity|cbn; lia].
  - split; [unfold logged; cbn; rewrite <- app_assoc; reflexivity|cbn; lia].
Qed.

(** X12: [fetch_issues_and_discussions] never raises: for an enabled repo
    named [owner/name] it returns the issues followed by the discussions,
    a fetch that fails contributing nothing and not affecting the other;
    it logs at most two error lines and changes nothing else. *)
Theorem github_fetch_isolation fi fd r since w :
  exists msgs,
    github.fetch_issues_and_discussions fi fd r since w
    = (Return (match fetched_repo r with
               | Some (owner, name) =>
                   contribution (fi owner name since) ++ contribution (fd owner name)
               | None => []
               end),
       logged msgs w)
    ∧ (length msgs <= 2)%nat.
Proof. apply fetch_issues_and_discussions_eq. Qed.

Lemma topics_loop_items fp base_url topics0 topics : forall items,
  (forall t, t ∈ topics -> t ∈ topics0) ->
  Forall (item_of_topics fp base_url topics0) items ->
  Forall (item_of_topics fp base_url topics0) (snd (discourse.topics_loop fp base_url topics items))
  ∧ (length (snd (discourse.topics_loop fp base_url topics items))
     <= length items + length topics)%nat.
Proof.
  induction topics as [|topic rest IH]; intros items Hsub Hitems.
  - cbn. split; [assumption|lia].
  - cbn [discourse.topics_loop].
    assert (Hrest : forall t, t ∈ rest -> t ∈ topics0) by (intros t Ht; apply Hsub; now right).
    destruct (discourse.topic_id topic) as [i|] eqn:Hid; [|cbn; split; [assumption|lia]].
    destruct (fp base_url i) as [|p ps] eqn:Hposts.
    + destruct (IH items Hrest Hitems) as [H1 H2]. split; [assumption|cbn; lia].
    + unfold discourse._create_item. rewrite Hid.
      destruct (discourse.title topic) as [t|]; [|cbn; split; [assumption|lia]].
      destruct (discourse.slug topic) as [s|]; [|cbn; split; [assumption|lia]].
      match goal with
      | |- context [discourse.topics_loop _ _ _ (items ++ [?x])] => set (item := x)
      end.
      destruct (IH (items ++ [item]) Hrest) as [H1 H2].
      * apply Forall_app. split; [assumption|]. apply Forall_singleton.
        exists topic, i. repeat split; [apply Hsub; now left|assumption|now rewrite Hposts].
      * split; [assumption|]. rewrite length_app in H2. cbn in *. lia.
Qed.

Lemma fetch_topics_eq ft fp forum w :
  exists items msgs,
    discourse.fetch_topics ft fp forum w = (Return items, logged msgs w)
    ∧ (length msgs <= 1)%nat
    ∧ forall topics,
        ft (rstrip_slash (default EmptyString (url forum))) = Return topics ->
        Forall (item_of_topics fp (rstrip_slash (default EmptyString (url forum))) topics) items
        ∧ (length items <= length topics)%nat.
Proof.
  unfold discourse.fetch_topics.
  destruct (default true (forum_enabled forum)); cbn [negb].
  2:{ exists [], []. rewrite logged_nil. repeat split; [cbn; lia|constructor|cbn; lia]. }
  set (base_url := rstrip_slash (default EmptyString (url forum))).
  destruct (String.eqb base_url EmptyString).
  { exists [], []. rewrite logged_nil. repeat split; [cbn; lia|constructor|cbn; lia]. }
  destruct (ft base_url) as [topics|e].
  2:{ eexists [], [_]. unfold bind, log_error, ret, logged. cbn.
      split; [reflexivity|]. split; [lia|]. discriminate. }
  pose proof (topics_loop_items fp base_url topics topics [] (fun _ H => H) (List.Forall_nil _))
    as [Hitems Hlen].
  destruct (discourse.topics_loop fp base_url topics []) as [[[]|e] items].
  - exists items, []. rewrite logged_nil. split; [reflexivity|]. split; [cbn; lia|].
    intros topics' [= <-]. now split.
  - eexists items, [_]. unfold bind, log_error, ret, logged. cbn.
    split; [reflexivity|]. split; [lia|]. intros topics' [= <-]. now split.
Qed.

(** X13: [fetch_topics] never raises and logs at most one error; when the
    topic list is fetched, every item it returns is built from one of the
    topics that has posts, carries the id [discourse-<topic id>], is not yet
    analysed, and there is at most one item per topic. *)
Theorem discourse_fetch_topics_spec ft fp forum w :
  exists items msgs,
    discourse.fetch_topics ft fp forum w = (Return items, logged msgs w)
    ∧ (length msgs <= 1)%nat
    ∧ forall topics,
        ft (rstrip_slash (default EmptyString (url forum))) = Return topics ->
        Forall (item_of_topics fp (rstrip_slash (default EmptyString (url forum))) topics) items
        ∧ (length items <= length topics)%nat.
Proof. apply fetch_topics_eq. Qed.

Lemma extend_each_returns {A} (f : A -> M (list Item)) xs :
  (forall x w, exists items msgs, f x w = (Return items, logged msgs w)) ->
  forall acc w, exists items msgs,
    main.extend_each f xs acc w = (Return (acc ++ items), logged msgs w).
Proof.
  intros Hf. induction xs as [|x xs IH]; intros acc w.
  - exists [], []. cbn. unfold ret. now rewrite app_nil_r, logged_nil.
  - cbn [main.extend_each]. unfold bind.
    destruct (Hf x w) as (items & msgs & ->).
    destruct (IH (acc ++ items) (logged msgs w)) as (items' & msgs' & ->).
    exists (items ++ items'), (msgs ++ msgs'). now rewrite logged_app, app_assoc.
Qed.

Lemma sync_github_returns env config last_sync acc w :
  exists items msgs,
    main.sync_github env config last_sync acc w = (Return (acc ++ items), logged msgs w).
Proof.
  unfold main.sync_github.
  destruct (default false _).
  2:{ exists [], []. unfold ret. now rewrite app_nil_r, logged_nil. }
  destruct (truthy _).
  2:{ exists [], []. unfold ret. now rewrite app_nil_r, logged_nil. }
  unfold bind at 1.
  edestruct (extend_each_returns
               (fun r => main.call "GitHubService.fetch_issues_and_discussions"
                           github.fetch_issues_and_discussions_sig 1 ["since"]
                           (github.fetch_issues_and_discussions
                              (main._fetch_issues env) (main._fetch_discussions env) r last_sync)))
    as (items & msgs & ->).
  - intros r w0. unfold main.call, bind, lift. cbn.
    destruct (fetch_issues_and_discussions_eq (main._fetch_issues env)
                (main._fetch_discussions env) r last_sync w0) as (msgs & -> & _).
    now eexists _, _.
  - exists items, msgs. reflexivity.
Qed.

Lemma sync_discourse_returns env config acc w :
  exists items msgs,
    main.sync_discourse env config acc w = (Return (acc ++ items), logged msgs w).
Proof.
  unfold main.sync_discourse.
  destruct (default false _).
  2:{ exists [], []. unfold ret. now rewrite app_nil_r, logged_nil. }
  unfold bind at 1.
  edestruct (extend_each_returns
               (fun f => main.call "DiscourseService.fetch_topics" discourse.fetch_topics_sig 1 []
                           (discourse.fetch_topics
                              (main._fetch_latest_topics env) (main._fetch_topic_posts env) f)))
    as (items & msgs & ->).
  - intros f w0. unfold main.call, bind, lift. cbn.
    destruct (fetch_topics_eq (main._fetch_latest_topics env)
                (main._fetch_topic_posts env) f w0) as (items & msgs & -> & _).
    now eexists _, _.
  - exists items, msgs. reflexivity.
Qed.

(** ** Enrichment: what analysis and translation touch *)

Section heap_steps.
Variable R : Item -> Item -> Prop.
Hypothesis R_refl : forall a, R a a.
Hypothesis R_trans : forall a b c, R a b -> R b c -> R a c.

Lemma heap_related_refl heap : heap_related R heap heap.
Proof. split; [reflexivity|]. intros k a b Ha Hb. rewrite Ha in Hb. injection Hb as <-. apply R_refl. Qed.

Lemma heap_related_alter f r heap0 heap :
  (forall a, R a (f a)) ->
  heap_related R heap0 heap -> heap_related R heap0 (alter f r heap).
Proof.
  intros Hf [Hlen Hrel]. split; [now rewrite length_alter|].
  intros k a b Ha Hb.
  destruct (decide (k = r)) as [->|Hne].
  - rewrite list_lookup_alter_eq in Hb.
    destruct (heap !! r) as [c|] eqn:Hc; [|discriminate]. injection Hb as <-.
    eapply R_trans; [eapply Hrel; eassumption|apply Hf].
  - rewrite list_lookup_alter_ne in Hb by congruence. eapply Hrel; eassumption.
Qed.
End heap_steps.

Lemma same_identity_refl a : same_identity a a.
Proof. unfold same_identity. tauto. Qed.

Lemma same_identity_trans a b c : same_identity a b -> same_identity b c -> same_identity a c.
Proof. unfold same_identity. intuition congruence. Qed.

Lemma same_analysis_refl a : same_analysis a a.
Proof. unfold same_analysis. tauto. Qed.

Lemma same_analysis_trans a b c : same_analysis a b -> same_analysis b c -> same_analysis a c.
Proof. unfold same_analysis. intuition congruence. Qed.

Lemma all_enriched_alter f r heap refs :
  (forall a, enriched (f a)) -> (r < length heap)%nat ->
  all_enriched heap refs -> all_enriched (alter f r heap) (refs ++ [r]).
Proof.
  intros Hf Hr Hall. apply Forall_app. split.
  - eapply Forall_impl; [exact Hall|]. intros r' (it & Hit & He). cbn.
    destruct (decide (r' = r)) as [->|Hne].
    + rewrite list_lookup_alter_eq, Hit. cbn. eauto.
    + rewrite list_lookup_alter_ne by congruence. eauto.
  - apply Forall_singleton. rewrite list_lookup_alter_eq.
    destruct (lookup_lt_is_Some_2 heap r Hr) as [it Hit]. rewrite Hit. cbn. eauto.
Qed.

Lemma set_analysis_enriched kvs a : enriched (sentiment.set_analysis kvs a).
Proof. unfold enriched. cbn. repeat split; eauto. Qed.

Lemma set_fallback_enriched a : enriched (sentiment.set_fallback a).
Proof. unfold enriched. cbn. repeat split; eauto. Qed.

Lemma apply_results_sound items pairs : forall heap refs,
  Forall (fun p => (fst p < length items)%nat) pairs ->
  analysis_sound items (heap, refs) ->
  analysis_sound items (snd (fst (sentiment.apply_results pairs heap refs)),
                        snd (sentiment.apply_results pairs heap refs)).
Proof.
  induction pairs as [|[r result] pairs IH]; intros heap refs Hp Hs; [exact Hs|].
  apply Forall_cons in Hp as [Hr Hp]. cbn [fst] in Hr.
  cbn [sentiment.apply_results].
  destruct result; try exact Hs.
  apply IH; [assumption|]. destruct Hs as [Hrel Hen]. split; cbn [fst snd] in *.
  - apply heap_related_alter;
      [apply same_identity_trans|intros a; unfold same_identity; cbn; tauto|assumption].
  - apply all_enriched_alter; [apply set_analysis_enriched| |assumption].
    destruct Hrel as [Hlen _]. lia.
Qed.

Lemma apply_fallback_sound items batch : forall heap refs,
  Forall (fun r => (r < length items)%nat) batch ->
  analysis_sound items (heap, refs) ->
  analysis_sound items (sentiment.apply_fallback batch heap refs).
Proof.
  unfold sentiment.apply_fallback.
  induction batch as [|r batch IH]; intros heap refs Hb Hs; [exact Hs|].
  apply Forall_cons in Hb as [Hr Hb]. cbn [foldl fst snd].
  apply IH; [assumption|]. destruct Hs as [Hrel Hen]. split; cbn [fst snd] in *.
  - apply heap_related_alter;
      [apply same_identity_trans|intros a; unfold same_identity; cbn; tauto|assumption].
  - apply all_enriched_alter; [apply set_fallback_enriched| |assumption].
    destruct Hrel as [Hlen _]. lia.
Qed.

Lemma batch_at_bound n i : Forall (fun r => (r < n)%nat) (sentiment.batch_at n i).
Proof.
  unfold sentiment.batch_at. apply Forall_forall. intros r Hr.
  apply elem_of_seq in Hr. lia.
Qed.

Lemma analyze_one_sound gen items st i :
  analysis_sound items st -> analysis_sound items (sentiment.analyze_one gen (length items) st i).
Proof.
  destruct st as [heap refs]. intros Hs. unfold sentiment.analyze_one.
  pose proof (batch_at_bound (length items) i) as Hb.
  destruct (sentiment._analyze_items _ _) as [results|e];
    [|now apply apply_fallback_sound].
  destruct (json_iter results) as [l|e]; [|now apply apply_fallback_sound].
  assert (Hp : Forall (fun p => (fst p < length items)%nat)
                      (zip (sentiment.batch_at (length items) i) l)).
  { apply Forall_forall. intros [r x] Hin. cbn.
    apply elem_of_zip_l in Hin. rewrite Forall_forall in Hb. now apply Hb. }
  pose proof (apply_results_sound items _ heap refs Hp Hs) as Hres.
  destruct (sentiment.apply_results _ heap refs) as [[[[]|e] heap'] refs']; cbn [fst snd] in Hres.
  - exact Hres.
  - now apply apply_fallback_sound.
Qed.

(** X14: [analyze_batch] changes the analysis of its items only: the heap
    holds as many items as were given, each with the id, source, content
    and translations it had; and every item of the output has been
    analysed: it is marked analyzed and has a sentiment and a category. *)
Theorem analyze_batch_invariants gen items :
  analysis_sound items (sentiment.analyze_batch gen items).
Proof.
  unfold sentiment.analyze_batch.
  assert (H0 : analysis_sound items (items, [])).
  { split; [apply heap_related_refl, same_identity_refl|constructor]. }
  revert H0. generalize (items, @nil nat) as st.
  induction (sentiment.batch_starts (length items)) as [|i starts IH]; intros st Hs; [exact Hs|].
  cbn [foldl]. apply IH. now apply analyze_one_sound.
Qed.

Lemma translate_attempts_related gen batch attempts : forall heap0 heap,
  heap_related same_analysis heap0 heap ->
  heap_related same_analysis heap0 (sentiment.translate_attempts gen batch attempts heap).
Proof.
  induction attempts as [|a attempts IH]; intros heap0 heap Hrel; [exact Hrel|].
  cbn [sentiment.translate_attempts].
  destruct (gen a) as [translations|e]; [|now apply IH].
  destruct (json_iter translations) as [l|e]; [|now apply IH].
  revert heap Hrel. induction (zip batch l) as [|[r t] pairs IHp]; intros heap Hrel; [exact Hrel|].
  cbn [foldl fst snd]. apply IHp.
  apply heap_related_alter;
    [apply same_analysis_trans|intros x; unfold same_analysis; cbn; tauto|assumption].
Qed.

(** X15: [translate_batch] leaves the analysis alone: each item keeps its
    id, source, content, sentiment, category, summary and analyzed flag,
    and no item is added or removed. *)
Theorem translate_batch_keeps_analysis gen heap items :
  heap_related same_analysis heap (sentiment.translate_batch gen heap items).
Proof.
  unfold sentiment.translate_batch.
  assert (H0 : heap_related same_analysis heap heap)
    by apply heap_related_refl, same_analysis_refl.
  revert H0. generalize heap at 2 4 as h.
  induction (sentiment.batch_starts (length items)) as [|i starts IH]; intros h Hrel; [exact Hrel|].
  cbn [foldl]. apply IH. now apply translate_attempts_related.
Qed.

(** ** Grouping: shape of the groups, deduplication *)

Section groups.
Import grouping.

Lemma make_group_well_formed j g : make_group j = Return g -> well_formed_group g.
Proof.
unfold make_group. destruct j as [| | | | |kvs]; try discriminate.
destruct (obj_get "theme" kvs) as [[| | |t| |]|]; try discriminate.
destruct (json_len _) as [n|e] eqn:Hlen; [|discriminate].
intros [= <-]. split; [exists t; now split|exact Hlen].
Qed.

Lemma make_groups_well_formed raw : forall gs,
make_groups raw = Return gs -> Forall well_formed_group gs.
Proof.
induction raw as [|j raw IH]; intros gs; cbn [make_groups].
- intros [= <-]. constructor.
- destruct (make_group j) as [g|e] eqn:Hg; [|discriminate].
  destruct (make_groups raw) as [gs'|e]; [|discriminate].
  intros [= <-]. constructor; [eapply make_group_well_formed, Hg|now apply IH].
Qed.

Lemma group_attempts_well_formed gen attempts : forall gs,
group_attempts gen attempts = Return gs -> Forall well_formed_group gs.
Proof.
induction attempts as [|a attempts IH]; intros gs; cbn [group_attempts].
- intros [= <-]. constructor.
- destruct (gen a) as [raw|e].
  + destruct (json_iter raw) as [l|e].
    * destruct (make_groups l) as [gs'|e] eqn:Hm.
      -- intros [= <-]. eapply make_groups_well_formed, Hm.
      -- destruct (a <? max_retries - 1)%nat; [apply IH|discriminate].
    * destruct (a <? max_retries - 1)%nat; [apply IH|discriminate].
  + destruct (a <? max_retries - 1)%nat; [apply IH|discriminate].
Qed.

(** X16: every group [create_groups] returns is keyed by its theme (its
  id is the id derived from its theme) and its item count is the length
  of its item ids. *)
Theorem create_groups_well_formed gen items :
Forall well_formed_group (create_groups gen items).
Proof.
unfold create_groups. destruct items as [|it items]; [constructor|].
destruct (_group_items gen (it :: items)) as [gs|e] eqn:Hg; [|constructor].
unfold _group_items in Hg. destruct (summaries_ok _); [|discriminate].
eapply group_attempts_well_formed, Hg.
Qed.

(** X17: grouping fails open: when the model call fails on each of the
  three attempts, [create_groups] returns no group and does not raise. *)
Theorem create_groups_fail_open gen items :
(forall a, (a < 3)%nat -> exists e, gen a = Raise e) ->
create_groups gen items = [].
Proof.
intros Hfail. unfold create_groups. destruct items as [|it items]; [reflexivity|].
unfold _group_items. destruct (summaries_ok _); [|reflexivity].
cbn. destruct (Hfail 0%nat ltac:(lia)) as [e0 ->].
destruct (Hfail 1%nat ltac:(lia)) as [e1 ->].
destruct (Hfail 2%nat ltac:(lia)) as [e2 ->]. reflexivity.
Qed.

Lemma create_groups_fail_open_witness :
(forall a, (a < 3)%nat -> exists e, (fun _ : nat => @unavailable json) a = Raise e)
∧ create_groups (fun _ => unavailable) [fetched_item (Some "a")] = [].
Proof.
assert (H : forall a, (a < 3)%nat -> exists e, (fun _ : nat => @unavailable json) a = Raise e).
{ intros a _. eexists. reflexivity. }
split; [exact H|]. apply (create_groups_fail_open _ [fetched_item (Some "a")] H).
Defined.

Lemma le_bytes_length n w : length (hashlib.le_bytes n w) = n.
Proof. unfold hashlib.le_bytes. now rewrite length_map, length_seq. Qed.

Lemma md5_length msg : length (hashlib.md5 msg) = 16%nat.
Proof.
unfold hashlib.md5. destruct (fold_left _ _ _) as [[[a b] c] d].
rewrite !length_app, !le_bytes_length. reflexivity.
Qed.

Lemma hexdigest_length d : length (hashlib.hexdigest d) = (2 * length d)%nat.
Proof.
induction d as [|b d IH]; [reflexivity|]. rewrite hexdigest_cons. cbn [length]. lia.
Qed.

Lemma hexdigit_is_hex n : 0 <= n < 16 -> is_hex_digit (hashlib.hexdigit n).
Proof.
intros Hn.
assert (Hall : forallb (fun k => existsb (Ascii.eqb (hashlib.hexdigit (Z.of_nat k)))
                                         (list_ascii_of_string "0123456789abcdef"))
                       (seq 0 16) = true) by (vm_compute; reflexivity).
rewrite forallb_forall in Hall. specialize (Hall (Z.to_nat n)).
rewrite Z2Nat.id in Hall by lia.
assert (Hin : In (Z.to_nat n) (seq 0 16)) by (apply in_seq; lia).
apply Hall, existsb_exists in Hin as (c & Hc & Heq).
apply Ascii.eqb_eq in Heq. unfold is_hex_digit. now rewrite Heq.
Qed.

Lemma hexdigest_is_hex d : Forall is_byte d -> Forall is_hex_digit (hashlib.hexdigest d).
Proof.
induction 1 as [|b d Hb _ IH]; [constructor|].
rewrite hexdigest_cons. unfold is_byte in Hb.
constructor; [|constructor; [|assumption]]; apply hexdigit_is_hex.
- rewrite Z.shiftr_div_pow2 by lia. change (2 ^ 4) with 16.
  split; [apply Z.div_pos; lia|apply Z.div_lt_upper_bound; lia].
- change 15 with (Z.ones 4). rewrite Z.land_ones by lia. change (2 ^ 4) with 16.
  apply Z.mod_pos_bound. lia.
Qed.

(** X18: a group id is [group-] followed by exactly twelve lower-case
  hexadecimal digits. *)
Theorem group_id_format t :
exists digits,
  _generate_group_id t = "group-" +:+ string_of_list_ascii digits
  ∧ length digits = 12%nat
  ∧ Forall is_hex_digit digits.
Proof.
unfold _generate_group_id. eexists. split; [reflexivity|]. split.
- rewrite length_take, hexdigest_length, md5_length. reflexivity.
- apply Forall_take, hexdigest_is_hex, md5_is_byte.
Qed.

(** The loop of [deduplicate_groups] appends a sublist of the new groups
  whose themes are new and pairwise different. *)
Lemma dedup_fold str_lower new_groups : forall (seen : gset string) acc,
exists extra,
  snd (foldl (dedup_step str_lower) (seen, acc) new_groups) = acc ++ extra
  ∧ sublist extra new_groups
  ∧ NoDup (theme_lower str_lower <$> extra)
  ∧ forall g, g ∈ extra -> theme_lower str_lower g ∉ seen.
Proof.
induction new_groups as [|g gs IH]; intros seen acc.
- exists []. cbn. rewrite app_nil_r. repeat split; [constructor|constructor|].
  intros g Hg. now apply not_elem_of_nil in Hg.
- cbn [foldl]. unfold dedup_step at 2.
  destruct (decide (theme_lower str_lower g ∉ seen)) as [Hn|Hn].
  + destruct (IH ({[theme_lower str_lower g]} ∪ seen) (acc ++ [g]))
      as (extra & Heq & Hsub & Hnd & Hnew).
    exists (g :: extra). rewrite Heq, <- app_assoc. split; [reflexivity|].
    split; [now constructor|]. split.
    * cbn. constructor; [|assumption]. intros Hin.
      apply list_elem_of_fmap in Hin as (g' & Heq' & Hg').
      apply (Hnew g' Hg'). apply elem_of_union. left. apply elem_of_singleton. congruence.
    * intros g' Hg'. apply elem_of_cons in Hg' as [->|Hg']; [assumption|].
      specialize (Hnew g' Hg'). set_solver.
  + destruct (IH seen acc) as (extra & Heq & Hsub & Hnd & Hnew).
    exists extra. split; [assumption|]. split; [now constructor|]. now split.
Qed.

Lemma dedup_fixed str_lower l : forall (seen : gset string) acc,
NoDup (theme_lower str_lower <$> l) -> (forall g, g ∈ l -> theme_lower str_lower g ∉ seen) ->
snd (foldl (dedup_step str_lower) (seen, acc) l) = acc ++ l.
Proof.
induction l as [|g l IH]; intros seen acc Hnd Hnew.
- cbn. now rewrite app_nil_r.
- cbn [foldl]. unfold dedup_step at 2.
  rewrite decide_True by (apply Hnew; left).
  cbn in Hnd. apply NoDup_cons in Hnd as [Hg Hnd].
  rewrite IH; [now rewrite <- app_assoc|assumption|].
  intros g' Hg'. apply not_elem_of_union. split.
  + intros Heq. apply elem_of_singleton in Heq. apply Hg. rewrite <- Heq.
    apply list_elem_of_fmap. now exists g'.
  + apply Hnew. now right.
Qed.

(** X19: against a non-empty list of existing groups, the result of
  [deduplicate_groups] is a sublist of the new groups, its themes are
  pairwise different up to case and none is the theme of an existing
  group; and deduplicating the result again changes nothing. *)
Theorem deduplicate_groups_properties str_lower new_groups existing_groups :
existing_groups <> [] ->
sublist (deduplicate_groups str_lower new_groups existing_groups) new_groups
∧ NoDup (theme_lower str_lower
         <$> deduplicate_groups str_lower new_groups existing_groups)
∧ (forall g, g ∈ deduplicate_groups str_lower new_groups existing_groups ->
             theme_lower str_lower g ∉ (theme_lower str_lower <$> existing_groups))
∧ deduplicate_groups str_lower (deduplicate_groups str_lower new_groups existing_groups)
                     existing_groups
  = deduplicate_groups str_lower new_groups existing_groups.
Proof.
intros Hex. destruct existing_groups as [|e es]; [contradiction|].
assert (Hres : exists r,
           deduplicate_groups str_lower new_groups (e :: es) = r
           ∧ sublist r new_groups ∧ NoDup (theme_lower str_lower <$> r)
           ∧ forall g, g ∈ r ->
                       theme_lower str_lower g ∉ (theme_lower str_lower <$> e :: es)).
{ unfold deduplicate_groups. destruct new_groups as [|g gs].
  - exists []. repeat split; [constructor|constructor|].
    intros g Hg. now apply not_elem_of_nil in Hg.
  - destruct (dedup_fold str_lower (g :: gs) (list_to_set (theme_lower str_lower <$> e :: es)) [])
      as (extra & Heq & Hsub & Hnd & Hnew).
    exists extra. split; [exact Heq|]. split; [assumption|]. split; [assumption|].
    intros g' Hg' Hin. apply (Hnew g' Hg'). now apply elem_of_list_to_set. }
destruct Hres as (r & -> & Hsub & Hnd & Hnew).
repeat split; [assumption..|].
unfold deduplicate_groups. destruct r as [|g r]; [reflexivity|].
rewrite dedup_fixed; [reflexivity|assumption|].
intros g' Hg' Hin. apply (Hnew g' Hg'). now apply elem_of_list_to_set in Hin.
Qed.

Lemma deduplicate_groups_properties_witness :
[group_of_theme "Bugs"] <> []
∧ sublist (deduplicate_groups lower [group_of_theme "bugs"; group_of_theme "Docs"]
                              [group_of_theme "Bugs"])
          [group_of_theme "bugs"; group_of_theme "Docs"]
∧ NoDup (theme_lower lower <$> deduplicate_groups lower [group_of_theme "bugs"; group_of_theme "Docs"]
                                            [group_of_theme "Bugs"])
∧ (forall g, g ∈ deduplicate_groups lower [group_of_theme "bugs"; group_of_theme "Docs"]
                                    [group_of_theme "Bugs"] ->
             theme_lower lower g ∉ (theme_lower lower <$> [group_of_theme "Bugs"]))
∧ deduplicate_groups lower (deduplicate_groups lower [group_of_theme "bugs"; group_of_theme "Docs"]
                                         [group_of_theme "Bugs"])
                     [group_of_theme "Bugs"]
  = deduplicate_groups lower [group_of_theme "bugs"; group_of_theme "Docs"]
                       [group_of_theme "Bugs"].
Proof.
assert (H : [group_of_theme "Bugs"] <> []) by discriminate.
split; [exact H|].
apply (deduplicate_groups_properties lower [group_of_theme "bugs"; group_of_theme "Docs"] _ H).
Defined.

End groups.

(** ** The endpoint when the store is healthy *)

Lemma sync_twitter_skipped env config last_sync acc w :
  twitter_asked env config = false ->
  main.sync_twitter env config last_sync acc w = (Return acc, w).
Proof.
  unfold twitter_asked, main.sync_twitter. intros H.
  destruct (default false _); [|reflexivity]. cbn [andb] in H. now rewrite H.
Qed.

Lemma save_groups_loop_returns fault gs : forall batch count n w,
  (forall k, fault (OpCommitGroups k) = None) ->
  exists st w', firestore.save_groups_loop fault gs batch count n w = (Return st, w').
Proof.
  induction gs as [|g gs IH]; intros batch count n w Hf; cbn [firestore.save_groups_loop].
  - now eexists _, _.
  - destruct (grouping.group_id g) as [i|]; [|now apply IH].
    destruct (truthy (Some i)); [|now apply IH].
    destruct (450 <=? S count)%nat; [|now apply IH].
    unfold bind. rewrite commit_groups_eq, Hf. now apply IH.
Qed.

Lemma save_groups_returns fault gs w :
  (forall k, fault (OpCommitGroups k) = None) ->
  exists w', firestore.save_groups fault gs w = (Return tt, w').
Proof.
  intros Hf. unfold firestore.save_groups, bind.
  destruct (save_groups_loop_returns fault gs [] 0%nat 0%nat w Hf) as ([[batch count] n] & w' & ->).
  destruct (0 <? count)%nat; [|now eexists].
  rewrite commit_groups_eq, Hf. now eexists.
Qed.

Lemma save_items_returns fault items w :
  (forall k, fault (OpCommitFeedback k) = None) ->
  exists w', firestore.save_items fault items w = (Return tt, w').
Proof.
  intros Hf.
  destruct (firestore.save_items fault items w) as [[[]|e] w'] eqn:Hrun; [now eexists|].
  apply save_items_failure_batches in Hrun as (j & Hj & _). rewrite Hf in Hj. discriminate.
Qed.

Lemma get_config_eq fault w :
  fault OpGetConfig = None -> firestore.get_config fault w = (Return (config_docs (store w)), w).
Proof.
  intros Hf. unfold firestore.get_config, bind, store_call, get_store, ret. now rewrite Hf.
Qed.

Lemma get_last_sync_time_eq fault w :
  fault OpGetSyncState = None ->
  firestore.get_last_sync_time fault w
  = (Return (match sync_state (store w) with
             | Some data => lastSyncAt data
             | None => None
             end), w).
Proof.
  intros Hf. unfold firestore.get_last_sync_time, bind, store_call, get_store, ret.
  now rewrite Hf.
Qed.

Lemma merge_items_eq fault items w :
  fault OpStreamFeedback = None ->
  firestore.merge_items fault items w
  = (Return (List.filter (is_new (feedback (store w))) items), w).
Proof.
  intros Hf.
  unfold firestore.merge_items, firestore.get_existing_items, bind, store_call, get_store, ret.
  rewrite Hf. cbn. now rewrite merge_loop.
Qed.

Lemma update_sync_timestamp_returns fault clock w :
  fault OpSetSyncState = None ->
  exists w', firestore.update_sync_timestamp fault clock w = (Return tt, w').
Proof.
  intros Hf.
  unfold firestore.update_sync_timestamp, bind, now, store_call, get_store, put_store, ret.
  rewrite Hf. now eexists.
Qed.

Lemma enrich_and_save_returns env all_items new_items w :
  (forall op, main.fault env op = None) ->
  exists resp w', main.enrich_and_save env all_items new_items w = (Return resp, w').
Proof.
  intros Hf. unfold main.enrich_and_save.
  destruct (sentiment.analyze_batch _ _) as [heap refs]. unfold bind.
  destruct (get_existing_groups_eq (main.fault env) w (Hf _)) as (egs & -> & _).
  match goal with
  | |- context [firestore.save_items ?f ?l ?w0] =>
      destruct (save_items_returns f l w0 (fun k => Hf _)) as (w1 & ->)
  end.
  match goal with
  | |- context [firestore.save_groups ?f ?l ?w0] =>
      destruct (save_groups_returns f l w0 (fun k => Hf _)) as (w2 & ->)
  end.
  destruct (update_sync_timestamp_returns (main.fault env) (main.clock env) w2 (Hf _))
    as (w3 & ->).
  unfold ret. now eexists _, _.
Qed.

Lemma sync_body_returns env w :
  (forall op, main.fault env op = None) ->
  twitter_asked env (config_docs (store w)) = false ->
  exists resp w', main.sync_body env w = (Return resp, w').
Proof.
  intros Hf Htw.
  unfold main.sync_body, main.fetch_and_merge, bind.
  rewrite get_config_eq, get_last_sync_time_eq by apply Hf.
  rewrite sync_twitter_skipped by assumption.
  match goal with
  | |- context [main.sync_github ?a ?b ?c ?d ?e] =>
      destruct (sync_github_returns a b c d e) as (gh & m1 & ->)
  end.
  match goal with
  | |- context [main.sync_discourse ?a ?b ?c ?d] =>
      destruct (sync_discourse_returns a b c d) as (dc & m2 & ->)
  end.
  rewrite merge_items_eq by apply Hf. unfold ret.
  destruct (List.filter _ _) as [|it new_items]; [now eexists _, _|].
  apply enrich_and_save_returns, Hf.
Qed.

(** X20: an authorized run that takes the lock ends with a response,
    never with an error, when no store call fails and the social source is
    not asked (it is disabled or has no token): failures of the other
    fetchers and of the language model are all absorbed. *)
Theorem sync_all_healthy_returns env auth w :
  main.authorized auth = true ->
  acquirable (main.clock env) w = true ->
  (forall op, main.fault env op = None) ->
  twitter_asked env (config_docs (store w)) = false ->
  exists resp, fst (main.sync_all env auth w) = Return resp.
Proof.
  intros Ha Hq Hf Htw.
  rewrite sync_all_acquired, try_finally_release, try_except_on_error by assumption.
  destruct (sync_body_returns env (locked_world (main.clock env) w) Hf Htw) as (resp & w' & ->).
  now eexists.
Qed.

Lemma sync_all_healthy_returns_witness :
  main.authorized bearer = true
  ∧ acquirable (main.clock (tokens_env (fun _ => None))) github_only = true
  ∧ (forall op, main.fault (tokens_env (fun _ => None)) op = None)
  ∧ twitter_asked (tokens_env (fun _ => None)) (config_docs (store github_only)) = false
  ∧ exists resp, fst (main.sync_all (tokens_env (fun _ => None)) bearer github_only) = Return resp.
Proof.
  assert (H : forall op, main.fault (tokens_env (fun _ => None)) op = None)
    by (intros op; reflexivity).
  split; [reflexivity|]. split; [reflexivity|]. split; [exact H|]. split; [reflexivity|].
  apply (sync_all_healthy_returns (tokens_env (fun _ => None)) bearer github_only);
    [reflexivity|reflexivity|exact H|reflexivity].
Defined.

(** ** The retry loops of the HTTP calls *)

Lemma scheduled_intro {A} (r : httpx.run A) k :
  (k <= 3)%nat -> httpx.sleeps r = backoff k ->
  (k <= 2)%nat ∨ (exists a, httpx.result r = inl a) -> scheduled r.
Proof.
  intros Hk Hs Hr. exists k. split; [assumption|]. split; [assumption|].
  intros err He. destruct Hr as [Hr|[a Ha]]; [assumption|congruence].
Qed.

Ltac schedule :=
  first [ apply (scheduled_intro _ 0); [lia|reflexivity|first [left; lia|right; by eexists]]
        | apply (scheduled_intro _ 1); [lia|reflexivity|first [left; lia|right; by eexists]]
        | apply (scheduled_intro _ 2); [lia|reflexivity|first [left; lia|right; by eexists]]
        | apply (scheduled_intro _ 3); [lia|reflexivity|first [left; lia|right; by eexists]] ].

Ltac server_errors :=
  repeat match goal with
         | |- context [httpx.server_error ?c] => destruct (httpx.server_error c)
         end.

Lemma search_term_scheduled rejects get parse :
  scheduled (twitter._search_term rejects get parse).
Proof.
  unfold twitter._search_term. cbn [seq twitter.max_retries twitter.search_term_attempts].
  destruct (twitter.search_term_try rejects get parse 0) as [[i0|]|[c0|e0]];
  destruct (twitter.search_term_try rejects get parse 1) as [[i1|]|[c1|e1]];
  destruct (twitter.search_term_try rejects get parse 2) as [[i2|]|[c2|e2]];
  server_errors; cbn; schedule.
Qed.

Lemma fetch_issues_scheduled rejects get parse :
  scheduled (github._fetch_issues rejects get parse).
Proof.
  unfold github._fetch_issues. cbn [seq github.max_retries github.fetch_issues_attempts].
  destruct (github.fetch_issues_try rejects get parse 0) as [[i0|]|[c0|e0]];
  destruct (github.fetch_issues_try rejects get parse 1) as [[i1|]|[c1|e1]];
  destruct (github.fetch_issues_try rejects get parse 2) as [[i2|]|[c2|e2]];
  server_errors; cbn; schedule.
Qed.

Lemma fetch_discussions_scheduled rejects post parse :
  scheduled (github._fetch_discussions rejects post parse).
Proof.
  unfold github._fetch_discussions.
  cbn [seq github.max_retries github.fetch_discussions_attempts].
  destruct (github.fetch_discussions_try rejects post parse 0) as [i0|e0];
  destruct (github.fetch_discussions_try rejects post parse 1) as [i1|e1];
  destruct (github.fetch_discussions_try rejects post parse 2) as [i2|e2];
  cbn; schedule.
Qed.

Lemma fetch_latest_topics_scheduled rejects get :
  scheduled (discourse._fetch_latest_topics rejects get).
Proof.
  unfold discourse._fetch_latest_topics.
  cbn [seq discourse.max_retries discourse.latest_topics_attempts].
  destruct (discourse.fetch_try rejects get "topic_list" "topics" 50 0) as [[i0|]|e0];
  destruct (discourse.fetch_try rejects get "topic_list" "topics" 50 1) as [[i1|]|e1];
  destruct (discourse.fetch_try rejects get "topic_list" "topics" 50 2) as [[i2|]|e2];
  cbn; schedule.
Qed.

Lemma fetch_topic_posts_scheduled rejects get :
  scheduled (discourse._fetch_topic_posts rejects get).
Proof.
  unfold discourse._fetch_topic_posts.
  cbn [seq discourse.max_retries discourse.topic_posts_attempts].
  destruct (discourse.fetch_try rejects get "post_stream" "posts" 5 0) as [[i0|]|e0];
  destruct (discourse.fetch_try rejects get "post_stream" "posts" 5 1) as [[i1|]|e1];
  destruct (discourse.fetch_try rejects get "post_stream" "posts" 5 2) as [[i2|]|e2];
  cbn; schedule.
Qed.

(** X21: the five HTTP fetchers back off alike: whatever the service
    answers, a fetcher sleeps before at most three attempts, 1 then 2 then
    4 seconds in that order, and it never sleeps after the failure it
    raises. *)
Theorem retry_schedule rejects get parse :
  scheduled (twitter._search_term rejects get parse)
  ∧ scheduled (github._fetch_issues rejects get parse)
  ∧ scheduled (github._fetch_discussions rejects get parse)
  ∧ scheduled (discourse._fetch_latest_topics rejects get)
  ∧ scheduled (discourse._fetch_topic_posts rejects get).
Proof.
  repeat split.
  - apply search_term_scheduled.
  - apply fetch_issues_scheduled.
  - apply fetch_discussions_scheduled.
  - apply fetch_latest_topics_scheduled.
  - apply fetch_topic_posts_scheduled.
Qed.

(** What the [try] of the REST fetchers makes of a response. *)
Lemma search_term_try_again rejects get parse j :
  tried_again rejects (get j) ->
  twitter.search_term_try rejects get parse j = inl None
  ∨ exists c, twitter.search_term_try rejects get parse j = inr (httpx.HTTPStatusError c)
              ∧ httpx.server_error c = true.
Proof.
  intros (response & Hget & Hst). unfold twitter.search_term_try. rewrite Hget.
  destruct (Z.eqb_spec (httpx.status_code response) 429) as [H429|H429]; [now left|].
  destruct Hst as [Hst|[Hrej Hsrv]]; [contradiction|].
  right. exists (httpx.status_code response). unfold httpx.raise_for_status. now rewrite Hrej.
Qed.

Lemma search_term_try_refused rejects get parse k response :
  get k = Return response -> refused rejects response ->
  twitter.search_term_try rejects get parse k
  = inr (httpx.HTTPStatusError (httpx.status_code response)).
Proof.
  intros Hget (H429 & Hrej & _). unfold twitter.search_term_try. rewrite Hget.
  apply Z.eqb_neq in H429. rewrite H429. unfold httpx.raise_for_status. now rewrite Hrej.
Qed.

Lemma search_term_try_accepted rejects get parse k response data items :
  get k = Return response -> accepted rejects response data -> parse data = Return items ->
  twitter.search_term_try rejects get parse k = inl (Some items).
Proof.
  intros Hget (H429 & Hrej & Hbody) Hparse. unfold twitter.search_term_try. rewrite Hget.
  apply Z.eqb_neq in H429. rewrite H429. unfold httpx.raise_for_status.
  now rewrite Hrej, Hbody, Hparse.
Qed.

Lemma fetch_issues_try_again rejects get parse j :
  tried_again rejects (get j) ->
  github.fetch_issues_try rejects get parse j = inl None
  ∨ exists c, github.fetch_issues_try rejects get parse j = inr (httpx.HTTPStatusError c)
              ∧ httpx.server_error c = true.
Proof.
  intros (response & Hget & Hst). unfold github.fetch_issues_try. rewrite Hget.
  destruct (Z.eqb_spec (httpx.status_code response) 429) as [H429|H429]; [now left|].
  destruct Hst as [Hst|[Hrej Hsrv]]; [contradiction|].
  right. exists (httpx.status_code response). unfold httpx.raise_for_status. now rewrite Hrej.
Qed.

Lemma fetch_issues_try_refused rejects get parse k response :
  get k = Return response -> refused rejects response ->
  github.fetch_issues_try rejects get parse k
  = inr (httpx.HTTPStatusError (httpx.status_code response)).
Proof.
  intros Hget (H429 & Hrej & _). unfold github.fetch_issues_try. rewrite Hget.
  apply Z.eqb_neq in H429. rewrite H429. unfold httpx.raise_for_status. now rewrite Hrej.
Qed.

Lemma fetch_issues_try_accepted rejects get parse k response data items :
  get k = Return response -> accepted rejects response data -> parse data = Return items ->
  github.fetch_issues_try rejects get parse k = inl (Some items).
Proof.
  intros Hget (H429 & Hrej & Hbody) Hparse. unfold github.fetch_issues_try. rewrite Hget.
  apply Z.eqb_neq in H429. rewrite H429. unfold httpx.raise_for_status.
  now rewrite Hrej, Hbody, Hparse.
Qed.

(** Attempts that are tried again only add their delays. *)
Lemma search_term_attempts_again rejects get parse k : forall start rest slept logged,
  (forall j, (start <= j < start + k)%nat -> tried_again rejects (get j)) ->
  twitter.search_term_attempts rejects get parse (seq start k ++ rest) slept logged
  = twitter.search_term_attempts rejects get parse rest
      (slept ++ ((fun attempt => 2 ^ attempt)%nat <$> seq start k)) logged.
Proof.
  induction k as [|k IH]; intros start rest slept logged Hagain.
  - cbn. now rewrite app_nil_r.
  - cbn [seq app twitter.search_term_attempts fmap list_fmap].
    destruct (search_term_try_again rejects get parse start (Hagain start ltac:(lia)))
      as [->|(c & -> & ->)];
      (rewrite IH by (intros j Hj; apply Hagain; lia)); now rewrite <- app_assoc.
Qed.

Lemma fetch_issues_attempts_again rejects get parse k : forall start rest slept,
  (forall j, (start <= j < start + k)%nat -> tried_again rejects (get j)) ->
  github.fetch_issues_attempts rejects get parse (seq start k ++ rest) slept
  = github.fetch_issues_attempts rejects get parse rest
      (slept ++ ((fun attempt => 2 ^ attempt)%nat <$> seq start k)).
Proof.
  induction k as [|k IH]; intros start rest slept Hagain.
  - cbn. now rewrite app_nil_r.
  - cbn [seq app github.fetch_issues_attempts fmap list_fmap].
    destruct (fetch_issues_try_again rejects get parse start (Hagain start ltac:(lia)))
      as [->|(c & -> & ->)];
      (rewrite IH by (intros j Hj; apply Hagain; lia)); now rewrite <- app_assoc.
Qed.

Lemma seq_split3 k : (k < 3)%nat -> seq 0 3 = seq 0 k ++ k :: seq (S k) (2 - k).
Proof. intros Hk. destruct k as [|[|[|k]]]; [reflexivity..|lia]. Qed.

(** X22: the REST fetchers fail open under a lasting rate limit or server
    error: when each of the three attempts is answered 429 or a rejected
    500, 502, 503 or 504, [_search_term] and [_fetch_issues] return no item
    and raise nothing, after sleeping 1, 2 and 4 seconds, and log no
    error. *)
Theorem rest_fetch_fail_open rejects get parse :
  (forall attempt, (attempt < 3)%nat -> tried_again rejects (get attempt)) ->
  twitter._search_term rejects get parse = quiet_run (inl []) [1; 2; 4]%nat
  ∧ github._fetch_issues rejects get parse = quiet_run (inl []) [1; 2; 4]%nat.
Proof.
  intros Hagain.
  unfold twitter._search_term, github._fetch_issues, twitter.max_retries, github.max_retries.
  rewrite <- (app_nil_r (seq 0 3)). split.
  - rewrite search_term_attempts_again by (intros j Hj; apply Hagain; lia). reflexivity.
  - rewrite fetch_issues_attempts_again by (intros j Hj; apply Hagain; lia). reflexivity.
Qed.

Lemma rest_fetch_fail_open_witness :
  (forall attempt, (attempt < 3)%nat ->
     tried_again rejects_errors ((fun _ => Return (response_of 503 JNull)) attempt))
  ∧ twitter._search_term rejects_errors (fun _ => Return (response_of 503 JNull)) one_item
    = quiet_run (inl []) [1; 2; 4]%nat
  ∧ github._fetch_issues rejects_errors (fun _ => Return (response_of 503 JNull)) one_item
    = quiet_run (inl []) [1; 2; 4]%nat.
Proof.
  assert (H : forall attempt, (attempt < 3)%nat ->
                tried_again rejects_errors ((fun _ => Return (response_of 503 JNull)) attempt)).
  { intros attempt _. eexists. split; [reflexivity|]. right. split; reflexivity. }
  split; [exact H|]. apply (rest_fetch_fail_open rejects_errors _ one_item H).
Defined.

(** X23: a status that [raise_for_status] rejects and that is neither 429
    nor a server error ends the REST fetchers at once: after [k] attempts
    that were tried again, [_search_term] and [_fetch_issues] raise its
    [HTTPStatusError] having slept [k] times, make no further attempt and
    log no error. *)
Theorem rest_fetch_refused rejects get parse k response :
  (k < 3)%nat ->
  (forall j, (j < k)%nat -> tried_again rejects (get j)) ->
  get k = Return response ->
  refused rejects response ->
  twitter._search_term rejects get parse
  = quiet_run (inr (httpx.HTTPStatusError (httpx.status_code response))) (backoff k)
  ∧ github._fetch_issues rejects get parse
    = quiet_run (inr (httpx.HTTPStatusError (httpx.status_code response))) (backoff k).
Proof.
  intros Hk Hagain Hget Href.
  unfold twitter._search_term, github._fetch_issues, twitter.max_retries, github.max_retries.
  rewrite (seq_split3 k Hk). split.
  - rewrite search_term_attempts_again by (intros j Hj; apply Hagain; lia).
    cbn [twitter.search_term_attempts].
    rewrite (search_term_try_refused _ _ _ _ _ Hget Href).
    destruct Href as (_ & _ & ->). reflexivity.
  - rewrite fetch_issues_attempts_again by (intros j Hj; apply Hagain; lia).
    cbn [github.fetch_issues_attempts].
    rewrite (fetch_issues_try_refused _ _ _ _ _ Hget Href).
    destruct Href as (_ & _ & ->). reflexivity.
Qed.

Lemma rest_fetch_refused_witness :
  (1 < 3)%nat
  ∧ (forall j, (j < 1)%nat -> tried_again rejects_errors (limited_once 404 j))
  ∧ limited_once 404 1 = Return (response_of 404 JNull)
  ∧ refused rejects_errors (response_of 404 JNull)
  ∧ twitter._search_term rejects_errors (limited_once 404) one_item
    = quiet_run (inr (httpx.HTTPStatusError (httpx.status_code (response_of 404 JNull))))
                (backoff 1)
  ∧ github._fetch_issues rejects_errors (limited_once 404) one_item
    = quiet_run (inr (httpx.HTTPStatusError (httpx.status_code (response_of 404 JNull))))
                (backoff 1).
Proof.
  assert (H1 : (1 < 3)%nat) by lia.
  assert (H2 : forall j, (j < 1)%nat -> tried_again rejects_errors (limited_once 404 j)).
  { intros j Hj. destruct j; [|lia]. eexists. split; [reflexivity|]. left. reflexivity. }
  assert (H3 : refused rejects_errors (response_of 404 JNull)).
  { split; [discriminate|]. split; reflexivity. }
  split; [exact H1|]. split; [exact H2|]. split; [reflexivity|]. split; [exact H3|].
  apply (rest_fetch_refused rejects_errors (limited_once 404) one_item 1 _ H1 H2 eq_refl H3).
Defined.

(** X24: the first accepted answer wins: after [k] attempts that were
    tried again, an answer that is accepted and parses makes
    [_search_term] and [_fetch_issues] return its items, having slept [k]
    times and logged no error. *)
Theorem rest_fetch_accepted rejects get parse k response data items :
  (k < 3)%nat ->
  (forall j, (j < k)%nat -> tried_again rejects (get j)) ->
  get k = Return response ->
  accepted rejects response data ->
  parse data = Return items ->
  twitter._search_term rejects get parse = quiet_run (inl items) (backoff k)
  ∧ github._fetch_issues rejects get parse = quiet_run (inl items) (backoff k).
Proof.
  intros Hk Hagain Hget Hacc Hparse.
  unfold twitter._search_term, github._fetch_issues, twitter.max_retries, github.max_retries.
  rewrite (seq_split3 k Hk). split.
  - rewrite search_term_attempts_again by (intros j Hj; apply Hagain; lia).
    cbn [twitter.search_term_attempts].
    now rewrite (search_term_try_accepted _ _ _ _ _ _ _ Hget Hacc Hparse).
  - rewrite fetch_issues_attempts_again by (intros j Hj; apply Hagain; lia).
    cbn [github.fetch_issues_attempts].
    now rewrite (fetch_issues_try_accepted _ _ _ _ _ _ _ Hget Hacc Hparse).
Qed.

Lemma rest_fetch_accepted_witness :
  (2 < 3)%nat
  ∧ (forall j, (j < 2)%nat -> tried_again rejects_errors (recovering JNull j))
  ∧ recovering JNull 2 = Return (response_of 200 JNull)
  ∧ accepted rejects_errors (response_of 200 JNull) JNull
  ∧ one_item JNull = Return [fetched_item (Some "github-issue-1")]
  ∧ twitter._search_term rejects_errors (recovering JNull) one_item
    = quiet_run (inl [fetched_item (Some "github-issue-1")]) (backoff 2)
  ∧ github._fetch_issues rejects_errors (recovering JNull) one_item
    = quiet_run (inl [fetched_item (Some "github-issue-1")]) (backoff 2).
Proof.
  assert (H1 : (2 < 3)%nat) by lia.
  assert (H2 : forall j, (j < 2)%nat -> tried_again rejects_errors (recovering JNull j)).
  { intros j Hj. destruct j as [|[|j]]; [| |lia]; eexists; (split; [reflexivity|]).
    - right. split; reflexivity.
    - left. reflexivity. }
  assert (H3 : accepted rejects_errors (response_of 200 JNull) JNull).
  { split; [discriminate|]. split; reflexivity. }
  split; [exact H1|]. split; [exact H2|]. split; [reflexivity|]. split; [exact H3|].
  split; [reflexivity|].
  apply (rest_fetch_accepted rejects_errors (recovering JNull) one_item 2 _ JNull _
           H1 H2 eq_refl H3 eq_refl).
Defined.

(** X25: a request that fails on all three attempts: [_search_term],
    [_fetch_issues] and [_fetch_latest_topics] raise the last failure
    after sleeping 1 and 2 seconds, [_search_term] having logged one
    error per attempt; [_fetch_discussions] and [_fetch_topic_posts] return
    nothing instead, the former logging the last failure once. *)
Theorem request_fails_thrice rejects get (e : nat -> exn) parse_tweets parse_issues
      parse_discussions :
  (forall attempt, (attempt < 3)%nat -> get attempt = Raise (e attempt)) ->
  twitter._search_term rejects get parse_tweets
  = {| httpx.result := inr (httpx.Other (e 2%nat));
       httpx.sleeps := [1; 2]%nat;
       httpx.errors := (fun attempt => ("[Twitter] Request error: ", httpx.Other (e attempt)))
                         <$> [0; 1; 2]%nat |}
  ∧ github._fetch_issues rejects get parse_issues
    = quiet_run (inr (httpx.Other (e 2%nat))) [1; 2]%nat
  ∧ github._fetch_discussions rejects get parse_discussions
    = {| httpx.result := inl [];
         httpx.sleeps := [1; 2]%nat;
         httpx.errors := [("[GitHub] GraphQL error: ", httpx.Other (e 2%nat))] |}
  ∧ discourse._fetch_latest_topics rejects get
    = quiet_run (inr (httpx.Other (e 2%nat))) [1; 2]%nat
  ∧ discourse._fetch_topic_posts rejects get = quiet_run (inl (JArr [])) [1; 2]%nat.
Proof.
  intros Hfail.
  pose proof (Hfail 0%nat ltac:(lia)) as H0.
  pose proof (Hfail 1%nat ltac:(lia)) as H1.
  pose proof (Hfail 2%nat ltac:(lia)) as H2.
  unfold twitter._search_term, github._fetch_issues, github._fetch_discussions,
    discourse._fetch_latest_topics, discourse._fetch_topic_posts.
  cbn [seq twitter.max_retries github.max_retries discourse.max_retries
       twitter.search_term_attempts github.fetch_issues_attempts
       github.fetch_discussions_attempts discourse.latest_topics_attempts
       discourse.topic_posts_attempts].
  unfold twitter.search_term_try, github.fetch_issues_try, github.fetch_discussions_try,
    discourse.fetch_try.
  rewrite H0, H1, H2. repeat split.
Qed.

Lemma request_fails_thrice_witness :
  (forall attempt, (attempt < 3)%nat ->
     (fun _ : nat => @unavailable httpx.Response) attempt
     = Raise ((fun _ => RuntimeError "service unavailable") attempt))
  ∧ twitter._search_term rejects_errors (fun _ => unavailable) one_item
    = {| httpx.result := inr (httpx.Other (RuntimeError "service unavailable"));
         httpx.sleeps := [1; 2]%nat;
         httpx.errors := (fun attempt : nat =>
                            ("[Twitter] Request error: ",
                             httpx.Other (RuntimeError "service unavailable")))
                           <$> [0; 1; 2]%nat |}
  ∧ github._fetch_issues rejects_errors (fun _ => unavailable) one_item
    = quiet_run (inr (httpx.Other (RuntimeError "service unavailable"))) [1; 2]%nat
  ∧ github._fetch_discussions rejects_errors (fun _ => unavailable) one_item
    = {| httpx.result := inl [];
         httpx.sleeps := [1; 2]%nat;
         httpx.errors := [("[GitHub] GraphQL error: ",
                           httpx.Other (RuntimeError "service unavailable"))] |}
  ∧ discourse._fetch_latest_topics rejects_errors (fun _ => unavailable)
    = quiet_run (inr (httpx.Other (RuntimeError "service unavailable"))) [1; 2]%nat
  ∧ discourse._fetch_topic_posts rejects_errors (fun _ => unavailable)
    = quiet_run (inl (JArr [])) [1; 2]%nat.
Proof.
  assert (H : forall attempt, (attempt < 3)%nat ->
                (fun _ : nat => @unavailable httpx.Response) attempt
                = Raise ((fun _ => RuntimeError "service unavailable") attempt))
    by (intros attempt _; reflexivity).
  split; [exact H|].
  apply (request_fails_thrice rejects_errors (fun _ => unavailable)
           (fun _ => RuntimeError "service unavailable") one_item one_item one_item H).
Defined.

(** X26: [_fetch_discussions] never raises: whatever the service answers
    it returns a list; it logs at most one error, and when it does the
    third attempt failed, the list is empty and it slept 1 and 2
    seconds. *)
Theorem graphql_fetch_returns rejects post parse :
  exists items,
    httpx.result (github._fetch_discussions rejects post parse) = inl items
    ∧ (httpx.errors (github._fetch_discussions rejects post parse) = []
       ∨ (exists err,
             httpx.errors (github._fetch_discussions rejects post parse)
             = [("[GitHub] GraphQL error: ", err)]
             ∧ github.fetch_discussions_try rejects post parse 2 = inr err
             ∧ items = []
             ∧ httpx.sleeps (github._fetch_discussions rejects post parse) = [1; 2]%nat)).
Proof.
  unfold github._fetch_discussions.
  cbn [seq github.max_retries github.fetch_discussions_attempts].
  destruct (github.fetch_discussions_try rejects post parse 0) as [i0|e0];
    [eexists; split; [reflexivity|now left]|].
  destruct (github.fetch_discussions_try rejects post parse 1) as [i1|e1];
    [eexists; split; [reflexivity|now left]|].
  destruct (github.fetch_discussions_try rejects post parse 2) as [i2|e2];
    [eexists; split; [reflexivity|now left]|].
  eexists; split; [reflexivity|]. right. now exists e2.
Qed.

Lemma chars_cons c d s :
  chars (String c (String d s))
  = if is_continuation d
    then match chars (String d s) with
         | h :: t => String c h :: t
         | [] => [String c EmptyString]
         end
    else String c EmptyString :: chars (String d s).
Proof. reflexivity. Qed.

(** The first character of a string that is not empty starts with its
    first byte. *)
Lemma chars_head c s : exists x t, chars (String c s) = String c x :: t.
Proof.
  destruct s as [|d s]; [now eexists _, _|]. rewrite chars_cons.
  destruct (is_continuation d); [|now eexists _, _].
  destruct (chars (String d s)); now eexists _, _.
Qed.

Lemma chars_chunks s :
  Forall (fun h => is_char h = true) (chars s)
  ∧ Forall (fun h => leads h = true) (drop 1 (chars s)).
Proof.
  induction s as [|c s IH]; [split; constructor|].
  destruct s as [|d s]; [split; repeat constructor|].
  destruct IH as [IH1 IH2]. rewrite chars_cons.
  destruct (chars_head d s) as (x & t & Hd). rewrite Hd in *.
  destruct (is_continuation d) eqn:Hc.
  - apply Forall_cons in IH1 as [Hx Ht]. cbn [drop] in *. split; [|assumption].
    constructor; [|assumption]. cbn in *. now rewrite Hc.
  - split; [constructor; [reflexivity|assumption]|].
    cbn [drop] in *. constructor; [cbn; now rewrite Hc|assumption].
Qed.

(** A character followed by a string that starts a character of its own is
    a character of the whole. *)
Lemma chars_app_char t : forall c rest,
  continuations t = true ->
  (if rest is String d _ then is_continuation d = false else True) ->
  chars (String c (t +:+ rest)) = String c t :: chars rest.
Proof.
  induction t as [|d t IH]; intros c rest Ht Hrest.
  - cbv [String.append]. destruct rest as [|d rest]; [reflexivity|].
    rewrite chars_cons. now rewrite Hrest.
  - cbn in Ht. apply andb_true_iff in Ht as [Hd Ht].
    change (String c (String d t +:+ rest)) with (String c (String d (t +:+ rest))).
    rewrite chars_cons, Hd. now rewrite (IH d rest Ht Hrest).
Qed.

Lemma chars_concat l :
  Forall (fun h => is_char h = true) l ->
  Forall (fun h => leads h = true) (drop 1 l) ->
  chars (String.concat EmptyString l) = l.
Proof.
  induction l as [|h l IH]; intros Hl Hd; [reflexivity|].
  apply Forall_cons in Hl as [Hh Hl]. cbn [drop] in Hd.
  destruct h as [|c t]; [discriminate|]. cbn in Hh.
  destruct l as [|h2 l].
  - cbn [String.concat].
    assert (Happ : t +:+ EmptyString = t).
    { clear. induction t as [|d t IH]; [reflexivity|].
      change (String d t +:+ EmptyString) with (String d (t +:+ EmptyString)). now rewrite IH. }
    rewrite <- Happ at 1. now rewrite (chars_app_char t c EmptyString Hh I).
  - assert (Hrest : chars (String.concat EmptyString (h2 :: l)) = h2 :: l).
    { apply IH; [assumption|]. apply Forall_cons in Hd as [_ Hd].
      destruct l; [constructor|]. cbn [drop]. exact Hd. }
    change (String.concat EmptyString (String c t :: h2 :: l))
      with (String c t +:+ (EmptyString +:+ String.concat EmptyString (h2 :: l))).
    change (EmptyString +:+ String.concat EmptyString (h2 :: l))
      with (String.concat EmptyString (h2 :: l)).
    change (String c t +:+ String.concat EmptyString (h2 :: l))
      with (String c (t +:+ String.concat EmptyString (h2 :: l))).
    rewrite chars_app_char, Hrest; [reflexivity|assumption|].
    apply Forall_cons in Hd as [Hh2 _]. apply Forall_cons in Hl as [Hc2 _].
    destruct h2 as [|c2 t2]; [discriminate|].
    destruct l as [|h3 l]; cbn; cbn in Hh2; now apply negb_true_iff in Hh2.
Qed.

Lemma chars_take n s :
  chars (String.concat EmptyString (take n (chars s))) = take n (chars s).
Proof.
  destruct (chars_chunks s) as [H1 H2]. apply chars_concat.
  - now apply Forall_take.
  - destruct n as [|n]; [constructor|].
    destruct (chars s) as [|h t]; [constructor|]. cbn [take drop] in *.
    now apply Forall_take.
Qed.

Lemma json_slice_at_most n x l : json_slice n x = Return l -> at_most n l.
Proof.
  destruct x; try discriminate; intros [= <-]; eexists; (split; [reflexivity|]).
  - rewrite chars_take, length_take. lia.
  - rewrite length_take. lia.
Qed.

Lemma fetch_try_at_most rejects get outer inner n attempt l :
  discourse.fetch_try rejects get outer inner n attempt = inl (Some l) -> at_most n l.
Proof.
  unfold discourse.fetch_try, discourse.sliced.
  destruct (get attempt) as [response|e]; [|discriminate].
  destruct (_ =? 429); [discriminate|].
  destruct (httpx.raise_for_status _ _); [|discriminate].
  destruct (httpx.body response) as [data|e]; [|discriminate].
  destruct (dict_get outer _ data) as [d|e]; [|discriminate].
  destruct (dict_get inner _ d) as [x|e]; [|discriminate].
  destruct (json_slice n x) as [l'|e] eqn:Hs; [|discriminate].
  intros [= <-]. eapply json_slice_at_most, Hs.
Qed.

Lemma at_most_empty n : at_most n (JArr []).
Proof. exists 0%nat. split; [reflexivity|lia]. Qed.

(** X27: the forum fetchers bound what they return: [_fetch_latest_topics]
    returns at most 50 topics when it returns, and [_fetch_topic_posts]
    never raises and returns at most 5 posts. *)
Theorem discourse_fetch_bounds rejects get :
  (forall topics, httpx.result (discourse._fetch_latest_topics rejects get) = inl topics ->
                  at_most 50 topics)
  ∧ (exists posts, httpx.result (discourse._fetch_topic_posts rejects get) = inl posts
                   ∧ at_most 5 posts).
Proof.
  unfold discourse._fetch_latest_topics, discourse._fetch_topic_posts.
  cbn [seq discourse.max_retries discourse.latest_topics_attempts
       discourse.topic_posts_attempts].
  split.
  - pose proof (fetch_try_at_most rejects get "topic_list" "topics" 50 0) as H0.
    pose proof (fetch_try_at_most rejects get "topic_list" "topics" 50 1) as H1.
    pose proof (fetch_try_at_most rejects get "topic_list" "topics" 50 2) as H2.
    destruct (discourse.fetch_try rejects get "topic_list" "topics" 50 0) as [[i0|]|e0];
    destruct (discourse.fetch_try rejects get "topic_list" "topics" 50 1) as [[i1|]|e1];
    destruct (discourse.fetch_try rejects get "topic_list" "topics" 50 2) as [[i2|]|e2];
    cbn; intros topics [= <-]; eauto using at_most_empty.
  - pose proof (fetch_try_at_most rejects get "post_stream" "posts" 5 0) as H0.
    pose proof (fetch_try_at_most rejects get "post_stream" "posts" 5 1) as H1.
    pose proof (fetch_try_at_most rejects get "post_stream" "posts" 5 2) as H2.
    destruct (discourse.fetch_try rejects get "post_stream" "posts" 5 0) as [[i0|]|e0];
    destruct (discourse.fetch_try rejects get "post_stream" "posts" 5 1) as [[i1|]|e1];
    destruct (discourse.fetch_try rejects get "post_stream" "posts" 5 2) as [[i2|]|e2];
    cbn; eexists; (split; [reflexivity|]); eauto using at_most_empty.
Qed.

(** Under a lasting rate limit the forum fetchers fail open. *)
Lemma discourse_rate_limited rejects get :
  (forall attempt, (attempt < 3)%nat -> rate_limited (get attempt)) ->
  discourse._fetch_latest_topics rejects get = quiet_run (inl (JArr [])) [1; 2; 4]%nat
  ∧ discourse._fetch_topic_posts rejects get = quiet_run (inl (JArr [])) [1; 2; 4]%nat.
Proof.
  intros Hlim.
  assert (Htry : forall outer inner n attempt, (attempt < 3)%nat ->
                   discourse.fetch_try rejects get outer inner n attempt = inl None).
  { intros outer inner n attempt Ha. destruct (Hlim attempt Ha) as (response & Hget & Hst).
    unfold discourse.fetch_try. now rewrite Hget, Hst. }
  unfold discourse._fetch_latest_topics, discourse._fetch_topic_posts.
  cbn [seq discourse.max_retries discourse.latest_topics_attempts
       discourse.topic_posts_attempts].
  rewrite !Htry by lia. now split.
Qed.

(** Under a lasting rejected status the two forum fetchers part:
    [_fetch_latest_topics] raises the last [HTTPStatusError],
    [_fetch_topic_posts] returns an empty list. *)
Lemma discourse_rejected rejects get (response : nat -> httpx.Response) :
  (forall attempt, (attempt < 3)%nat ->
     get attempt = Return (response attempt)
     ∧ httpx.status_code (response attempt) <> 429
     ∧ rejects (httpx.status_code (response attempt)) = true) ->
  discourse._fetch_latest_topics rejects get
  = quiet_run (inr (httpx.HTTPStatusError (httpx.status_code (response 2%nat)))) [1; 2]%nat
  ∧ discourse._fetch_topic_posts rejects get = quiet_run (inl (JArr [])) [1; 2]%nat.
Proof.
  intros Hrej.
  assert (Htry : forall outer inner n attempt, (attempt < 3)%nat ->
                   discourse.fetch_try rejects get outer inner n attempt
                   = inr (httpx.HTTPStatusError (httpx.status_code (response attempt)))).
  { intros outer inner n attempt Ha. destruct (Hrej attempt Ha) as (Hget & H429 & Hr).
    unfold discourse.fetch_try, httpx.raise_for_status. apply Z.eqb_neq in H429.
    now rewrite Hget, H429, Hr. }
  unfold discourse._fetch_latest_topics, discourse._fetch_topic_posts.
  cbn [seq discourse.max_retries discourse.latest_topics_attempts
       discourse.topic_posts_attempts].
  rewrite !Htry by lia. now split.
Qed.

(** ** The parsers of the issue tracker *)


Lemma parse_issue_item str issue item :
  github.parse_issue str issue = Return item ->
  exists id, json_item "id" issue = Return id
             ∧ item_id item = Some ("github-issue-" +:+ str id)
             ∧ sourceType item = "github-issue"
             ∧ analyzed item = false.
Proof.
  unfold github.parse_issue, and_then.
  destruct (json_item "id" issue) as [id|]; [|discriminate].
  destruct (json_item "title" issue); [|discriminate].
  destruct (dict_get "body" _ issue); [|discriminate].
  destruct (dict_get "user" _ issue) as [user|]; [|discriminate].
  destruct (dict_get "login" _ user); [|discriminate].
  destruct (json_item "html_url" issue); [|discriminate].
  destruct (dict_get "reactions" _ issue) as [reactions|]; [|discriminate].
  destruct (dict_get "+1" _ reactions); [|discriminate].
  intros [= <-]. now exists id.
Qed.

Lemma parse_issues_loop_items str l0 l : forall acc items,
  (forall issue, issue ∈ l -> issue ∈ l0) ->
  Forall (issue_item str l0) acc ->
  github.parse_issues_loop str l acc = Return items ->
  Forall (issue_item str l0) items ∧ (length items <= length acc + length l)%nat.
Proof.
  induction l as [|issue l IH]; intros acc items Hsub Hacc; cbn [github.parse_issues_loop].
  - intros [= <-]. split; [assumption|lia].
  - assert (Hrest : forall i, i ∈ l -> i ∈ l0) by (intros i Hi; apply Hsub; now right).
    destruct (json_contains "pull_request" issue) as [[|]|e] eqn:Hpr; [| |discriminate].
    + intros Hrun. destruct (IH _ _ Hrest Hacc Hrun) as [H1 H2]. split; [assumption|cbn; lia].
    + destruct (github.parse_issue str issue) as [item|e] eqn:Hitem; [|discriminate].
      intros Hrun. apply parse_issue_item in Hitem as (id & Hid & Hitem).
      destruct (IH (acc ++ [item]) items Hrest) as [H1 H2]; [|assumption|].
      * apply Forall_app. split; [assumption|]. apply Forall_singleton.
        exists issue, id. split; [apply Hsub; now left|]. split; [|now split].
        unfold is_pull_request. now rewrite Hpr.
      * split; [assumption|]. rewrite length_app in H2. cbn in *. lia.
Qed.


Lemma parse_issue_malformed str issue :
  malformed_issue issue -> exists e, github.parse_issue str issue = Raise e.
Proof.
  intros (kvs & -> & Hbad). unfold github.parse_issue, and_then. cbn [json_item dict_get].
  destruct (obj_get "id" kvs) as [id|] eqn:Hid; [|now eexists].
  destruct (obj_get "title" kvs) as [title|] eqn:Htitle; [|now eexists].
  destruct Hbad as [Hbad|[Hbad|[Hbad|Hbad]]]; [discriminate..| |].
  - destruct (default (JObj []) (obj_get "user" kvs)); cbn [dict_get]; try (now eexists).
    rewrite Hbad. now eexists.
  - rewrite Hbad. cbn. now eexists.
Qed.

Lemma parse_issues_loop_raises str l issue : forall acc,
  issue ∈ l -> is_pull_request issue = false ->
  (exists e, github.parse_issue str issue = Raise e) ->
  exists e, github.parse_issues_loop str l acc = Raise e.
Proof.
  intros acc Hin Hpr [e He]. revert acc.
  induction l as [|x l IH]; intros acc; [now apply not_elem_of_nil in Hin|].
  cbn [github.parse_issues_loop].
  apply elem_of_cons in Hin as [<-|Hin].
  - unfold is_pull_request in Hpr.
    destruct (json_contains "pull_request" issue) as [[|]|e']; [discriminate| |now eexists].
    rewrite He. now eexists.
  - destruct (json_contains "pull_request" x) as [[|]|e']; [now apply IH| |now eexists].
    destruct (github.parse_issue str x); [now apply IH|now eexists].
Qed.

(** X29: one malformed issue loses the whole page, three times over: when
    the service answers every attempt with an accepted page that holds an
    issue, not a pull request, that lacks [id], [title] or [html_url] or
    whose [user] is [null], [_parse_issues] raises, no issue of the page
    is returned, and [_fetch_issues] asks for the page three times,
    sleeping 1 and 2 seconds, before it raises that exception. *)
Theorem malformed_issue_loses_page rejects get str issues l issue :
  (forall attempt, (attempt < 3)%nat ->
     exists response, get attempt = Return response ∧ accepted rejects response issues) ->
  json_iter issues = Return l ->
  issue ∈ l ->
  is_pull_request issue = false ->
  malformed_issue issue ->
  exists e,
    github._parse_issues str issues = Raise e
    ∧ github._fetch_issues rejects get (github._parse_issues str)
      = quiet_run (inr (httpx.Other e)) [1; 2]%nat.
Proof.
  intros Hget Hiter Hin Hpr Hbad.
  destruct (parse_issues_loop_raises str l issue [] Hin Hpr (parse_issue_malformed str _ Hbad))
    as [e He].
  assert (Hparse : github._parse_issues str issues = Raise e).
  { unfold github._parse_issues. now rewrite Hiter. }
  exists e. split; [exact Hparse|].
  assert (Htry : forall attempt, (attempt < 3)%nat ->
                   github.fetch_issues_try rejects get (github._parse_issues str) attempt
                   = inr (httpx.Other e)).
  { intros attempt Ha. destruct (Hget attempt Ha) as (response & Hr & H429 & Hrej & Hbody).
    unfold github.fetch_issues_try, httpx.raise_for_status. apply Z.eqb_neq in H429.
    now rewrite Hr, H429, Hrej, Hbody, Hparse. }
  unfold github._fetch_issues.
  cbn [seq github.max_retries github.fetch_issues_attempts].
  rewrite !Htry by lia. reflexivity.
Qed.

Lemma malformed_issue_loses_page_witness :
  (forall attempt, (attempt < 3)%nat ->
     exists response, (fun _ => Return (response_of 200 page_with_ghost)) attempt = Return response
                      ∧ accepted rejects_errors response page_with_ghost)
  ∧ json_iter page_with_ghost
    = Return [issue_of 1 (JObj [("login", JStr "octocat")]); issue_of 2 JNull]
  ∧ issue_of 2 JNull ∈ [issue_of 1 (JObj [("login", JStr "octocat")]); issue_of 2 JNull]
  ∧ is_pull_request (issue_of 2 JNull) = false
  ∧ malformed_issue (issue_of 2 JNull)
  ∧ exists e,
      github._parse_issues digit_str page_with_ghost = Raise e
      ∧ github._fetch_issues rejects_errors (fun _ => Return (response_of 200 page_with_ghost))
                             (github._parse_issues digit_str)
        = quiet_run (inr (httpx.Other e)) [1; 2]%nat.
Proof.
  assert (H1 : forall attempt, (attempt < 3)%nat ->
                 exists response,
                   (fun _ => Return (response_of 200 page_with_ghost)) attempt = Return response
                   ∧ accepted rejects_errors response page_with_ghost).
  { intros attempt _. eexists. split; [reflexivity|]. split; [discriminate|]. split; reflexivity. }
  assert (H3 : issue_of 2 JNull
               ∈ [issue_of 1 (JObj [("login", JStr "octocat")]); issue_of 2 JNull])
    by (right; left).
  assert (H5 : malformed_issue (issue_of 2 JNull)).
  { eexists. split; [reflexivity|]. do 3 right. reflexivity. }
  split; [exact H1|]. split; [reflexivity|]. split; [exact H3|]. split; [reflexivity|].
  split; [exact H5|].
  apply (malformed_issue_loses_page rejects_errors _ digit_str page_with_ghost _ _
           H1 eq_refl H3 eq_refl H5).
Defined.

Lemma parse_discussion_id str disc item :
  github.parse_discussion str disc = Return item ->
  exists id, item_id item = Some ("github-discussion-" +:+ str id).
Proof.
  unfold github.parse_discussion, and_then.
  destruct (json_item "id" disc) as [id|]; [|discriminate].
  destruct (json_item "title" disc); [|discriminate].
  destruct (dict_get "body" _ disc); [|discriminate].
  destruct (dict_get "author" _ disc) as [author|]; [|discriminate].
  destruct (dict_get "login" _ author); [|discriminate].
  destruct (json_item "url" disc); [|discriminate].
  destruct (dict_get "comments" _ disc) as [comments|]; [|discriminate].
  destruct (dict_get "totalCount" _ comments); [|discriminate].
  intros [= <-]. now exists id.
Qed.

Lemma parse_discussions_loop_ids str l : forall acc items,
  Forall (fun item => exists id, item_id item = Some ("github-discussion-" +:+ str id)) acc ->
  github.parse_discussions_loop str l acc = Return items ->
  Forall (fun item => exists id, item_id item = Some ("github-discussion-" +:+ str id)) items.
Proof.
  induction l as [|disc l IH]; intros acc items Hacc; cbn [github.parse_discussions_loop].
  - now intros [= <-].
  - destruct (github.parse_discussion str disc) as [item|e] eqn:Hitem; [|discriminate].
    apply IH. apply Forall_app. split; [assumption|]. apply Forall_singleton.
    eapply parse_discussion_id, Hitem.
Qed.

Lemma parse_issues_ids str issues items :
  github._parse_issues str issues = Return items ->
  Forall (fun item => exists id, item_id item = Some ("github-issue-" +:+ str id)) items.
Proof.
  unfold github._parse_issues. destruct (json_iter issues) as [l|e]; [|discriminate].
  intros Hrun.
  destruct (parse_issues_loop_items str l l [] items (fun _ H => H) (List.Forall_nil _) Hrun)
    as [Hitems _].
  eapply Forall_impl; [exact Hitems|]. intros item (issue & id & _ & _ & _ & Hid & _).
  now exists id.
Qed.

Lemma parse_discussions_ids str discussions items :
  github._parse_discussions str discussions = Return items ->
  Forall (fun item => exists id, item_id item = Some ("github-discussion-" +:+ str id)) items.
Proof.
  unfold github._parse_discussions. destruct (json_iter discussions) as [l|e]; [|discriminate].
  apply parse_discussions_loop_ids. constructor.
Qed.

Lemma create_item_id topic posts item :
  discourse._create_item topic posts = Return item ->
  exists i, item_id item = Some ("discourse-" +:+ i).
Proof.
  unfold discourse._create_item.
  destruct (discourse.topic_id topic) as [i|]; [|discriminate].
  destruct (discourse.title topic); [|discriminate].
  destruct (discourse.slug topic); [|discriminate].
  intros [= <-]. now exists i.
Qed.

(** X30: the sources name their items apart: an item parsed from the
    issues, one parsed from the discussions and one made of a forum topic
    have three different ids, whatever the ids the services gave, so the
    deduplication by id never takes an item of one source for an item of
    another. *)
Theorem source_ids_apart str issues discussions topic posts issue_items discussion_items c :
  github._parse_issues str issues = Return issue_items ->
  github._parse_discussions str discussions = Return discussion_items ->
  discourse._create_item topic posts = Return c ->
  ids_apart issue_items discussion_items
  ∧ ids_apart issue_items [c]
  ∧ ids_apart discussion_items [c].
Proof.
  intros Hi Hd Hc.
  apply parse_issues_ids in Hi. apply parse_discussions_ids in Hd.
  apply create_item_id in Hc as [i Hc].
  rewrite Forall_forall in Hi, Hd. unfold ids_apart. repeat split.
  - apply Forall_forall. intros a Ha. apply Forall_forall. intros b Hb.
    destruct (Hi a Ha) as [x ->]. destruct (Hd b Hb) as [y ->].
    cbv [String.append]. discriminate.
  - apply Forall_forall. intros a Ha. apply Forall_singleton.
    destruct (Hi a Ha) as [x ->]. rewrite Hc. cbv [String.append]. discriminate.
  - apply Forall_forall. intros b Hb. apply Forall_singleton.
    destruct (Hd b Hb) as [y ->]. rewrite Hc. cbv [String.append]. discriminate.
Qed.

Lemma source_ids_apart_witness :
  github._parse_issues digit_str issues_page
  = Return (contribution (github._parse_issues digit_str issues_page))
  ∧ github._parse_discussions digit_str discussions_page
    = Return (contribution (github._parse_discussions digit_str discussions_page))
  ∧ discourse._create_item a_topic []
    = Return {| item_id := Some "discourse-7"; sourceType := "discourse";
                content := "Slow sync" +:+ String "010" (String "010" EmptyString);
                sentiment := None; category := None; summary := None;
                analyzed := false; translations := None |}
  ∧ ids_apart (contribution (github._parse_issues digit_str issues_page))
              (contribution (github._parse_discussions digit_str discussions_page))
  ∧ ids_apart (contribution (github._parse_issues digit_str issues_page))
              [{| item_id := Some "discourse-7"; sourceType := "discourse";
                  content := "Slow sync" +:+ String "010" (String "010" EmptyString);
                  sentiment := None; category := None; summary := None;
                  analyzed := false; translations := None |}]
  ∧ ids_apart (contribution (github._parse_discussions digit_str discussions_page))
              [{| item_id := Some "discourse-7"; sourceType := "discourse";
                  content := "Slow sync" +:+ String "010" (String "010" EmptyString);
                  sentiment := None; category := None; summary := None;
                  analyzed := false; translations := None |}].
Proof.
  split; [reflexivity|]. split; [reflexivity|]. split; [reflexivity|].
  apply (source_ids_apart digit_str issues_page discussions_page a_topic []); reflexivity.
Defined.
